(** * JPLT backend: caches, circuit breakers, batching and variant lookup

    A shallow embedding of the resilience core of the Japanese analyzer
    backend:
      - [backend/enhanced-cache.js]    (EnhancedLRUCache, MultiLevelCache)
      - [backend/request-optimizer.js] (RequestOptimizer, BatchProcessor)
      - [backend/enhanced_server.js]   (generateComprehensiveVariants,
                                        getDefinitionAdvanced,
                                        buildDefinitionFromEntry,
                                        the fallback tokenizer)
      - [backend/build-database.js]    (the sense rows)
      - [backend/performance-monitor.js], [backend/performance-api.js]

    Conventions.
      - A JavaScript string is its sequence of UTF-16 code units
        ([jsstring]); [length], [slice], [endsWith] count code units, as
        JavaScript does.
      - [Date.now()] is an explicit argument [now : Z] (milliseconds) of
        every operation that reads the clock; one reading per operation.
      - JavaScript numbers that are counters, sizes or timestamps are
        integers far below 2^53, where double arithmetic is exact: they
        are [Z]. The ratios the stores compute from them ([hitRate],
        [fillRate], the target size of [optimize]) are IEEE 754 binary64
        numbers with the operations of [SpecFloat] ([Double]). Measured
        durations (the [performance.now()] differences fed to [get], the
        request durations of the monitor) and their averages are
        rationals [Q].
      - A promise is known by what settles it. A function that awaits
        runs up to its [await] when it is called; the rest runs as an
        event of its own when the awaited promise settles.
      - A JavaScript [Map] iterates in insertion order and the eviction
        loop depends on that order, so a [Map] whose iteration the code
        relies on is an insertion-ordered association list ([JsMap]);
        maps that are only looked up are [gmap]s.
      - [console.log] calls and the forwarding of hits and misses to the
        external performance monitor leave the modelled state untouched
        and are omitted. *)

From Stdlib Require Import ZArith QArith Qround Lia Lqa List String Ascii.
From Stdlib Require Import DecimalString.
From Stdlib Require Floats.SpecFloat.
From stdpp Require Import base decidable option list gmap strings.

Local Open Scope Z_scope.

(* ===================================================================== *)
(** * JavaScript strings                                                   *)
(* ===================================================================== *)

(** A string value: its UTF-16 code units. *)
Definition jsstring : Type := list N.

Module Utf.
(** Literals of the source are written as UTF-8 text and decoded to
    code units; characters beyond the basic plane become a surrogate
    pair, as in a JavaScript string. *)

Definition byte_of (a : ascii) : N := N_of_ascii a.

Fixpoint bytes (s : string) : list N :=
  match s with
  | EmptyString => []
  | String a s' => byte_of a :: bytes s'
  end.

Definition units_of_code_point (cp : N) : list N :=
  if (cp <? 65536)%N then [cp]
  else let c := (cp - 65536)%N in
       [(55296 + c / 1024)%N; (56320 + c mod 1024)%N].

Definition cont (b : N) : N := (b mod 64)%N.

Fixpoint decode (fuel : nat) (bs : list N) : list N :=
  match fuel with
  | O => []
  | S fuel' =>
    match bs with
    | [] => []
    | b0 :: r0 =>
      if (b0 <? 128)%N then b0 :: decode fuel' r0
      else if (b0 <? 224)%N then
        match r0 with
        | b1 :: r1 => ((b0 mod 32) * 64 + cont b1)%N :: decode fuel' r1
        | _ => [65533%N]
        end
      else if (b0 <? 240)%N then
        match r0 with
        | b1 :: b2 :: r2 =>
          ((b0 mod 16) * 4096 + cont b1 * 64 + cont b2)%N :: decode fuel' r2
        | _ => [65533%N]
        end
      else
        match r0 with
        | b1 :: b2 :: b3 :: r3 =>
          units_of_code_point
            ((b0 mod 8) * 262144 + cont b1 * 4096 + cont b2 * 64 + cont b3)%N
            ++ decode fuel' r3
        | _ => [65533%N]
        end
    end
  end.

Definition js (s : string) : jsstring :=
  let bs := bytes s in decode (List.length bs) bs.
End Utf.

Abbreviation js := Utf.js.

Module Str.
(** The [String.prototype] methods the backend uses. *)

Definition length (s : jsstring) : Z := Z.of_nat (List.length s).

Fixpoint startsWith_aux (p s : jsstring) : bool :=
  match p, s with
  | [], _ => true
  | _ :: _, [] => false
  | c :: p', d :: s' => bool_decide (c = d) && startsWith_aux p' s'
  end.

(** [s.startsWith(p)] *)
Definition startsWith (s p : jsstring) : bool := startsWith_aux p s.

(** [s.endsWith(p)] *)
Definition endsWith (s p : jsstring) : bool :=
  startsWith_aux (rev p) (rev s).

(** [s.slice(0, -n)] for a positive literal [n]: drop the last [n]
    code units (the empty string when [s] is not longer than [n]). *)
Definition dropLast (n : nat) (s : jsstring) : jsstring :=
  take (List.length s - n)%nat s.

(** [s.slice(n)] for a non-negative literal [n]. *)
Definition sliceFrom (n : nat) (s : jsstring) : jsstring := drop n s.

(** Truthiness of a string: non-empty. *)
Definition truthy (s : jsstring) : bool :=
  match s with [] => false | _ => true end.
End Str.

(* ===================================================================== *)
(** * Insertion-ordered maps ([Map]) and sets ([Set])                      *)
(* ===================================================================== *)

Module JsMap.
Section JsMap.
Context {K V : Type} `{EqDecision K}.

Fixpoint get (k : K) (m : list (K * V)) : option V :=
  match m with
  | [] => None
  | (k', v) :: m' => if decide (k = k') then Some v else get k m'
  end.

Definition has (k : K) (m : list (K * V)) : bool :=
  match get k m with Some _ => true | None => false end.

(** [m.set(k, v)]: an existing key keeps its position, a new key
    goes last. *)
Fixpoint set (k : K) (v : V) (m : list (K * V)) : list (K * V) :=
  match m with
  | [] => [(k, v)]
  | (k', v') :: m' =>
    if decide (k = k') then (k, v) :: m' else (k', v') :: set k v m'
  end.

Fixpoint delete (k : K) (m : list (K * V)) : list (K * V) :=
  match m with
  | [] => []
  | (k', v') :: m' =>
    if decide (k = k') then delete k m' else (k', v') :: delete k m'
  end.

Definition size (m : list (K * V)) : Z := Z.of_nat (List.length m).

Definition keys (m : list (K * V)) : list K := List.map fst m.
End JsMap.
End JsMap.

Module JsSet.
Section JsSet.
Context {A : Type} `{EqDecision A}.

(** [s.add(x)]: a new element goes last, a present one is kept where
    it is. *)
Definition add (x : A) (s : list A) : list A :=
  if bool_decide (x ∈ s) then s else s ++ [x].

(** [xs.forEach(x => s.add(x))] *)
Definition addAll (xs : list A) (s : list A) : list A :=
  fold_left (fun acc x => add x acc) xs s.
End JsSet.
End JsSet.


(* ===================================================================== *)
(** * Cached values                                                        *)
(* ===================================================================== *)

(** The values the backend stores in its caches: [null], a number, or an
    object (a definition record, an analysis result, ...). *)
Inductive jsvalue (O : Type) : Type :=
| JNull
| JNum (n : Z)
| JObj (o : O).

Arguments JNull {O}.
Arguments JNum {O} n.
Arguments JObj {O} o.

(** Truthiness, as tested by [if (v)]. *)
Definition truthy {O : Type} (v : jsvalue O) : bool :=
  match v with
  | JNull => false
  | JNum n => negb (n =? 0)
  | JObj _ => true
  end.

(** [Math.round] on the rationals: the nearest integer, halves upwards. *)
Definition Math_round (x : Q) : Z := Qfloor (x + (1 # 2))%Q.

(** [Math.floor] *)
Definition Math_floor (x : Q) : Z := Qfloor x.

(* ===================================================================== *)
(** * JavaScript numbers: IEEE 754 binary64                                *)
(* ===================================================================== *)

Module Double.

Definition t : Type := SpecFloat.spec_float.

(** The literal [0] *)
Definition zero : t := SpecFloat.S754_zero false.

(** The number an integer denotes (the nearest double, ties to even;
    the integer itself below 2^53). *)
Definition of_Z (z : Z) : t := SpecFloat.binary_normalize 53 1024 z 0 false.

(** [x * y] and [x / y], rounded to nearest, ties to even. *)
Definition mul : t -> t -> t := SpecFloat.SFmul 53 1024.
Definition div : t -> t -> t := SpecFloat.SFdiv 53 1024.

(** A decimal literal with two digits after the point, such as [0.29]:
    the double nearest to [n / 100]. *)
Definition hundredths (n : Z) : t := div (of_Z n) (of_Z 100).

(** The integer [+-m] of a finite double [+-m * 2^e]. *)
Definition signed (s : bool) (m : positive) : Z :=
  if s then Z.neg m else Z.pos m.

(** An integral JavaScript number: what [Math.floor] returns. *)
Inductive integral : Type :=
| Integer (z : Z)
| PlusInfinity
| MinusInfinity
| NotANumber.

(** [Math.floor(x)]: the floor of the exact value of [x]; infinities and
    [NaN] are returned as they are. *)
Definition Math_floor (x : t) : integral :=
  match x with
  | SpecFloat.S754_zero _ => Integer 0
  | SpecFloat.S754_infinity s => if s then MinusInfinity else PlusInfinity
  | SpecFloat.S754_nan => NotANumber
  | SpecFloat.S754_finite s m e =>
    Integer (if 0 <=? e then signed s m * 2 ^ e else signed s m / 2 ^ (- e))
  end.

(** [Math.round(x)]: the integer nearest to the exact value of [x],
    halves upwards; a result of zero keeps the sign of [x]; zeros,
    infinities and [NaN] are returned as they are. *)
Definition Math_round (x : t) : t :=
  match x with
  | SpecFloat.S754_finite s m e =>
    let n := if 0 <=? e then signed s m * 2 ^ e
             else (2 * signed s m + 2 ^ (- e)) / 2 ^ (1 - e) in
    if n =? 0 then SpecFloat.S754_zero s else of_Z n
  | _ => x
  end.

End Double.

Arguments Double.of_Z : simpl never.
Arguments Double.mul : simpl never.
Arguments Double.div : simpl never.
Arguments Double.Math_round : simpl never.
Arguments Double.Math_floor : simpl never.

(* ===================================================================== *)
(** * enhanced-cache.js: class EnhancedLRUCache                            *)
(* ===================================================================== *)

Module EnhancedLRUCache.
Section Store.
Context {O : Type}.

Record Item : Type := mkItem {
  value : jsvalue O;
  expiry : Z;
  created : Z;
  accessed : Z
}.

Record Stats : Type := mkStats {
  hits : Z;
  misses : Z;
  evictions : Z;
  size : Z;
  hitRate : Double.t;
  averageAccessTime : Q;
  accessTimes : list Q
}.

Record t : Type := mk {
  maxSize : Z;
  ttl : Z;
  cache : list (jsstring * Item);
  accessOrder : list (jsstring * Z);
  stats : Stats
}.

(** [constructor(maxSize = 1000, ttl = 3600000)]; the sweep it schedules
    with [setInterval] is the operation [cleanup] below, run by the
    timer. *)
Definition new (maxSize ttl : Z) : t :=
  mk maxSize ttl [] [] (mkStats 0 0 0 0 Double.zero 0%Q []).

Definition new_default : t := new 1000 3600000.

Definition with_stats (f : Stats -> Stats) (c : t) : t :=
  mk (maxSize c) (ttl c) (cache c) (accessOrder c) (f (stats c)).

Definition set_size (n : Z) (s : Stats) : Stats :=
  mkStats (hits s) (misses s) (evictions s) n
          (hitRate s) (averageAccessTime s) (accessTimes s).

Definition incr_hits (s : Stats) : Stats :=
  mkStats (hits s + 1) (misses s) (evictions s) (size s)
          (hitRate s) (averageAccessTime s) (accessTimes s).

Definition incr_misses (s : Stats) : Stats :=
  mkStats (hits s) (misses s + 1) (evictions s) (size s)
          (hitRate s) (averageAccessTime s) (accessTimes s).

Definition incr_evictions (s : Stats) : Stats :=
  mkStats (hits s) (misses s) (evictions s + 1) (size s)
          (hitRate s) (averageAccessTime s) (accessTimes s).

(** [accessTimes.reduce((a, b) => a + b, 0)] *)
Definition sumQ (l : list Q) : Q := fold_left Qplus l 0%Q.

(** The rolling window of access-time samples kept by [get]. *)
Definition recordAccessTime (accessTime : Q) (s : Stats) : Stats :=
  let ts := accessTimes s ++ [accessTime] in
  let ts := if 1000 <? Z.of_nat (List.length ts) then tail ts else ts in
  mkStats (hits s) (misses s) (evictions s) (size s) (hitRate s)
          (sumQ ts / inject_Z (Z.of_nat (List.length ts)))%Q ts.

(** [updateHitRate()]: a percentage,
    [total > 0 ? (hits / total) * 100 : 0] in double arithmetic. *)
Definition updateHitRate (s : Stats) : Stats :=
  let total := hits s + misses s in
  mkStats (hits s) (misses s) (evictions s) (size s)
          (if 0 <? total
           then Double.mul (Double.div (Double.of_Z (hits s))
                                       (Double.of_Z total))
                           (Double.of_Z 100)
           else Double.zero)
          (averageAccessTime s) (accessTimes s).

(** [isValid(item)] *)
Definition isValid (now : Z) (it : Item) : bool := now <? expiry it.

(** [get(key)] at clock reading [now]; [accessTime] is the measured
    duration of the map lookup ([performance.now()] difference). *)
Definition get (key : jsstring) (now : Z) (accessTime : Q) (c : t)
  : jsvalue O * t :=
  let item := JsMap.get key (cache c) in
  let st := recordAccessTime accessTime (stats c) in
  match item with
  | Some it =>
    if isValid now it then
      (value it,
       mk (maxSize c) (ttl c) (cache c)
          (JsMap.set key now (accessOrder c))
          (updateHitRate (incr_hits st)))
    else
      (JNull,
       mk (maxSize c) (ttl c)
          (JsMap.delete key (cache c))
          (JsMap.delete key (accessOrder c))
          (updateHitRate (incr_misses st)))
  | None =>
    (JNull,
     mk (maxSize c) (ttl c) (cache c) (accessOrder c)
        (updateHitRate (incr_misses st)))
  end.

(** The loop of [evictLRU]: [oldestTime] starts at [Infinity] ([None]),
    [oldestKey] at [null], and an entry replaces the candidate only when
    its time is strictly smaller. *)
Definition oldest_step (acc : option jsstring * option Z)
  (e : jsstring * Z) : option jsstring * option Z :=
  let '(key, time) := e in
  match snd acc with
  | None => (Some key, Some time)
  | Some oldestTime =>
    if time <? oldestTime then (Some key, Some time) else acc
  end.

Definition oldest (ao : list (jsstring * Z)) : option jsstring * option Z :=
  fold_left oldest_step ao (None, None).

(** [evictLRU()]; the guard [if (oldestKey)] is a truthiness test. *)
Definition evictLRU (c : t) : t :=
  match accessOrder c with
  | [] => c
  | _ =>
    match fst (oldest (accessOrder c)) with
    | Some oldestKey =>
      if Str.truthy oldestKey then
        let cache' := JsMap.delete oldestKey (cache c) in
        mk (maxSize c) (ttl c) cache'
           (JsMap.delete oldestKey (accessOrder c))
           (set_size (JsMap.size cache') (incr_evictions (stats c)))
      else c
    | None => c
    end
  end.

(** [customTTL || this.ttl] *)
Definition effective_ttl (customTTL : option Z) (c : t) : Z :=
  match customTTL with
  | Some t => if t =? 0 then ttl c else t
  | None => ttl c
  end.

(** [set(key, value, customTTL = null)] *)
Definition set (key : jsstring) (v : jsvalue O) (customTTL : option Z)
  (now : Z) (c : t) : t :=
  let expiry := now + effective_ttl customTTL c in
  let c1 :=
    if (maxSize c <=? JsMap.size (cache c)) && negb (JsMap.has key (cache c))
    then evictLRU c else c in
  let cache' := JsMap.set key (mkItem v expiry now now) (cache c1) in
  mk (maxSize c1) (ttl c1) cache'
     (JsMap.set key now (accessOrder c1))
     (set_size (JsMap.size cache') (stats c1)).

(** One round of the loop of [cleanup]. *)
Definition cleanup_step (now : Z) (acc : Z * t) (e : jsstring * Item)
  : Z * t :=
  let '(cleaned, c) := acc in
  let '(key, item) := e in
  if expiry item <=? now then
    (cleaned + 1,
     mk (maxSize c) (ttl c) (JsMap.delete key (cache c))
        (JsMap.delete key (accessOrder c)) (stats c))
  else acc.

(** [cleanup()]: returns the number of entries removed. *)
Definition cleanup (now : Z) (c : t) : Z * t :=
  let '(cleaned, c1) := fold_left (cleanup_step now) (cache c) (0, c) in
  (cleaned, with_stats (set_size (JsMap.size (cache c1))) c1).

(** [clear()] *)
Definition clear (c : t) : t :=
  mk (maxSize c) (ttl c) [] [] (set_size 0 (stats c)).

(** [has(key)] *)
Definition has (key : jsstring) (now : Z) (c : t) : bool :=
  match JsMap.get key (cache c) with
  | Some it => isValid now it
  | None => false
  end.

(** [delete(key)] *)
Definition delete (key : jsstring) (c : t) : bool * t :=
  let deleted := JsMap.has key (cache c) in
  let cache' := JsMap.delete key (cache c) in
  (deleted,
   mk (maxSize c) (ttl c) cache' (JsMap.delete key (accessOrder c))
      (set_size (JsMap.size cache') (stats c))).

(** [preload(entries)] *)
Definition preload_step (now : Z) (acc : Z * t) (e : jsstring * jsvalue O)
  : Z * t :=
  let '(loaded, c) := acc in
  let '(key, v) := e in
  if negb (has key now c) then (loaded + 1, set key v None now c) else acc.

Definition preload (entries : list (jsstring * jsvalue O)) (now : Z) (c : t)
  : Z * t :=
  fold_left (preload_step now) entries (0, c).

(** What [getStats()] reports. [memoryUsage] (an estimate from
    [JSON.stringify] lengths) is not modelled. [hitRate] is
    [Math.round(stats.hitRate * 100) / 100] and [fillRate] is
    [(stats.size / maxSize) * 100], both in double arithmetic. *)
Record Report : Type := mkReport {
  r_hits : Z;
  r_misses : Z;
  r_evictions : Z;
  r_size : Z;
  r_hitRate : Double.t;
  r_averageAccessTime : Q;
  r_fillRate : Double.t
}.

Definition getStats (c : t) : Report :=
  let s := stats c in
  mkReport (hits s) (misses s) (evictions s) (size s)
    (Double.div (Double.Math_round (Double.mul (hitRate s) (Double.of_Z 100)))
                (Double.of_Z 100))
    (inject_Z (Math_round (averageAccessTime s * 1000)) / 1000)%Q
    (Double.mul (Double.div (Double.of_Z (size s)) (Double.of_Z (maxSize c)))
                (Double.of_Z 100)).

(** An element of the array produced by [export()] and read by
    [import(data)]. *)
Record Exported : Type := mkExported {
  e_key : jsstring;
  e_value : jsvalue O;
  e_expiry : Z;
  e_created : Z
}.

(** [export()] *)
Definition export (now : Z) (c : t) : list Exported :=
  omap (fun '(key, item) =>
          if isValid now item
          then Some (mkExported key (value item) (expiry item) (created item))
          else None)
       (cache c).

(** One round of the loop of [import]. *)
Definition import_step (now : Z) (acc : Z * t) (item : Exported) : Z * t :=
  let '(imported, c) := acc in
  if now <? e_expiry item then
    (imported + 1,
     mk (maxSize c) (ttl c)
        (JsMap.set (e_key item)
           (mkItem (e_value item) (e_expiry item) (e_created item) now)
           (cache c))
        (JsMap.set (e_key item) now (accessOrder c))
        (stats c))
  else acc.

(** [import(data)] *)
Definition import (data : list Exported) (now : Z) (c : t) : Z * t :=
  let '(imported, c1) := fold_left (import_step now) data (0, c) in
  (imported, with_stats (set_size (JsMap.size (cache c1))) c1).

(** [Array.prototype.sort((a, b) => a[1] - b[1])]: a stable sort by
    ascending time. *)
Fixpoint insert_by_time (x : jsstring * Z) (l : list (jsstring * Z))
  : list (jsstring * Z) :=
  match l with
  | [] => [x]
  | y :: l' => if snd x <? snd y then x :: l else y :: insert_by_time x l'
  end.

Definition sort_by_time (l : list (jsstring * Z)) : list (jsstring * Z) :=
  fold_left (fun acc x => insert_by_time x acc) l [].

(** The loop of [optimize]: [delete] and count each of [entries]. *)
Definition remove_entries (entries : list (jsstring * Z)) (c : t) : Z * t :=
  fold_left (fun '(removed, c') '(key, _) =>
               (removed + 1, snd (delete key c')))
            entries (0, c).

(** [Math.floor(this.maxSize * targetFillRate)], the product being a
    double. *)
Definition targetSize (targetFillRate : Double.t) (c : t) : Double.integral :=
  Double.Math_floor (Double.mul (Double.of_Z (maxSize c)) targetFillRate).

(** [optimize(targetFillRate = 0.8)]. The size of the map and the
    integer target are compared as integers, which is what the
    comparison of the two doubles amounts to. The loop runs while
    [i < toRemove && i < sortedEntries.length] with
    [toRemove = this.cache.size - targetSize] (a difference that is
    exact unless it exceeds 2^53, and then also exceeds the number of
    entries):
      - an integer target at or above the size returns at once, as does
        [+Infinity];
      - an integer target below the size removes the first [toRemove]
        of the sorted entries, or all of them if there are fewer;
      - [NaN] fails the test [size <= targetSize] and every test
        [i < toRemove]: nothing is removed;
      - [-Infinity] makes [toRemove] infinite: every entry is removed. *)
Definition optimize (targetFillRate : Double.t) (c : t) : Z * t :=
  let sortedEntries := sort_by_time (accessOrder c) in
  match targetSize targetFillRate c with
  | Double.Integer targetSize =>
    if JsMap.size (cache c) <=? targetSize then (0, c)
    else
      let toRemove := JsMap.size (cache c) - targetSize in
      remove_entries (take (Z.to_nat toRemove) sortedEntries) c
  | Double.PlusInfinity => (0, c)
  | Double.NotANumber => (0, c)
  | Double.MinusInfinity => remove_entries sortedEntries c
  end.

(** The default argument of [optimize], the literal [0.8]. *)
Definition default_targetFillRate : Double.t :=
  Double.div (Double.of_Z 8) (Double.of_Z 10).

(** The operations of a store, each with the clock reading it sees. *)
Inductive op : Type :=
| OpGet (key : jsstring) (now : Z) (accessTime : Q)
| OpSet (key : jsstring) (v : jsvalue O) (customTTL : option Z) (now : Z)
| OpDelete (key : jsstring)
| OpClear
| OpPreload (entries : list (jsstring * jsvalue O)) (now : Z)
| OpImport (data : list Exported) (now : Z)
| OpOptimize (targetFillRate : Double.t)
| OpCleanup (now : Z).

Definition step (c : t) (o : op) : t :=
  match o with
  | OpGet key now accessTime => snd (get key now accessTime c)
  | OpSet key v customTTL now => set key v customTTL now c
  | OpDelete key => snd (delete key c)
  | OpClear => clear c
  | OpPreload entries now => snd (preload entries now c)
  | OpImport data now => snd (import data now c)
  | OpOptimize targetFillRate => snd (optimize targetFillRate c)
  | OpCleanup now => snd (cleanup now c)
  end.

Definition run (ops : list op) (c : t) : t := fold_left step ops c.

Definition is_get (o : op) : bool :=
  match o with OpGet _ _ _ => true | _ => false end.

(** The number of [get] calls in a history. *)
Definition gets (ops : list op) : Z :=
  Z.of_nat (List.length (List.filter is_get ops)).

(** The three fields that only [get] touches. *)
Definition counters (c : t) : Z * Z * Double.t :=
  (hits (stats c), misses (stats c), hitRate (stats c)).

(** The percentage [updateHitRate] stores. *)
Definition percentage (h m : Z) : Double.t :=
  if 0 <? h + m
  then Double.mul (Double.div (Double.of_Z h) (Double.of_Z (h + m)))
                  (Double.of_Z 100)
  else Double.zero.

(** The counters are in step with a history of [n] reads. *)
Definition in_step (n : Z) (c : t) : Prop :=
  0 <= hits (stats c) /\ 0 <= misses (stats c)
  /\ hits (stats c) + misses (stats c) = n
  /\ hitRate (stats c) = percentage (hits (stats c)) (misses (stats c)).

(** Every key of the entry map has a counterpart in the access-order
    map, and conversely. *)
Definition keys_agree (c : t) : Prop :=
  forall k, JsMap.has k (cache c) = JsMap.has k (accessOrder c).

End Store.

Arguments Item : clear implicits.
Arguments t : clear implicits.
Arguments op : clear implicits.
Arguments Exported : clear implicits.
End EnhancedLRUCache.

(* ===================================================================== *)
(** * enhanced-cache.js: class MultiLevelCache                             *)
(* ===================================================================== *)

Module MultiLevelCache.
Section Levels.
Context {O : Type}.

Record t : Type := mk {
  definitionCache : EnhancedLRUCache.t O;
  analysisCache : EnhancedLRUCache.t O;
  imageCache : EnhancedLRUCache.t O;
  frequentWordsCache : EnhancedLRUCache.t O
}.

(** [constructor()] *)
Definition new : t :=
  mk (EnhancedLRUCache.new 1000 3600000)
     (EnhancedLRUCache.new 500 1800000)
     (EnhancedLRUCache.new 100 7200000)
     (EnhancedLRUCache.new 2000 86400000).

(** [getCache] returns one of the four stores by reference; here it
    returns which one, and [read] and [write] dereference it. *)
Inductive level : Type :=
| DefinitionCache | AnalysisCache | ImageCache | FrequentWordsCache.

Definition getCache (type : string) : level :=
  if bool_decide (type = "definition"%string) then DefinitionCache
  else if bool_decide (type = "analysis"%string) then AnalysisCache
  else if bool_decide (type = "image"%string) then ImageCache
  else if bool_decide (type = "frequent"%string) then FrequentWordsCache
  else DefinitionCache.

Definition read (l : level) (m : t) : EnhancedLRUCache.t O :=
  match l with
  | DefinitionCache => definitionCache m
  | AnalysisCache => analysisCache m
  | ImageCache => imageCache m
  | FrequentWordsCache => frequentWordsCache m
  end.

Definition write (l : level) (c : EnhancedLRUCache.t O) (m : t) : t :=
  match l with
  | DefinitionCache =>
    mk c (analysisCache m) (imageCache m) (frequentWordsCache m)
  | AnalysisCache =>
    mk (definitionCache m) c (imageCache m) (frequentWordsCache m)
  | ImageCache =>
    mk (definitionCache m) (analysisCache m) c (frequentWordsCache m)
  | FrequentWordsCache =>
    mk (definitionCache m) (analysisCache m) (imageCache m) c
  end.

(** [get(key, type = 'definition')] *)
Definition get (key : jsstring) (type : string) (now : Z) (accessTime : Q)
  (m : t) : jsvalue O * t :=
  let l := getCache type in
  let '(v, c) := EnhancedLRUCache.get key now accessTime (read l m) in
  (v, write l c m).

(** [set(key, value, type = 'definition', customTTL = null)] *)
Definition set (key : jsstring) (v : jsvalue O) (type : string)
  (customTTL : option Z) (now : Z) (m : t) : t :=
  let l := getCache type in
  write l (EnhancedLRUCache.set key v customTTL now (read l m)) m.

(** [warmUp(commonWords)] *)
Definition warmUp (commonWords : list (jsstring * jsvalue O)) (now : Z)
  (m : t) : Z * t :=
  let '(n, c) := EnhancedLRUCache.preload commonWords now
                   (frequentWordsCache m) in
  (n, write FrequentWordsCache c m).

(** [clearAll()] *)
Definition clearAll (m : t) : t :=
  mk (EnhancedLRUCache.clear (definitionCache m))
     (EnhancedLRUCache.clear (analysisCache m))
     (EnhancedLRUCache.clear (imageCache m))
     (EnhancedLRUCache.clear (frequentWordsCache m)).

End Levels.

(** The data-class tags [getCache] names. *)
Definition known_types : list string :=
  ["definition"; "analysis"; "image"; "frequent"]%string.
Arguments t : clear implicits.
End MultiLevelCache.

(* ===================================================================== *)
(** * request-optimizer.js: circuit breakers                               *)
(* ===================================================================== *)

Module CircuitBreaker.

Inductive State : Type := CLOSED | OPEN | HALF_OPEN.

#[global] Instance State_eq_dec : EqDecision State.
Proof. solve_decision. Defined.

Record Config : Type := mkConfig {
  failureThreshold : Z;
  resetTimeout : Z;
  monitoringPeriod : Z
}.

(** The [options] argument of [createCircuitBreaker]: each key is given
    or left out. *)
Record Options : Type := mkOptions {
  opt_failureThreshold : option Z;
  opt_resetTimeout : option Z;
  opt_monitoringPeriod : option Z
}.

Record Breaker : Type := mkBreaker {
  state : State;
  failures : Z;
  lastFailureTime : option Z;
  nextAttempt : option Z;
  config : Config
}.

(** The [config] object literal: a default for a missing key, and the
    trailing spread [...options] restores the caller's value for every
    key that was given. *)
Definition make_config (options : Options) : Config :=
  mkConfig (default 5 (opt_failureThreshold options))
           (default 30000 (opt_resetTimeout options))
           (default 60000 (opt_monitoringPeriod options)).

Definition new_breaker (options : Options) : Breaker :=
  mkBreaker CLOSED 0 None None (make_config options).

(** [createCircuitBreaker(serviceName, options = {})] *)
Definition createCircuitBreaker (serviceName : string) (options : Options)
  (circuitBreakers : gmap string Breaker) : gmap string Breaker :=
  <[serviceName := new_breaker options]> circuitBreakers.

(** [now < breaker.nextAttempt]; a [null] right-hand side compares as 0. *)
Definition before_next_attempt (now : Z) (b : Breaker) : bool :=
  match nextAttempt b with
  | Some t => now <? t
  | None => now <? 0
  end.

Section Execute.
(** [R]: what the guarded operation and the fallback resolve to;
    [E]: what they reject with. *)
Context {R E : Type}.

Inductive Error : Type :=
| BreakerNotFound (serviceName : string)
| TemporarilyUnavailable (serviceName : string)
| Rejected (error : E).

Inductive Completion : Type :=
| Returned (result : R)
| Thrown (error : Error).

(** The calls a run of [executeWithCircuitBreaker] makes. *)
Inductive Call : Type := CallOperation | CallFallback.

Definition completion_of (r : R + E) : Completion :=
  match r with
  | inl result => Returned result
  | inr error => Thrown (Rejected error)
  end.

(** The [try] branch after the operation resolved. *)
Definition on_success (b : Breaker) : Breaker :=
  if decide (state b = HALF_OPEN)
  then mkBreaker CLOSED 0 (lastFailureTime b) (nextAttempt b) (config b)
  else b.

(** The [catch] branch, up to the fallback. *)
Definition on_failure (now : Z) (b : Breaker) : Breaker :=
  let failures' := failures b + 1 in
  if failureThreshold (config b) <=? failures'
  then mkBreaker OPEN failures' (Some now)
                 (Some (now + resetTimeout (config b))) (config b)
  else mkBreaker (state b) failures' (Some now) (nextAttempt b) (config b).

(** The state check at the start of a call that goes through. *)
Definition on_entry (b : Breaker) : Breaker :=
  if decide (state b = OPEN)
  then mkBreaker HALF_OPEN (failures b) (lastFailureTime b)
                 (nextAttempt b) (config b)
  else b.

(** [executeWithCircuitBreaker(serviceName, operation, fallback = null)]
    at clock reading [now]; calls are taken one at a time. The result
    carries the completion, the calls made in order, and the registry
    afterwards. *)
Definition executeWithCircuitBreaker (serviceName : string)
  (operation : unit -> R + E) (fallback : option (unit -> R + E))
  (now : Z) (circuitBreakers : gmap string Breaker)
  : Completion * list Call * gmap string Breaker :=
  match circuitBreakers !! serviceName with
  | None => (Thrown (BreakerNotFound serviceName), [], circuitBreakers)
  | Some breaker =>
    if bool_decide (state breaker = OPEN) && before_next_attempt now breaker
    then
      match fallback with
      | Some fb => (completion_of (fb tt), [CallFallback], circuitBreakers)
      | None =>
        (Thrown (TemporarilyUnavailable serviceName), [], circuitBreakers)
      end
    else
      let breaker1 := on_entry breaker in
      match operation tt with
      | inl result =>
        (Returned result, [CallOperation],
         <[serviceName := on_success breaker1]> circuitBreakers)
      | inr error =>
        let circuitBreakers' :=
          <[serviceName := on_failure now breaker1]> circuitBreakers in
        match fallback with
        | Some fb =>
          (completion_of (fb tt), [CallOperation; CallFallback],
           circuitBreakers')
        | None =>
          (Thrown (Rejected error), [CallOperation], circuitBreakers')
        end
      end
  end.

(** A history of calls on one service: the clock reading and what the
    operation did, with no fallback. *)
Definition call_once (serviceName : string)
  (circuitBreakers : gmap string Breaker) (c : Z * (R + E))
  : gmap string Breaker :=
  (executeWithCircuitBreaker serviceName (fun _ => snd c) None (fst c)
     circuitBreakers).2.

Definition calls (serviceName : string) (history : list (Z * (R + E)))
  (circuitBreakers : gmap string Breaker) : gmap string Breaker :=
  fold_left (call_once serviceName) history circuitBreakers.

Definition is_failure (c : Z * (R + E)) : bool :=
  match snd c with inr _ => true | inl _ => false end.

(** Failures in a history, all of them. *)
Definition count_failures (history : list (Z * (R + E))) : Z :=
  Z.of_nat (List.length (List.filter is_failure history)).

(** What a counter of consecutive failures would read at the end of a
    history: the length of its trailing run of failures. *)
Fixpoint trailing_failures_rev (rev_history : list (Z * (R + E))) : Z :=
  match rev_history with
  | c :: rest => if is_failure c then 1 + trailing_failures_rev rest else 0
  | [] => 0
  end.

Definition consecutive_failures (history : list (Z * (R + E))) : Z :=
  trailing_failures_rev (rev history).

(** The breaker after one call, as a function of the clock reading and
    of whether the operation resolved. *)
Definition resolves (r : R + E) : bool :=
  match r with inl _ => true | inr _ => false end.

Definition after_call (now : Z) (resolved : bool) (b : Breaker) : Breaker :=
  if bool_decide (state b = OPEN) && before_next_attempt now b then b
  else if resolved then on_success (on_entry b)
       else on_failure now (on_entry b).

(** What holds of a breaker between calls, [history] being the calls
    made since it was created with configuration [cfg]. *)
Definition breaker_inv (cfg : Config) (history : list (Z * (R + E)))
  (b : Breaker) : Prop :=
  config b = cfg
  /\ state b <> HALF_OPEN
  /\ (state b = OPEN ->
      failureThreshold cfg <= failures b /\ is_Some (nextAttempt b))
  /\ (count_failures history < failureThreshold cfg ->
      state b = CLOSED /\ failures b = count_failures history).

(** The longest run of consecutive failures anywhere in a history. *)
Fixpoint longest_failure_run_from (run best : Z)
  (history : list (Z * (R + E))) : Z :=
  match history with
  | [] => Z.max run best
  | c :: rest =>
    if is_failure c then longest_failure_run_from (run + 1) best rest
    else longest_failure_run_from 0 (Z.max run best) rest
  end.

Definition longest_failure_run (history : list (Z * (R + E))) : Z :=
  longest_failure_run_from 0 0 history.

End Execute.

Arguments Error : clear implicits.
Arguments Completion : clear implicits.
End CircuitBreaker.

(* ===================================================================== *)
(** * request-optimizer.js: request deduplication                          *)
(* ===================================================================== *)

Module Deduplication.

(** The parts of an incoming request the middleware reads. *)
Record Request : Type := mkRequest {
  method : string;
  path : string;
  body_text : option jsstring;
  body_word : option jsstring
}.

(** [extractCriticalParams(req)]: the properties of the object it
    returns that [JSON.stringify] keeps (an [undefined] one is dropped). *)
Definition extractCriticalParams (req : Request)
  : list (string * jsstring) :=
  if bool_decide (path req = "/api/full-analysis"%string) then
    match body_text req with Some text => [("text"%string, text)] | None => [] end
  else if bool_decide (path req = "/api/debug-lookup"%string) then
    match body_word req with Some word => [("word"%string, word)] | None => [] end
  else [].

(** [generateRequestKey(req)]: the template string
    [method:path:JSON.stringify(criticalParams)], kept as its three
    interpolated parts. *)
Definition Key : Type := string * string * list (string * jsstring).

Definition generateRequestKey (req : Request) : Key :=
  (method req, path req, extractCriticalParams req).

(** An entry of [requestQueue]. The promise is named by the request it
    was created for. *)
Record QueueEntry : Type := mkEntry {
  promise : nat;
  timestamp : Z
}.

Section Middleware.
(** [Resp]: what a route handler sends with [res.json]. *)
Context {Resp : Type}.

(** The middleware's registry and what can be observed around it.
    Requests are named by numbers.
      - [requestQueue]: the registry;
      - [subscribers]: for each promise, the requests whose [then] and
        [catch] callbacks wait on it;
      - [cleanupKey]: for each request passed on, the key its wrapped
        [res.end] deletes;
      - [executed]: the requests passed to [next()], in order;
      - [responses]: the responses sent, in order.
    The promise's [resolve] and [reject] are stored on the request
    object ([req.resolve], [req.reject]); no route handler and no other
    code of the backend calls them, so no transition settles a
    promise. *)
Record World : Type := mkWorld {
  requestQueue : gmap Key QueueEntry;
  subscribers : gmap nat (list nat);
  cleanupKey : gmap nat Key;
  executed : list nat;
  responses : list (nat * Resp)
}.

Definition empty_world : World := mkWorld ∅ ∅ ∅ [] [].

(** The middleware function, run for request [id] at clock reading
    [now]. *)
Definition middleware (id : nat) (req : Request) (now : Z) (w : World)
  : World :=
  let key := generateRequestKey req in
  match requestQueue w !! key with
  | Some existingRequest =>
    let p := promise existingRequest in
    mkWorld (requestQueue w)
            (<[p := default [] (subscribers w !! p) ++ [id]]> (subscribers w))
            (cleanupKey w) (executed w) (responses w)
  | None =>
    mkWorld (<[key := mkEntry id now]> (requestQueue w))
            (<[id := []]> (subscribers w))
            (<[id := key]> (cleanupKey w))
            (executed w ++ [id])
            (responses w)
  end.

(** The route handler of request [id] sends [resp]: the wrapped
    [res.end] deletes the key, then the response goes out. Only a
    request that was passed on has a handler running. *)
Definition handler_ends (id : nat) (resp : Resp) (w : World) : World :=
  match cleanupKey w !! id with
  | Some key =>
    mkWorld (base.delete key (requestQueue w)) (subscribers w)
            (base.delete id (cleanupKey w)) (executed w)
            (responses w ++ [(id, resp)])
  | None => w
  end.

(** One run of the interval callback of [startCleanupProcess]. *)
Definition sweep (now : Z) (w : World) : World :=
  let maxAge := 5 * 60 * 1000 in
  mkWorld (filter (fun kv => negb (maxAge <? now - timestamp kv.2) = true)
                  (requestQueue w))
          (subscribers w) (cleanupKey w) (executed w) (responses w).

Inductive event : Type :=
| Arrives (id : nat) (req : Request) (now : Z)
| HandlerEnds (id : nat) (resp : Resp)
| Sweep (now : Z).

Definition step (w : World) (e : event) : World :=
  match e with
  | Arrives id req now => middleware id req now w
  | HandlerEnds id resp => handler_ends id resp w
  | Sweep now => sweep now w
  end.

Definition run (trace : list event) (w : World) : World :=
  fold_left step trace w.

(** The response request [id] has received, if any. *)
Definition response_of (id : nat) (w : World) : option Resp :=
  snd <$> List.find (fun r => bool_decide (fst r = id)) (responses w).

(** Responses go only to requests that were passed on to a handler. *)
Definition answered_are_executed (w : World) : Prop :=
  (forall id, is_Some (cleanupKey w !! id) -> id ∈ executed w)
  /\ (forall id resp, (id, resp) ∈ responses w -> id ∈ executed w).

(** The arrivals of requests [first], [first + 1], ... with one
    signature at one instant. *)
Definition arrivals (req : Request) (now : Z) (first n : nat)
  : list event :=
  List.map (fun id => Arrives id req now) (seq first n).

(** The event is the arrival of request [id]. *)
Definition arrival_of (id : nat) (e : event) : Prop :=
  match e with Arrives id' _ _ => id' = id | _ => False end.

End Middleware.
Arguments World : clear implicits.
Arguments event : clear implicits.
End Deduplication.

(* ===================================================================== *)
(** * request-optimizer.js: class BatchProcessor                           *)
(* ===================================================================== *)

Module BatchProcessor.
Section Batches.
(** [I]: work items, which are objects: [addToBatch] writes the fields
    [resolve] and [reject] of the item it is given, so an item is known
    by its identity; [R]: per-item results; [E]: errors. *)
Context {I R E : Type} `{EqDecision I}.

(** What a call [batch.processor(items)] does: it throws, or it returns
    a promise (or a plain value, which [await] wraps) that settles
    later, resolving to the array of results or rejecting. *)
Inductive Reply : Type :=
| Throws (error : E)
| Returns (outcome : list R + E).

(** A bulk processor. *)
Definition Processor : Type := list I -> Reply.

Record Batch : Type := mkBatch {
  items : list I;
  processor : Processor;
  timeout : option nat
}.

Record Stats : Type := mkStats {
  batchesProcessed : Z;
  itemsProcessed : Z;
  averageBatchSize : Double.t
}.

Record t : Type := mk {
  batches : gmap string Batch;
  batchTimeout : Z;
  maxBatchSize : Z;
  stats : Stats
}.

(** [constructor()] *)
Definition new : t := mk ∅ 100 10 (mkStats 0 0 Double.zero).

(** A timer armed with [setTimeout]: its handle, when it is due, and the
    batch type its callback flushes. *)
Record Timer : Type := mkTimer {
  timer_id : nat;
  deadline : Z;
  timer_type : string
}.

(** A call of a callback of an item: [item.resolve(result)], where
    [result] is [results[index]] and so may be [undefined], or
    [item.reject(error)]. The call settles the promise of the
    submission that wrote the fields of the item last. *)
Inductive Settlement : Type :=
| Resolved (item : I) (result : option R)
| RejectedWith (item : I) (error : E).

(** A call of a batch's processor. *)
Record Flush : Type := mkFlush {
  flush_time : Z;
  flush_type : string;
  flush_items : list I
}.

(** A run of [processBatch] suspended at its [await]: the items it took
    and what the promise it waits for will settle to. *)
Record Job : Type := mkJob {
  job_id : nat;
  job_items : list I;
  job_outcome : list R + E
}.

(** The processor object together with the rest of the heap and the
    event loop: the armed timers, the item objects whose [resolve] and
    [reject] fields are set, the suspended runs of [processBatch]; and
    what has been observed so far: the processor calls, the callback
    calls, and the items a [forEach] passed over because their callback
    was not set. *)
Record World : Type := mkWorld {
  bp : t;
  timers : list Timer;
  nextTimerId : nat;
  flushes : list Flush;
  settlements : list Settlement;
  armed : list I;
  awaiting : list Job;
  nextJobId : nat;
  uncalled : list I
}.

Definition new_world : World := mkWorld new [] 0%nat [] [] [] [] 0%nat [].

(** [clearTimeout(id)] *)
Definition clearTimeout (id : nat) (ts : list Timer) : list Timer :=
  List.filter (fun tm => negb (bool_decide (timer_id tm = id))) ts.

Definition with_batches (f : gmap string Batch -> gmap string Batch)
  (b : t) : t :=
  mk (f (batches b)) (batchTimeout b) (maxBatchSize b) (stats b).

(** The statistics update after a resolved flush of [n] items. *)
Definition record_batch (n : Z) (s : Stats) : Stats :=
  let batchesProcessed' := batchesProcessed s + 1 in
  let itemsProcessed' := itemsProcessed s + n in
  mkStats batchesProcessed' itemsProcessed'
          (Double.div (Double.of_Z itemsProcessed')
                      (Double.of_Z batchesProcessed')).

(** [if (item.resolve)], [if (item.reject)]: the two fields are written
    together. *)
Definition has_callbacks (armed : list I) (item : I) : bool :=
  bool_decide (item ∈ armed).

(** [items.forEach((item, index) =>
       { if (item.resolve) item.resolve(results[index]) })] *)
Definition resolve_all (armed its : list I) (results : list R)
  : list Settlement :=
  concat (imap (fun index item =>
                  if has_callbacks armed item
                  then [Resolved item (results !! index)] else [])
               its).

(** [items.forEach(item => { if (item.reject) item.reject(error) })] *)
Definition reject_all (armed its : list I) (error : E) : list Settlement :=
  flat_map (fun item => if has_callbacks armed item
                        then [RejectedWith item error] else [])
           its.

(** The items such a loop passes over. *)
Definition passed_over (armed its : list I) : list I :=
  List.filter (fun item => negb (has_callbacks armed item)) its.

(** [processBatch(type)], called at time [now], up to its [await]: the
    items are taken from the batch, the timer is cleared and the
    processor is called. If the call throws, the [catch] block runs at
    once; otherwise the run is suspended until the processor's promise
    settles ([complete]). *)
Definition processBatch (type : string) (now : Z) (w : World) : World :=
  match batches (bp w) !! type with
  | None => w
  | Some batch =>
    match items batch with
    | [] => w
    | _ =>
      let its := items batch in
      let timers' :=
        match timeout batch with
        | Some id => clearTimeout id (timers w)
        | None => timers w
        end in
      let batch' := mkBatch [] (processor batch) None in
      let bp1 := with_batches (fun bs => <[type := batch']> bs) (bp w) in
      let flushes' := flushes w ++ [mkFlush now type its] in
      match processor batch its with
      | Throws error =>
        mkWorld bp1 timers' (nextTimerId w) flushes'
                (settlements w ++ reject_all (armed w) its error)
                (armed w) (awaiting w) (nextJobId w)
                (uncalled w ++ passed_over (armed w) its)
      | Returns outcome =>
        mkWorld bp1 timers' (nextTimerId w) flushes' (settlements w)
                (armed w)
                (awaiting w ++ [mkJob (nextJobId w) its outcome])
                (S (nextJobId w)) (uncalled w)
      end
    end
  end.

(** The rest of [processBatch], run when the promise of the suspended
    run [id] settles: the callbacks are called in the order of the
    batch, and a resolved flush is added to the statistics. *)
Definition complete (id : nat) (w : World) : World :=
  match List.find (fun job => bool_decide (job_id job = id)) (awaiting w) with
  | None => w
  | Some job =>
    let its := job_items job in
    let awaiting' :=
      List.filter (fun job => negb (bool_decide (job_id job = id)))
                  (awaiting w) in
    match job_outcome job with
    | inl results =>
      mkWorld (mk (batches (bp w)) (batchTimeout (bp w)) (maxBatchSize (bp w))
                  (record_batch (Z.of_nat (List.length its)) (stats (bp w))))
              (timers w) (nextTimerId w) (flushes w)
              (settlements w ++ resolve_all (armed w) its results)
              (armed w) awaiting' (nextJobId w)
              (uncalled w ++ passed_over (armed w) its)
    | inr error =>
      mkWorld (bp w) (timers w) (nextTimerId w) (flushes w)
              (settlements w ++ reject_all (armed w) its error)
              (armed w) awaiting' (nextJobId w)
              (uncalled w ++ passed_over (armed w) its)
    end
  end.

(** [new Promise((resolve, reject) =>
       { item.resolve = resolve; item.reject = reject; })] *)
Definition set_callbacks (item : I) (w : World) : World :=
  mkWorld (bp w) (timers w) (nextTimerId w) (flushes w) (settlements w)
          (item :: armed w) (awaiting w) (nextJobId w) (uncalled w).

(** The statements of [addToBatch(type, item, processor)] before its
    [return], at time [now]. *)
Definition push_item (type : string) (item : I) (proc : Processor)
  (now : Z) (w : World) : World :=
  let batch0 :=
    match batches (bp w) !! type with
    | Some batch => batch
    | None => mkBatch [] proc None
    end in
  let items' := items batch0 ++ [item] in
  let timers1 :=
    match timeout batch0 with
    | Some id => clearTimeout id (timers w)
    | None => timers w
    end in
  if maxBatchSize (bp w) <=? Z.of_nat (List.length items') then
    let batch1 := mkBatch items' (processor batch0) (timeout batch0) in
    processBatch type now
      (mkWorld (with_batches (fun bs => <[type := batch1]> bs) (bp w))
               timers1 (nextTimerId w) (flushes w) (settlements w)
               (armed w) (awaiting w) (nextJobId w) (uncalled w))
  else
    let id := nextTimerId w in
    let batch1 := mkBatch items' (processor batch0) (Some id) in
    mkWorld (with_batches (fun bs => <[type := batch1]> bs) (bp w))
            (timers1 ++ [mkTimer id (now + batchTimeout (bp w)) type])
            (S id) (flushes w) (settlements w)
            (armed w) (awaiting w) (nextJobId w) (uncalled w).

(** [addToBatch(type, item, processor)] at time [now]: the promise it
    returns is made last, after [processBatch] has returned, and only
    then are the callbacks of the item set. *)
Definition addToBatch (type : string) (item : I) (proc : Processor)
  (now : Z) (w : World) : World :=
  set_callbacks item (push_item type item proc now w).

(** The armed timer that fires next when the clock reaches [now]: the
    earliest one that is due, the first armed among equals. *)
Definition earlier (a b : Timer) : Timer :=
  if deadline b <? deadline a then b else a.

Definition next_due (now : Z) (ts : list Timer) : option Timer :=
  match List.filter (fun tm => deadline tm <=? now) ts with
  | [] => None
  | tm :: rest => Some (fold_left earlier rest tm)
  end.

(** The clock advances to [now] with nothing else going on: every timer
    due by then fires, at its deadline, and its callback runs
    [processBatch]. *)
Fixpoint fire_due (fuel : nat) (now : Z) (w : World) : World :=
  match fuel with
  | O => w
  | S fuel' =>
    match next_due now (timers w) with
    | None => w
    | Some tm =>
      fire_due fuel' now
        (processBatch (timer_type tm) (deadline tm)
           (mkWorld (bp w) (clearTimeout (timer_id tm) (timers w))
                    (nextTimerId w) (flushes w) (settlements w)
                    (armed w) (awaiting w) (nextJobId w) (uncalled w)))
    end
  end.

Definition advance (now : Z) (w : World) : World :=
  fire_due (List.length (timers w)) now w.

(** What happens to a processor object: an item is submitted, the clock
    advances, or the promise a suspended run waits for settles. The
    runs may complete in any order, and a run need not complete. *)
Inductive event : Type :=
| Submit (type : string) (item : I) (proc : Processor) (now : Z)
| Advance (now : Z)
| Completes (job : nat).

Definition step (w : World) (e : event) : World :=
  match e with
  | Submit type item proc now => addToBatch type item proc now w
  | Advance now => advance now w
  | Completes job => complete job w
  end.

Definition run (trace : list event) (w : World) : World :=
  fold_left step trace w.

(** The items waiting in the batch of a type. *)
Definition pending (type : string) (w : World) : list I :=
  match batches (bp w) !! type with
  | Some batch => items batch
  | None => []
  end.



End Batches.
Arguments Reply : clear implicits.
Arguments Batch : clear implicits.
Arguments t : clear implicits.
Arguments World : clear implicits.
Arguments event : clear implicits.
Arguments Settlement : clear implicits.
Arguments Flush : clear implicits.
Arguments Job : clear implicits.
End BatchProcessor.

(* ===================================================================== *)
(** * enhanced_server.js: variant generation                               *)
(* ===================================================================== *)

Module Variants.

(** [new Map(entries)] *)
Definition Map_of {V : Type} (entries : list (jsstring * V))
  : list (jsstring * V) :=
  fold_left (fun m e => JsMap.set (fst e) (snd e) m) entries [].

Definition row (base : string) (variants : list string)
  : jsstring * list jsstring :=
  (js base, List.map js variants).

Definition comprehensiveVariantMappings : list (jsstring * list jsstring) :=
  Eval vm_compute in Map_of [
    row "なんて" ["なんて"; "何て"; "なん"; "て"];
    row "なんで" ["なんで"; "何で"; "なん"; "で"];
    row "なんか" ["なんか"; "何か"; "なん"; "か"];
    row "なんだか" ["なんだか"; "何だか"; "なん"; "だか"];
    row "なんと" ["なんと"; "何と"; "なん"; "と"];
    row "なんの" ["なんの"; "何の"; "なん"; "の"];
    row "どんな" ["どんな"; "どの様な"; "どん"; "な"];
    row "そんな" ["そんな"; "その様な"; "そん"; "な"];
    row "こんな" ["こんな"; "この様な"; "こん"; "な"];
    row "あんな" ["あんな"; "あの様な"; "あん"; "な"];
    row "いろんな" ["いろんな"; "色んな"; "色々な"; "いろ"; "んな"];
    row "やっぱり" ["やっぱり"; "やはり"; "やっぱ"; "り"];
    row "ちょっと" ["ちょっと"; "一寸"; "ちょっ"; "と"];
    row "ずっと" ["ずっと"; "ずー"; "っと"];
    row "きっと" ["きっと"; "屹度"; "きー"; "っと"];
    row "もっと" ["もっと"; "もー"; "っと"];
    row "たくさん" ["沢山"; "たくさん"; "たく"; "さん"];
    row "いっぱい" ["一杯"; "いっぱい"; "いっ"; "ぱい"];
    row "すこし" ["少し"; "すこし"; "すこ"; "し"];
    row "かなり" ["可成り"; "かなり"; "かな"; "り"];
    row "取り除く" ["取り除く"; "取り除いて"; "取り除い"; "て"; "取り除か"; "取り除け"];
    row "取り除いて" ["取り除いて"; "取り除く"; "取り除い"; "て"];
    row "やる" ["やる"; "遣る"; "やっ"; "やら"; "やり"; "やれ"];
    row "する" ["する"; "為る"; "し"; "さ"; "せ"; "すれ"];
    row "いる" ["いる"; "居る"; "い"; "いれ"; "いら"];
    row "ある" ["ある"; "有る"; "在る"; "あっ"; "あら"; "あり"; "あれ"];
    row "くる" ["来る"; "くる"; "き"; "こ"; "くれ"];
    row "いく" ["行く"; "いく"; "いっ"; "いか"; "いけ"];
    row "きれい" ["綺麗"; "きれい"; "奇麗"; "きれ"];
    row "すごい" ["凄い"; "すごい"; "すご"; "すげー"];
    row "下品" ["下品"; "げひん"];
    row "装備" ["装備"; "そうび"];
    row "も" ["も"];
    row "すぐ" ["すぐ"; "直ぐ"];
    row "リンク" ["リンク"; "link"];
    row "縦書き" ["縦書き"; "たてがき"];
    row "前提" ["前提"; "ぜんてい"];
    row "横書き" ["横書き"; "よこがき"];
    row "不能" ["不能"; "ふのう"];
    row "書体" ["書体"; "しょたい"];
    row "存在" ["存在"; "そんざい"];
    row "漢字" ["漢字"; "かんじ"];
    row "仮名" ["仮名"; "かな"];
    row "筆順" ["筆順"; "ひつじゅん"];
    row "表記" ["表記"; "ひょうき"];
    row "行う" ["行う"; "おこなう"; "行っ"; "行い"; "行え"];
    row "行って" ["行って"; "おこなって"; "行う"];
    row "行っていた" ["行っていた"; "おこなっていた"; "行う"];
    row "倣い" ["倣い"; "ならい"; "倣う"];
    row "進めて" ["進めて"; "すすめて"; "進める"];
    row "として" ["として"; "と"; "して"];
    row "おり" ["おり"; "居り"; "居る"]
  ].

(** The body of the inner [variants.forEach] that fills
    [reverseVariantMappings]: for one [variant] of one [base]. *)
Definition reverse_add (base : jsstring) (variants : list jsstring)
  (m : list (jsstring * list jsstring)) (variant : jsstring)
  : list (jsstring * list jsstring) :=
  let m1 := if JsMap.has variant m then m else JsMap.set variant [] m in
  let s := default [] (JsMap.get variant m1) in
  JsMap.set variant (JsSet.add base (JsSet.addAll variants s)) m1.

(** [reverseVariantMappings], built once when the module is loaded. *)
Definition reverseVariantMappings : list (jsstring * list jsstring) :=
  Eval vm_compute in
    fold_left (fun m e => fold_left (reverse_add (fst e) (snd e)) (snd e) m)
              comprehensiveVariantMappings [].

(** The characters [.] does not match in a regular expression without
    the [s] flag: the line terminators. *)
Definition is_line_terminator (c : N) : bool :=
  bool_decide (c ∈ [10%N; 13%N; 8232%N; 8233%N]).

Definition all_dots (s : jsstring) : bool :=
  forallb (fun c => negb (is_line_terminator c)) s.

(** [word.match(/^(.+り)(.+)$/)]: the two groups. The first [.+] is
    greedy, so the split is after the last [り] that leaves a non-empty
    first part before it and a non-empty rest behind it. *)
Definition match_ri (word : jsstring) : option (jsstring * jsstring) :=
  if all_dots word then
    let ri := js "り" in
    match List.find (fun i => bool_decide (take 1 (drop i word) = ri))
                    (rev (seq 1 (List.length word - 2))) with
    | Some i => Some (take (S i) word, drop (S i) word)
    | None => None
    end
  else None.

(** [word.match(/^(.+)SUFFIX$/)] for a literal suffix: the one group. *)
Definition match_suffix (suffix word : jsstring) : option jsstring :=
  if all_dots word && Str.endsWith word suffix
     && (Str.length suffix <? Str.length word)
  then Some (Str.dropLast (List.length suffix) word)
  else None.

Definition particleCombinations : list jsstring :=
  Eval vm_compute in
    List.map js ["も"; "は"; "が"; "を"; "に"; "で"; "と"; "から"; "まで"].

Section Generate.
(** The four functions of the [wanakana] package the generator calls. *)
Variable isHiragana : jsstring -> bool.
Variable isKatakana : jsstring -> bool.
Variable toKatakana : jsstring -> jsstring.
Variable toHiragana : jsstring -> jsstring.

Definition add_when (b : bool) (xs : list jsstring) (variants : list jsstring)
  : list jsstring :=
  if b then JsSet.addAll xs variants else variants.

(** Step 3 of the generator: the block guarded by [word.length > 2]. *)
Definition inflections (word : jsstring) (variants : list jsstring)
  : list jsstring :=
  let stem := Str.dropLast 1 word in
  let variants :=
    add_when (Str.endsWith word (js "て"))
      ([stem ++ js "で"; stem]
       ++ (if Str.endsWith stem (js "い")
           then [Str.dropLast 1 stem ++ js "く"] else [])
       ++ List.map (fun ending => stem ++ ending)
            (List.map js ["る"; "た"; "ない"; "ます"]))
      variants in
  let variants :=
    add_when (Str.endsWith word (js "で")) [stem ++ js "て"; stem] variants in
  let variants :=
    add_when (Str.endsWith word (js "た"))
      [stem ++ js "て"; stem ++ js "る"; stem] variants in
  let variants :=
    add_when (Str.endsWith word (js "い") && (2 <? Str.length word))
      [stem ++ js "く"; stem ++ js "かった"; stem ++ js "くない"] variants in
  let variants :=
    match match_ri word with
    | Some (first, second) =>
      add_when (Str.truthy second) [second] (JsSet.add first variants)
    | None => variants
    end in
  fold_left (fun variants suffix =>
               match match_suffix suffix word with
               | Some first => JsSet.add first variants
               | None => variants
               end)
            (List.map js ["して"; "いて"; "って"]) variants.

(** Step 4: one round of [particleCombinations.forEach]. *)
Definition particle_step (word : jsstring) (variants : list jsstring)
  (particle : jsstring) : list jsstring :=
  let variants :=
    add_when (Str.endsWith word particle
              && (Str.length particle <? Str.length word))
      [Str.dropLast (List.length particle) word] variants in
  JsSet.add (word ++ particle) variants.

(** [generateComprehensiveVariants(word)] *)
Definition generateComprehensiveVariants (word : jsstring) : list jsstring :=
  let variants := [word] in
  let variants :=
    match JsMap.get word comprehensiveVariantMappings with
    | Some vs => JsSet.addAll vs variants
    | None => variants
    end in
  let variants :=
    match JsMap.get word reverseVariantMappings with
    | Some vs => JsSet.addAll vs variants
    | None => variants
    end in
  let variants := add_when (isHiragana word) [toKatakana word] variants in
  let variants := add_when (isKatakana word) [toHiragana word] variants in
  let variants :=
    if 2 <? Str.length word then inflections word variants else variants in
  let variants := fold_left (particle_step word) particleCombinations variants in
  let variants :=
    if Str.startsWith word (js "なん") then
      let suffix := Str.sliceFrom 2 word in
      add_when (Str.truthy suffix) [suffix]
        (JsSet.addAll [js "何" ++ suffix; js "なん"] variants)
    else variants in
  let variants :=
    if Str.endsWith word (js "んな") then
      let prefix := Str.dropLast 2 word in
      JsSet.addAll [prefix ++ js "な"; prefix; js "んな"] variants
    else variants in
  List.filter (fun v => 0 <? Str.length v) variants.

End Generate.
End Variants.

(* ===================================================================== *)
(** * enhanced_server.js: the lookup pipeline                              *)
(* ===================================================================== *)

Module Server.

(** [entryId]: a number from the dictionary, or the name of a built-in
    particle entry. *)
Inductive EntryId : Type :=
| EntryNumber (n : Z)
| EntryName (name : string).

Record Sense : Type := mkSense {
  english_definitions : list jsstring;
  parts_of_speech : list jsstring
}.

Record SearchInfo : Type := mkSearchInfo {
  originalQuery : jsstring;
  foundVia : jsstring;
  entryId : EntryId
}.

(** A definition record; [japanese] is the one-element array
    [{ word, reading }]. *)
Record DictDefinition : Type := mkDefinition {
  slug : jsstring;
  japanese_word : option jsstring;
  japanese_reading : option jsstring;
  senses : list Sense;
  searchInfo : SearchInfo
}.

(** The objects that reach the definition cache: a definition record,
    or a member inherited from [Object.prototype] that the property
    lookup [particleDefinitions[word]] returns for a word such as
    [toString]. *)
Inductive Cached : Type :=
| Def (d : DictDefinition)
| Inherited (name : jsstring).

(** ** The dictionary database, as the pipeline sees it *)

(** A query's promise rejects or resolves. *)
Inductive dbresult (A : Type) : Type :=
| DbError
| DbOk (a : A).
Arguments DbError {A}.
Arguments DbOk {A} a.

Record FuzzyRow : Type := mkFuzzyRow {
  fuzzy_entry_id : Z;
  matched_value : jsstring
}.

(** The [gloss] member of a parsed sense: an array of strings, one
    string, or [null]. *)
Inductive Gloss : Type :=
| GlossArray (glosses : list jsstring)
| GlossText (text : jsstring)
| GlossNull.

Record SenseRow : Type := mkSenseRow {
  pos : option jsstring;
  gloss : Gloss
}.

(** The row of [entryQuery]; [senses_column] is the parsed JSON array,
    [None] when the column is [null] or empty. *)
Record EntryData : Type := mkEntryData {
  kanji_spelling : option jsstring;
  reading : option jsstring;
  senses_column : option (list SenseRow)
}.

(** The read-only database: what each of the three statements returns.
    [exactQuery] yields the [entry_id] of the first row, if any. *)
Record Database : Type := mkDatabase {
  exactQuery : jsstring -> dbresult (option Z);
  fuzzyQuery : jsstring -> dbresult (list FuzzyRow);
  entryQuery : Z -> dbresult (option EntryData)
}.

(** The statements sent to the database. *)
Inductive Query : Type :=
| ExactQuery (variant : jsstring)
| FuzzyQuery (word : jsstring)
| EntryQuery (entry_id : Z).

(** The process state the pipeline works on: the shared cache, and the
    log of the database queries issued so far. *)
Record State : Type := mkState {
  multiLevelCache : MultiLevelCache.t Cached;
  queryLog : list Query
}.

(** ** Computations that touch the state and may throw *)

Definition M (A : Type) : Type := State -> dbresult A * State.

Definition ret {A : Type} (a : A) : M A := fun s => (DbOk a, s).

Definition bind {A B : Type} (m : M A) (k : A -> M B) : M B :=
  fun s =>
    match m s with
    | (DbOk a, s') => k a s'
    | (DbError, s') => (DbError, s')
    end.

Notation "'let*' x ':=' m 'in' k" := (bind m (fun x => k))
  (at level 10, x name, k at level 200).

(** [await queryDb(sql, params)]: log the statement and hand back what
    the database answers. *)
Definition query {A : Type} (q : Query) (answer : dbresult A) : M A :=
  fun s => (answer, mkState (multiLevelCache s) (queryLog s ++ [q])).

(** [multiLevelCache.set(key, value, 'definition')] *)
Definition cache_set (key : jsstring) (v : jsvalue Cached) (now : Z)
  : M unit :=
  fun s =>
    (DbOk tt,
     mkState (MultiLevelCache.set key v "definition" None now
                (multiLevelCache s))
             (queryLog s)).

(** [multiLevelCache.get(key, 'definition', performanceMonitor)] *)
Definition cache_get (key : jsstring) (now : Z) (accessTime : Q)
  : M (jsvalue Cached) :=
  fun s =>
    let '(v, m) := MultiLevelCache.get key "definition" now accessTime
                     (multiLevelCache s) in
    (DbOk v, mkState m (queryLog s)).

(** [try { body } catch (error) { return null }] *)
Definition try_or_null {A : Type} (null : A) (body : M A) : State -> A * State :=
  fun s =>
    match body s with
    | (DbOk a, s') => (a, s')
    | (DbError, s') => (null, s')
    end.

(** ** Strings *)

(** [s.split(sep)] for a non-empty separator. *)
Fixpoint split_from (sep cur s : jsstring) (skip : nat) : list jsstring :=
  match s with
  | [] => [cur]
  | c :: s' =>
    match skip with
    | S k => split_from sep cur s' k
    | O =>
      if Str.startsWith_aux sep s
      then cur :: split_from sep [] s' (List.length sep - 1)
      else split_from sep (cur ++ [c]) s' 0
    end
  end.

Definition split (sep s : jsstring) : list jsstring := split_from sep [] s 0.

(** [a || b] on strings that may be [null]. *)
Definition or_else (a : option jsstring) (b : jsstring) : jsstring :=
  match a with
  | Some s => if Str.truthy s then s else b
  | None => b
  end.

(** ** buildDefinitionFromEntry *)

(** The [senses] of the result: each parsed sense mapped, those without
    an English definition dropped. *)
Definition sense_of (s : SenseRow) : Sense :=
  mkSense
    (match gloss s with
     | GlossArray glosses => glosses
     | GlossText text => if Str.truthy text then [text] else []
     | GlossNull => []
     end)
    (match pos s with
     | Some p =>
       if Str.truthy p
       then List.filter Str.truthy (split (js ", ") p)
       else []
     | None => []
     end).

Definition senses_of (rows : list SenseRow) : list Sense :=
  List.filter (fun sense => 0 <? Z.of_nat (List.length (english_definitions sense)))
              (List.map sense_of rows).

(** [buildDefinitionFromEntry(entryId, originalWord, matchedVariant)];
    its own [catch] turns a database error into [null]. *)
Definition buildDefinitionFromEntry (db : Database) (entry_id : Z)
  (originalWord matchedVariant : jsstring) (now : Z)
  : State -> option DictDefinition * State :=
  try_or_null None (
    let* entryData := query (EntryQuery entry_id) (entryQuery db entry_id) in
    match entryData with
    | None => ret None
    | Some data =>
      match senses_column data with
      | None => ret None
      | Some sensesArray =>
        let result :=
          mkDefinition
            (or_else (kanji_spelling data)
               (or_else (reading data) originalWord))
            (kanji_spelling data) (reading data)
            (senses_of sensesArray)
            (mkSearchInfo originalWord matchedVariant (EntryNumber entry_id)) in
        let* _ := cache_set originalWord (JObj (Def result)) now in
        let* _ := (if bool_decide (matchedVariant = originalWord) then ret tt
              else cache_set matchedVariant (JObj (Def result)) now) in
        ret (Some result)
      end
    end).

(** ** getDefinitionAdvanced *)

Definition particle (word : jsstring) (key : string) (glosses : list string)
  (part_of_speech via name : string) : jsstring * DictDefinition :=
  (js key,
   mkDefinition (js key) (Some (js key)) (Some (js key))
     [mkSense (List.map js glosses) [js part_of_speech]]
     (mkSearchInfo word (js via) (EntryName name))).

(** The own properties of the [particleDefinitions] object literal. *)
Definition particleDefinitions (word : jsstring)
  : list (jsstring * DictDefinition) :=
  [ particle word "は" ["topic marker particle"; "as for"; "regarding"]
      "particle" "particle_handling" "particle_wa";
    particle word "が" ["subject marker particle"; "nominative particle"]
      "particle" "particle_handling" "particle_ga";
    particle word "を" ["direct object marker particle"; "accusative particle"]
      "particle" "particle_handling" "particle_wo";
    particle word "に" ["location/direction particle"; "at"; "in"; "to"]
      "particle" "particle_handling" "particle_ni";
    particle word "で" ["location/method particle"; "at"; "in"; "with"; "by"]
      "particle" "particle_handling" "particle_de";
    particle word "と" ["conjunction particle"; "and"; "with"]
      "particle" "particle_handling" "particle_to";
    particle word "も" ["inclusive particle"; "also"; "too"; "even"]
      "particle" "particle_handling" "particle_mo";
    particle word "から" ["from"; "since"; "because"]
      "particle" "particle_handling" "particle_kara";
    particle word "まで" ["until"; "to"; "up to"]
      "particle" "particle_handling" "particle_made";
    particle word "。" ["period"; "full stop"]
      "punctuation" "punctuation_handling" "punct_period";
    particle word "、" ["comma"]
      "punctuation" "punctuation_handling" "punct_comma";
    particle word "？" ["question mark"]
      "punctuation" "punctuation_handling" "punct_question";
    particle word "！" ["exclamation mark"]
      "punctuation" "punctuation_handling" "punct_exclamation" ].

(** The property names every object literal inherits from
    [Object.prototype]; each holds a function or an object. *)
Definition inheritedProperties : list jsstring :=
  Eval vm_compute in
    List.map js
      ["constructor"; "__defineGetter__"; "__defineSetter__";
       "hasOwnProperty"; "__lookupGetter__"; "__lookupSetter__";
       "isPrototypeOf"; "propertyIsEnumerable"; "toString"; "valueOf";
       "__proto__"; "toLocaleString"].

(** [particleDefinitions[word]]: [None] is [undefined]. *)
Definition particle_lookup (word : jsstring) : option Cached :=
  match JsMap.get word (particleDefinitions word) with
  | Some d => Some (Def d)
  | None =>
    if bool_decide (word ∈ inheritedProperties) then Some (Inherited word)
    else None
  end.

Section Pipeline.
Variable isHiragana : jsstring -> bool.
Variable isKatakana : jsstring -> bool.
Variable toKatakana : jsstring -> jsstring.
Variable toHiragana : jsstring -> jsstring.
Variable db : Database.

Definition searchVariantsOf (word : jsstring) : list jsstring :=
  Variants.generateComprehensiveVariants
    isHiragana isKatakana toKatakana toHiragana word.

(** The [for] loop over [[word, ...searchVariants.slice(0, 5)]]. *)
Fixpoint exact_tier (word : jsstring) (now : Z) (variants : list jsstring)
  : M (option DictDefinition) :=
  match variants with
  | [] => ret None
  | variant :: rest =>
    let* exactResult := query (ExactQuery variant) (exactQuery db variant) in
    match exactResult with
    | Some entry_id =>
      fun s =>
        match buildDefinitionFromEntry db entry_id word variant now s with
        | (Some definition, s') => (DbOk (Some definition), s')
        | (None, s') => exact_tier word now rest s'
        end
    | None => exact_tier word now rest
    end
  end.

(** The fuzzy query and what follows it, down to the last [return]. *)
Definition fuzzy_tier (word : jsstring) (now : Z) : M (jsvalue Cached) :=
  let* fuzzyResults := query (FuzzyQuery word) (fuzzyQuery db word) in
  let not_found : M (jsvalue Cached) :=
    let* _ := cache_set word JNull now in ret JNull in
  match fuzzyResults with
  | first :: _ =>
    fun s =>
      match buildDefinitionFromEntry db (fuzzy_entry_id first) word
              (matched_value first) now s with
      | (Some definition, s') => (DbOk (JObj (Def definition)), s')
      | (None, s') => not_found s'
      end
  | [] => not_found
  end.

(** [getDefinitionAdvanced(word)] at clock reading [now]. *)
Definition getDefinitionAdvanced (word : jsstring) (now : Z) (accessTime : Q)
  : State -> jsvalue Cached * State :=
  fun s =>
    match cache_get word now accessTime s with
    | (DbOk cachedResult, s1) =>
      if truthy cachedResult then (cachedResult, s1)
      else
        try_or_null JNull (
          match particle_lookup word with
          | Some definition =>
            let* _ := cache_set word (JObj definition) now in
            ret (JObj definition)
          | None =>
            let searchVariants := searchVariantsOf word in
            let* found := exact_tier word now (word :: take 5 searchVariants) in
            match found with
            | Some definition => ret (JObj (Def definition))
            | None => fuzzy_tier word now
            end
          end) s1
    | (DbError, s1) => (JNull, s1)
    end.

(** The queries a call adds to the log. *)
Definition queries_issued (before after : State) : list Query :=
  drop (List.length (queryLog before)) (queryLog after).

(** The database queries of a lookup that finds nothing. *)
Definition full_query_sequence (word : jsstring) : list Query :=
  List.map ExactQuery (word :: take 5 (searchVariantsOf word))
  ++ [FuzzyQuery word].

(** The word has no match in any tier. *)
Definition no_match (word : jsstring) : Prop :=
  particle_lookup word = None
  /\ Forall (fun v => exactQuery db v = DbOk None)
            (word :: take 5 (searchVariantsOf word))
  /\ fuzzyQuery db word = DbOk [].

End Pipeline.

(** The hits the definition store has counted. *)
Definition definition_hits (s : State) : Z :=
  EnhancedLRUCache.hits
    (EnhancedLRUCache.stats
       (MultiLevelCache.definitionCache (multiLevelCache s))).

(** A fresh process: empty caches, nothing sent to the database. *)
Definition initial : State := mkState MultiLevelCache.new [].

End Server.

(* ===================================================================== *)
(** * Example histories of a store                                         *)
(* ===================================================================== *)

Module HitRateExamples.
Import EnhancedLRUCache.

(** One [set], then 23 hits and 137 misses. *)
Definition history_23_137 : list (EnhancedLRUCache.op unit) :=
  OpSet (js "a") (JNum 1) None 0
  :: replicate 23 (OpGet (js "a") 1 0%Q)
  ++ replicate 137 (OpGet (js "b") 1 0%Q).

End HitRateExamples.

Module OptimizeExamples.
Import EnhancedLRUCache.

(** A store of capacity 100 holding 29 entries, the [i]-th written at
    time [i] under the one-letter key of code unit [256 + i]. *)
Definition store_of_29 : EnhancedLRUCache.t unit :=
  run (map (fun i : nat => OpSet [N.of_nat (256 + i)] (JNum 0) None
                                 (Z.of_nat i))
           (seq 0 29))
      (new 100 1000).

End OptimizeExamples.

(* ===================================================================== *)
(** * The eviction scenario of the specification                          *)
(* ===================================================================== *)

Module LruScenario.
Import EnhancedLRUCache.

Definition key_a : jsstring := Eval vm_compute in js "a".
Definition key_b : jsstring := Eval vm_compute in js "b".
Definition key_c : jsstring := Eval vm_compute in js "c".

(** Set("a",1); Set("b",2); Get("a"); Set("c",3) on a store of capacity
    2 and TTL 1000, with the clock reading of each call. *)
Definition after_four (t1 t2 t3 t4 : Z) : EnhancedLRUCache.t unit :=
  run [OpSet key_a (JNum 1) None t1; OpSet key_b (JNum 2) None t2;
       OpGet key_a t3 0%Q; OpSet key_c (JNum 3) None t4]
      (new 2 1000).

(** What the scenario promises, followed by Get("b"), Get("a"),
    Get("c"): "b" was evicted and "a" kept; then a miss, a hit
    returning 1, and a hit returning 3. *)
Definition scenario_holds (t1 t2 t3 t4 t5 t6 t7 : Z) : Prop :=
  let c4 := after_four t1 t2 t3 t4 in
  let '(vb, c5) := get key_b t5 0%Q c4 in
  let '(va, c6) := get key_a t6 0%Q c5 in
  let '(vc, c7) := get key_c t7 0%Q c6 in
  JsMap.keys (cache c4) = [key_a; key_c]
  /\ evictions (stats c4) = 1
  /\ (vb = JNull /\ misses (stats c5) = misses (stats c4) + 1)
  /\ (va = JNum 1 /\ hits (stats c6) = hits (stats c5) + 1)
  /\ (vc = JNum 3 /\ hits (stats c7) = hits (stats c6) + 1).

End LruScenario.

(* ===================================================================== *)
(** * The breakers the server creates                                     *)
(* ===================================================================== *)

Module BreakerExamples.
Import CircuitBreaker.

Definition failing : nat + unit := inr tt.
Definition succeeding : nat + unit := inl 0%nat.

(** The parser breaker of the server: threshold 3, reset after 30 s. *)
Definition parser_options : Options := mkOptions (Some 3) (Some 30000) None.

Definition parser_registry : gmap string Breaker :=
  createCircuitBreaker "parser" parser_options ∅.

End BreakerExamples.

(* ===================================================================== *)
(** * A bulk processor for the examples                                    *)
(* ===================================================================== *)

Module BatchExamples.

(** A processor that resolves each item to itself. *)
Definition echo : @BatchProcessor.Processor nat nat unit :=
  fun its => BatchProcessor.Returns (inl its).

(** A processor that throws when it is called. *)
Definition failing : @BatchProcessor.Processor nat nat unit :=
  fun its => BatchProcessor.Throws tt.

(** Ten items, numbered from [start], submitted in one millisecond
    under one type. *)
Definition ten_items (start : nat)
  (proc : @BatchProcessor.Processor nat nat unit)
  : list (BatchProcessor.event nat nat unit) :=
  map (fun i : nat => BatchProcessor.Submit "lookup" i proc 0)
      (seq start 10).

End BatchExamples.

(* ===================================================================== *)
(** * A dictionary without entries, for the examples                       *)
(* ===================================================================== *)

Module ServerExamples.

(** Every query resolves and finds nothing. *)
Definition emptyDatabase : Server.Database :=
  Server.mkDatabase (fun _ => Server.DbOk None) (fun _ => Server.DbOk [])
                    (fun _ => Server.DbOk None).

(** What the [wanakana] predicates answer for a word that is not
    written in kana alone; the conversions are then never called. *)
Definition notKana (word : jsstring) : bool := false.
Definition unconverted (word : jsstring) : jsstring := word.

Definition lookup : jsstring -> Z -> Q -> Server.State
                    -> jsvalue Server.Cached * Server.State :=
  Server.getDefinitionAdvanced notKana notKana unconverted unconverted
    emptyDatabase.

End ServerExamples.

(* ===================================================================== *)
(** * Vocabulary for the further properties of the stores                  *)
(* ===================================================================== *)

Module StoreSpec.
Section StoreSpec.
Context {O : Type}.
Import EnhancedLRUCache.

(** The two maps of a store are maps: no key occurs twice, they hold the
    same keys, and as many of them. *)
Definition well_formed (c : EnhancedLRUCache.t O) : Prop :=
  NoDup (JsMap.keys (cache c))
  /\ NoDup (JsMap.keys (accessOrder c))
  /\ keys_agree c
  /\ List.length (cache c) = List.length (accessOrder c).

(** The operations under which [set] can always make room: no [import],
    and no empty string among the keys written. *)
Definition evicting (o : EnhancedLRUCache.op O) : Prop :=
  match o with
  | OpSet key _ _ _ => key <> []
  | OpPreload entries _ => Forall (fun e => fst e <> []) entries
  | OpImport _ _ => False
  | _ => True
  end.

(** What the histories without [import] and without empty keys keep. *)
Definition within_capacity (c : EnhancedLRUCache.t O) : Prop :=
  well_formed c
  /\ 1 <= maxSize c
  /\ JsMap.size (cache c) <= maxSize c
  /\ Forall (fun k => k <> []) (JsMap.keys (accessOrder c)).

(** [import] brings an exported entry back with a fresh access time. *)
Definition reimported (now : Z) (e : jsstring * Item O) : jsstring * Item O :=
  (fst e, mkItem (value (snd e)) (expiry (snd e)) (created (snd e)) now).

(** The entries that [isValid] accepts at [now]. *)
Definition valid_entry (now : Z) (e : jsstring * Item O) : bool :=
  isValid now (snd e).

End StoreSpec.

(** Oldest first, as [optimize] sorts the access times. *)
Fixpoint oldest_first (l : list (jsstring * Z)) : Prop :=
  match l with
  | [] => True
  | x :: l' => Forall (fun y => snd x <= snd y) l' /\ oldest_first l'
  end.
End StoreSpec.

(* ===================================================================== *)
(** * performance-api.js: the cache management routes                      *)
(* ===================================================================== *)

Module PerformanceAPI.
Section Routes.
Context {O : Type}.

(** [router.post('/cache/warm')] with a string [type] and an array of
    entries in the body: the number of entries loaded and the caches
    afterwards. *)
Definition warm (type : string) (entries : list (jsstring * jsvalue O))
  (now : Z) (m : MultiLevelCache.t O) : Z * MultiLevelCache.t O :=
  if bool_decide (type = "frequent"%string) then
    MultiLevelCache.warmUp entries now m
  else
    let l := MultiLevelCache.getCache type in
    let '(n, c) := EnhancedLRUCache.preload entries now
                     (MultiLevelCache.read l m) in
    (n, MultiLevelCache.write l c m).

(** [router.delete('/cache/:type')]: what the response names as
    [cleared], and the caches afterwards. *)
Definition clear_route (type : string) (m : MultiLevelCache.t O)
  : string * MultiLevelCache.t O :=
  if negb (bool_decide (type = ""%string))
     && negb (bool_decide (type = "all"%string)) then
    let l := MultiLevelCache.getCache type in
    (type,
     MultiLevelCache.write l
       (EnhancedLRUCache.clear (MultiLevelCache.read l m)) m)
  else ("all"%string, MultiLevelCache.clearAll m).

End Routes.
End PerformanceAPI.

(* ===================================================================== *)
(** * Vocabulary for the further properties of the circuit breakers        *)
(* ===================================================================== *)

Module BreakerSpec.
Section BreakerSpec.
Context {R E : Type}.
Import CircuitBreaker.

(** A call as its caller makes it: the clock reading, the operation and
    the fallback, if any. *)
Record Attempt : Type := mkAttempt {
  at_now : Z;
  at_operation : unit -> R + E;
  at_fallback : option (unit -> R + E)
}.

Definition attempt (serviceName : string) (reg : gmap string Breaker)
  (a : Attempt) : gmap string Breaker :=
  (executeWithCircuitBreaker serviceName (at_operation a) (at_fallback a)
     (at_now a) reg).2.

(** A history of calls on one service, one at a time. *)
Definition attempts (serviceName : string) (history : list Attempt)
  (reg : gmap string Breaker) : gmap string Breaker :=
  fold_left (attempt serviceName) history reg.

(** A breaker between two calls. *)
Definition settled (b : Breaker) : Prop :=
  state b <> HALF_OPEN
  /\ 0 <= failures b
  /\ (state b = OPEN <-> failureThreshold (config b) <= failures b)
  /\ (state b = OPEN ->
      exists t, lastFailureTime b = Some t
                /\ nextAttempt b = Some (t + resetTimeout (config b))).

End BreakerSpec.
Arguments Attempt : clear implicits.
End BreakerSpec.

(* ===================================================================== *)
(** * request-optimizer.js: the statistics of the request registry         *)
(* ===================================================================== *)

Module RequestQueueStats.
Section RequestQueueStats.
Context {Resp : Type}.
Import Deduplication.

(** [getOldestRequestAge()] at clock reading [now]. The loop takes the
    minimum of the timestamps, starting from [now]. *)
Definition getOldestRequestAge (now : Z) (w : World Resp) : Z :=
  if bool_decide (requestQueue w = ∅) then 0
  else
    let oldest :=
      map_fold (fun _ request oldest => Z.min oldest (timestamp request))
               now (requestQueue w) in
    now - oldest.

End RequestQueueStats.
End RequestQueueStats.

(* ===================================================================== *)
(** * Vocabulary for the further properties of the batch processor         *)
(* ===================================================================== *)

Module BatchSpec.
Section BatchSpec.
Context {I R E : Type} `{EqDecision I}.
Import BatchProcessor.

(** The items submitted under a type, in the order of submission. *)
Definition submitted (type : string) (trace : list (event I R E)) : list I :=
  flat_map (fun e => match e with
                     | Submit type' item _ _ =>
                       if bool_decide (type' = type) then [item] else []
                     | _ => []
                     end) trace.

(** The items handed to the processor of a type so far, in order. *)
Definition flushed (type : string) (w : World I R E) : list I :=
  flat_map (fun f => if bool_decide (flush_type f = type)
                     then flush_items f else [])
           (flushes w).

(** The item whose callback a settlement calls. *)
Definition settled_item (s : Settlement I R E) : I :=
  match s with
  | Resolved item _ => item
  | RejectedWith item _ => item
  end.

Definition is_resolved (s : Settlement I R E) : bool :=
  match s with Resolved _ _ => true | RejectedWith _ _ => false end.

(** The processor passed with the first item of a type. *)
Definition first_processor (type : string) (trace : list (event I R E))
  : option (@Processor I R E) :=
  head (flat_map (fun e => match e with
                           | Submit type' _ proc _ =>
                             if bool_decide (type' = type) then [proc] else []
                           | _ => []
                           end) trace).

(** The batches between two events: the size limit is the constructor's,
    fewer items than that wait under each type, and every flush so far
    had between one item and the limit. *)
Definition in_bounds (w : World I R E) : Prop :=
  maxBatchSize (bp w) = 10
  /\ (forall type, (List.length (pending type w) < 10)%nat)
  /\ Forall (fun f => (1 <= List.length (flush_items f) <= 10)%nat)
            (flushes w).

(** A processor that returns a promise whatever it is given. *)
Definition never_throws (proc : @Processor I R E) : Prop :=
  forall its, exists outcome, proc its = Returns outcome.

(** No processor passed in a history throws. *)
Definition no_processor_throws (trace : list (event I R E)) : Prop :=
  Forall (fun e => match e with
                   | Submit _ _ proc _ => never_throws proc
                   | _ => True
                   end) trace.

(** The callbacks made when the promise of a suspended run settles, if
    none of its items is passed over: positional results, or the error
    for each item. *)
Definition callbacks_of (job : Job I R E) : list (Settlement I R E) :=
  match job_outcome job with
  | inl results =>
    imap (fun index item => Resolved item (results !! index)) (job_items job)
  | inr error =>
    List.map (fun item => RejectedWith item error) (job_items job)
  end.

(** The items in [its] have their callbacks set, as far as [a] tells. *)
Definition all_set (a its : list I) : Prop := Forall (fun item => item ∈ a) its.

(** Between two events, with [a] the items whose callbacks are set:
    the items waiting in a batch or for a processor have theirs set, the
    suspended runs have distinct identifiers, every item handed to a
    processor has been called back, is waiting for its processor, or
    was passed over, the items passed over were each the last of a
    flush, and the statistics count the resolved callbacks. *)
Definition accounted (a : list I) (w : World I R E) : Prop :=
  (forall type, all_set a (pending type w))
  /\ Forall (fun job => all_set a (job_items job)) (awaiting w)
  /\ Forall (fun job => (job_id job < nextJobId w)%nat) (awaiting w)
  /\ NoDup (List.map job_id (awaiting w))
  /\ List.map settled_item (settlements w) ++ uncalled w
     ++ flat_map job_items (awaiting w)
     ≡ₚ flat_map flush_items (flushes w)
  /\ Forall (fun item => exists f, f ∈ flushes w
                                   /\ last (flush_items f) = Some item)
            (uncalled w)
  /\ 0 <= batchesProcessed (stats (bp w))
  /\ itemsProcessed (stats (bp w))
     = Z.of_nat (List.length (List.filter is_resolved (settlements w)))
  /\ (0 < batchesProcessed (stats (bp w)) ->
      averageBatchSize (stats (bp w))
      = Double.div (Double.of_Z (itemsProcessed (stats (bp w))))
                   (Double.of_Z (batchesProcessed (stats (bp w))))).

(** Every batch has a processor that does not throw, and no item has
    been passed over. *)
Definition quiet (w : World I R E) : Prop :=
  (forall type batch, batches (bp w) !! type = Some batch ->
                      never_throws (processor batch))
  /\ uncalled w = [].

End BatchSpec.
End BatchSpec.

(* ===================================================================== *)
(** * Vocabulary for the further properties of the lookup pipeline         *)
(* ===================================================================== *)

Module PipelineSpec.
Import Server.

Definition is_exact (q : Query) : bool :=
  match q with ExactQuery _ => true | _ => false end.

Definition is_fuzzy (q : Query) : bool :=
  match q with FuzzyQuery _ => true | _ => false end.

Definition is_entry (q : Query) : bool :=
  match q with EntryQuery _ => true | _ => false end.

(** How many of the queries are of a kind. *)
Definition count (kind : Query -> bool) (qs : list Query) : nat :=
  List.length (List.filter kind qs).

(** At most [ne] exact queries and [nf] fuzzy queries, and no more entry
    queries than there were matches to build a definition from. *)
Definition within (ne nf : nat) (qs : list Query) : Prop :=
  (count is_exact qs <= ne)%nat
  /\ (count is_fuzzy qs <= nf)%nat
  /\ (count is_entry qs <= count is_exact qs + count is_fuzzy qs)%nat.

(** The definition [buildDefinitionFromEntry] makes of a row. *)
Definition definition_of (entry_id : Z) (data : EntryData)
  (rows : list SenseRow) (originalWord matchedVariant : jsstring)
  : DictDefinition :=
  mkDefinition
    (or_else (kanji_spelling data) (or_else (reading data) originalWord))
    (kanji_spelling data) (reading data) (senses_of rows)
    (mkSearchInfo originalWord matchedVariant (EntryNumber entry_id)).

(** The entries of the definition store. *)
Definition definition_entries (s : State)
  : list (jsstring * EnhancedLRUCache.Item Cached) :=
  EnhancedLRUCache.cache
    (MultiLevelCache.definitionCache (multiLevelCache s)).

End PipelineSpec.

(* ===================================================================== *)
(** * performance-monitor.js: class PerformanceMonitor                     *)
(* ===================================================================== *)

(** Durations and averages are exact rationals. The events the monitor
    emits have no listener in the backend and are left out, as are the
    memory figures, which come from the process. *)
Module PerformanceMonitor.

Record Requests : Type := mkRequests {
  total : Z;
  success : Z;
  errors : Z;
  averageResponseTime : Q;
  responseTimeHistory : list Q
}.

Record Parser : Type := mkParser {
  totalProcessed : Z;
  averageTokens : Q;
  averageProcessingTime : Q;
  parser_errors : Z
}.

(** An element of [slowQueries]; [slow_timestamp] is the clock reading
    behind [new Date()]. *)
Record SlowQuery : Type := mkSlowQuery {
  slow_endpoint : string;
  slow_duration : Q;
  slow_timestamp : Z;
  slow_tokenCount : Z
}.

Record t : Type := mk {
  requests : Requests;
  parser : Parser;
  memory_percentage : Q;
  cache_hitRate : Q;
  slowQueries : list SlowQuery
}.

(** [constructor()], and [reset()] *)
Definition new : t :=
  mk (mkRequests 0 0 0 0%Q []) (mkParser 0 0%Q 0%Q 0) 0%Q 0%Q [].

(** [a > b] on numbers. *)
Definition gt (a b : Q) : bool := negb (Qle_bool a b).

(** [array.reduce((a, b) => a + b, 0)] *)
Definition sum (l : list Q) : Q := fold_left Qplus l 0%Q.

(** [recordRequest(duration, success, endpoint, tokenCount = 0)] *)
Definition recordRequest (duration : Q) (ok : bool) (endpoint : string)
  (tokenCount : Z) (m : t) : t :=
  let r := requests m in
  let history := responseTimeHistory r ++ [duration] in
  let history :=
    if 100 <? Z.of_nat (List.length history) then tail history
    else history in
  let requests' :=
    mkRequests (total r + 1)
               (if ok then success r + 1 else success r)
               (if ok then errors r else errors r + 1)
               (sum history / inject_Z (Z.of_nat (List.length history)))%Q
               history in
  let p := parser m in
  let parser' :=
    if bool_decide (endpoint = "/api/full-analysis"%string)
       && (0 <? tokenCount) then
      let n := totalProcessed p + 1 in
      mkParser n
        ((averageTokens p * inject_Z (n - 1) + inject_Z tokenCount)
         / inject_Z n)%Q
        ((averageProcessingTime p * inject_Z (n - 1) + duration)
         / inject_Z n)%Q
        (parser_errors p)
    else p in
  mk requests' parser' (memory_percentage m) (cache_hitRate m)
     (slowQueries m).

(** The [finish] closure of [startRequest(requestId, endpoint)], called
    when the measured duration is [duration] milliseconds and the clock
    reads [now]: the duration it returns and the monitor afterwards. *)
Definition finish (endpoint : string) (duration : Q) (now : Z) (ok : bool)
  (tokenCount : Z) (m : t) : Q * t :=
  let m1 := recordRequest duration ok endpoint tokenCount m in
  let m2 :=
    if gt duration 5000 then
      let slow := slowQueries m1
                  ++ [mkSlowQuery endpoint duration now tokenCount] in
      let slow :=
        if 50 <? Z.of_nat (List.length slow) then tail slow else slow in
      mk (requests m1) (parser m1) (memory_percentage m1)
         (cache_hitRate m1) slow
    else m1 in
  (duration, m2).

(** [getErrorRate()] *)
Definition getErrorRate (m : t) : Q :=
  if 0 <? total (requests m)
  then (inject_Z (errors (requests m)) / inject_Z (total (requests m))
        * 100)%Q
  else 0%Q.

Inductive Health : Type := healthy | warning | critical.

(** [getHealthStatus()] *)
Definition getHealthStatus (m : t) : Health :=
  let errorRate := getErrorRate m in
  let memoryUsage := memory_percentage m in
  let avgResponseTime := averageResponseTime (requests m) in
  if gt errorRate 10 || gt memoryUsage 90 || gt avgResponseTime 10000
  then critical
  else if gt errorRate 5 || gt memoryUsage 80 || gt avgResponseTime 5000
  then warning
  else healthy.

(** [getPerformanceRecommendations()]: the [type] of each
    recommendation, in order. *)
Definition getPerformanceRecommendations (m : t) : list string :=
  (if gt 70 (cache_hitRate m) then ["cache"%string] else [])
  ++ (if gt (memory_percentage m) 80 then ["memory"%string] else [])
  ++ (if gt (averageResponseTime (requests m)) 3000
      then ["performance"%string] else [])
  ++ (if gt (getErrorRate m) 5 then ["reliability"%string] else []).

(** A request as the monitor sees it end. *)
Record Finished : Type := mkFinished {
  f_endpoint : string;
  f_duration : Q;
  f_now : Z;
  f_ok : bool;
  f_tokenCount : Z
}.

Definition step (m : t) (f : Finished) : t :=
  (finish (f_endpoint f) (f_duration f) (f_now f) (f_ok f)
          (f_tokenCount f) m).2.

Definition run (history : list Finished) (m : t) : t :=
  fold_left step history m.

(** The last [n] elements of a list. *)
Definition last_n {A : Type} (n : nat) (l : list A) : list A :=
  drop (List.length l - n) l.

(** The requests the parser statistics count. *)
Definition parsed (f : Finished) : bool :=
  bool_decide (f_endpoint f = "/api/full-analysis"%string)
  && (0 <? f_tokenCount f).

(** The requests that go to [slowQueries]. *)
Definition slow (f : Finished) : bool := gt (f_duration f) 5000.

Definition slow_query_of (f : Finished) : SlowQuery :=
  mkSlowQuery (f_endpoint f) (f_duration f) (f_now f) (f_tokenCount f).

(** The token counts and the durations the parser statistics add up. *)
Definition parsed_tokens (history : list Finished) : Z :=
  fold_left Z.add (List.map f_tokenCount (List.filter parsed history)) 0.

Definition parsed_time (history : list Finished) : Q :=
  sum (List.map f_duration (List.filter parsed history)).

End PerformanceMonitor.

(* ===================================================================== *)
(** * enhanced_server.js: the fallback tokenizer                           *)
(* ===================================================================== *)

Module Tokenizer.

Inductive CharType : Type :=
| kanji | hiragana | katakana | latin | number | space | punctuation.

#[global] Instance CharType_eq_dec : EqDecision CharType.
Proof. solve_decision. Defined.

Definition in_range (lo hi c : N) : bool := ((lo <=? c) && (c <=? hi))%N.

(** The code units [\s] matches. *)
Definition is_whitespace (c : N) : bool :=
  in_range 9 13 c
  || bool_decide (c ∈ [32; 160; 5760; 8232; 8233; 8239; 8287; 12288;
                       65279]%N)
  || in_range 8192 8202 c.

(** [getCharType(char)] for the one code unit [text[i]]. *)
Definition getCharType (c : N) : CharType :=
  if in_range 19968 40879 c then kanji
  else if in_range 12352 12447 c then hiragana
  else if in_range 12448 12543 c then katakana
  else if in_range 97 122 c || in_range 65 90 c then latin
  else if in_range 48 57 c then number
  else if is_whitespace c then space
  else punctuation.

Definition particles : list jsstring :=
  Eval vm_compute in
    List.map js
      ["は"; "が"; "を"; "に"; "で"; "と"; "や"; "の"; "から"; "まで";
       "より"; "も"; "だけ"; "しか"; "ほど"; "くらい"; "ぐらい"; "など";
       "なんか"; "って"; "という"; "といった"; "による"; "について";
       "に対して"; "か"; "かな"; "かしら"; "よ"; "ね"; "な"; "わ"; "ぞ";
       "ぜ"; "さ"].

Definition verbs : list jsstring :=
  Eval vm_compute in
    List.map js
      ["する"; "いる"; "ある"; "なる"; "くる"; "いく"; "みる"; "きく";
       "いう"; "おもう"; "かんがえる"; "わかる"; "しる"; "できる";
       "たべる"; "のむ"].

Definition adjectives : list jsstring :=
  Eval vm_compute in
    List.map js
      ["いい"; "わるい"; "おおきい"; "ちいさい"; "あたらしい"; "ふるい";
       "たかい"; "やすい"; "きれい"; "すごい"; "おもしろい"; "つまらない"].

Definition adverbs : list jsstring :=
  Eval vm_compute in
    List.map js
      ["とても"; "すごく"; "ちょっと"; "すこし"; "たくさん"; "いっぱい";
       "ずっと"; "きっと"; "もっと"; "やっぱり"; "やはり"; "もちろん";
       "たぶん"; "きっと"].

Definition demonstratives : list jsstring :=
  Eval vm_compute in
    List.map js
      ["これ"; "それ"; "あれ"; "どれ"; "ここ"; "そこ"; "あそこ"; "どこ";
       "こう"; "そう"; "ああ"; "どう"; "この"; "その"; "あの"; "どの"].

(** The characters of the second alternative of the [numbers] pattern. *)
Definition kanji_numerals : list N :=
  Eval vm_compute in js "一二三四五六七八九十百千万億兆".

(** [/^[0-9]+$|^[一二三四五六七八九十百千万億兆]+$/.test(text)] *)
Definition numbers (text : jsstring) : bool :=
  match text with
  | [] => false
  | _ =>
    forallb (in_range 48 57) text
    || forallb (fun c => bool_decide (c ∈ kanji_numerals)) text
  end.

(** What [estimateGrammar] returns. *)
Record Estimate : Type := mkEstimate {
  pos : string;
  confidence : Q;
  rule : string
}.

(** [array.includes(text)] *)
Definition includes (l : list jsstring) (text : jsstring) : bool :=
  bool_decide (text ∈ l).

(** [estimateGrammar(text, charType)]; [charType] is [None] for the
    empty string. *)
Definition estimateGrammar (text : jsstring) (charType : option CharType)
  : Estimate :=
  if includes particles text then mkEstimate "Particle" (9 # 10) "particle_list"
  else if includes verbs text then mkEstimate "Verb" (8 # 10) "verb_list"
  else if includes adjectives text
  then mkEstimate "Adjective" (8 # 10) "adjective_list"
  else if includes adverbs text then mkEstimate "Adverb" (8 # 10) "adverb_list"
  else if includes demonstratives text
  then mkEstimate "Pronoun" (8 # 10) "demonstrative_list"
  else if numbers text then mkEstimate "Number" (9 # 10) "number_pattern"
  else if Str.endsWith text (js "る") && (1 <? Str.length text)
  then mkEstimate "Verb" (6 # 10) "ru_verb_ending"
  else if Str.endsWith text (js "た") || Str.endsWith text (js "だ")
  then mkEstimate "Verb" (7 # 10) "past_verb_ending"
  else if Str.endsWith text (js "て") || Str.endsWith text (js "で")
  then mkEstimate "Verb" (7 # 10) "te_form_ending"
  else if Str.endsWith text (js "ます") || Str.endsWith text (js "です")
  then mkEstimate "Auxiliary" (8 # 10) "polite_ending"
  else if Str.endsWith text (js "い")
          && bool_decide (charType = Some hiragana)
          && (1 <? Str.length text)
  then mkEstimate "Adjective" (6 # 10) "i_adjective_ending"
  else if Str.endsWith text (js "な")
  then mkEstimate "Adjective" (6 # 10) "na_adjective_ending"
  else
    match charType with
    | Some kanji => mkEstimate "Noun" (5 # 10) "kanji_default"
    | Some katakana => mkEstimate "Noun" (6 # 10) "katakana_default"
    | Some hiragana => mkEstimate "Particle" (4 # 10) "hiragana_default"
    | Some latin => mkEstimate "Noun" (7 # 10) "latin_default"
    | Some number => mkEstimate "Number" (9 # 10) "number_default"
    | _ => mkEstimate "Unknown" (1 # 10) "fallback_default"
    end.

(** Which of the two object literals a chunk comes from: the grouping
    loop, or the character-by-character fallback with the position of
    the character. *)
Inductive Origin : Type :=
| Enhanced
| Emergency (index : nat).

(** A chunk. Its [reading], [lemma_to_lookup] and [grammar.lemma] are
    its [text]; [grammar.features] and [grammar.role] are formatted from
    the estimate and the origin; [context] and [dependency] are
    [null]. *)
Record Chunk : Type := mkChunk {
  text : jsstring;
  grammar : Estimate;
  origin : Origin
}.

(** The variables of the loop. *)
Record Loop : Type := mkLoop {
  chunks : list Chunk;
  currentChunk : jsstring;
  currentType : option CharType
}.

(** [chunks.push({...})] for the current chunk, guarded by
    [if (currentChunk)]. *)
Definition push (l : Loop) : list Chunk :=
  if Str.truthy (currentChunk l)
  then chunks l
       ++ [mkChunk (currentChunk l)
                   (estimateGrammar (currentChunk l) (currentType l))
                   Enhanced]
  else chunks l.

(** The test that lets a character join the current chunk. *)
Definition joins (current : option CharType) (charType : CharType) : bool :=
  match current with
  | None => true
  | Some t =>
    bool_decide (t = charType)
    || (bool_decide (t = kanji) && bool_decide (charType = hiragana))
    || (bool_decide (t = hiragana) && bool_decide (charType = kanji))
  end.

(** One round of the [for] loop. *)
Definition step (l : Loop) (c : N) : Loop :=
  let charType := getCharType c in
  if bool_decide (charType = space) then
    if Str.truthy (currentChunk l) then mkLoop (push l) [] None else l
  else if joins (currentType l) charType then
    mkLoop (chunks l) (currentChunk l ++ [c])
           (match currentType l with
            | None => Some charType
            | Some t => Some t
            end)
  else mkLoop (push l) [c] (Some charType).

(** [text.split('').map((char, index) => ...)] *)
Definition emergency (s : jsstring) : list Chunk :=
  imap (fun index c =>
          mkChunk [c] (estimateGrammar [c] (Some (getCharType c)))
                  (Emergency (S index)))
       s.

(** [basicTokenize(text)] *)
Definition basicTokenize (s : jsstring) : list Chunk :=
  let l := fold_left step s (mkLoop [] [] None) in
  match push l with
  | [] => emergency s
  | chunks => chunks
  end.

(** A character the loop does not skip. *)
Definition visible (c : N) : bool :=
  negb (bool_decide (getCharType c = space)).

(** Kanji and hiragana are grouped together; every other kind is
    grouped on its own. *)
Definition group (t : CharType) : CharType :=
  match t with hiragana => kanji | _ => t end.

(** A non-empty run of characters of the kind of [t]. *)
Definition well_grouped (t : CharType) (s : jsstring) : Prop :=
  t <> space /\ s <> []
  /\ Forall (fun c => group (getCharType c) = group t) s.

(** What holds of a chunk the grouping loop makes. *)
Definition sound (ch : Chunk) : Prop :=
  origin ch = Enhanced
  /\ forallb visible (text ch) = true
  /\ (exists t, well_grouped t (text ch))
  /\ rule (grammar ch) <> "number_default"%string.

(** What holds of the loop variables once the characters [done] have
    been read. *)
Definition loop_inv (done : jsstring) (l : Loop) : Prop :=
  concat (List.map text (chunks l)) ++ currentChunk l
  = List.filter visible done
  /\ Forall sound (chunks l)
  /\ forallb visible (currentChunk l) = true
  /\ match currentType l with
     | None => currentChunk l = []
     | Some t => well_grouped t (currentChunk l)
     end.

(** The code units [\s] matches, listed. *)
Definition whitespace : list N :=
  [9; 10; 11; 12; 13; 32; 160; 5760; 8192; 8193; 8194; 8195; 8196; 8197;
   8198; 8199; 8200; 8201; 8202; 8232; 8233; 8239; 8287; 12288; 65279]%N.

End Tokenizer.

(* ===================================================================== *)
(** * build-database.js: the sense rows                                    *)
(* ===================================================================== *)

Module BuildDatabase.
Section Build.

(** [String(x)] for a number [x]: the decimal rendering of the
    language, which the build only passes on. *)
Variable Number_toString : Double.t -> jsstring.

(** A member of a parsed XML element: left out, one value, or an array
    of values. *)
Inductive OneOrMany (A : Type) : Type :=
| Absent
| One (a : A)
| Many (l : list A).
Arguments Absent {A}.
Arguments One {A} a.
Arguments Many {A} l.

(** The text of an element as the XML parser returns it: a string, or
    the number or boolean the parser read it as. *)
Inductive Primitive : Type :=
| PString (s : jsstring)
| PNumber (x : Double.t)
| PBoolean (b : bool).

(** Truthiness: the empty string, zero, [NaN] and [false] are falsy. *)
Definition truthy (p : Primitive) : bool :=
  match p with
  | PString s => Str.truthy s
  | PNumber (SpecFloat.S754_zero _) => false
  | PNumber SpecFloat.S754_nan => false
  | PNumber _ => true
  | PBoolean b => b
  end.

(** [String(p)] *)
Definition String (p : Primitive) : jsstring :=
  match p with
  | PString s => s
  | PNumber x => Number_toString x
  | PBoolean true => js "true"
  | PBoolean false => js "false"
  end.

(** A [gloss] element: its text, or an object (an element with
    attributes or children) that may carry a [#text] member. *)
Inductive GlossElement : Type :=
| GlossValue (p : Primitive)
| GlossObject (text : option Primitive).

(** A parsed [sense] element, as far as the build reads it. The
    parts of speech are texts. *)
Record XmlSense : Type := mkXmlSense {
  s_pos : OneOrMany Primitive;
  s_gloss : OneOrMany GlossElement
}.

(** [array.join(sep)] on an array of strings *)
Fixpoint join (sep : jsstring) (l : list jsstring) : jsstring :=
  match l with
  | [] => []
  | [x] => x
  | x :: l' => x ++ sep ++ join sep l'
  end.

(** [s.pos ? (Array.isArray(s.pos) ? s.pos.join(', ') : String(s.pos)) : '']
    ; an array is truthy, and [join] renders each element. *)
Definition partsOfSpeech (pos : OneOrMany Primitive) : jsstring :=
  match pos with
  | Absent => []
  | One p => if truthy p then String p else []
  | Many ps => join (js ", ") (List.map String ps)
  end.

Definition object_Object : jsstring := Eval vm_compute in js "[object Object]".

(** [(typeof g === 'object' && g['#text']) ? g['#text'] : String(g)] *)
Definition gloss_text (g : GlossElement) : Primitive :=
  match g with
  | GlossValue p => PString (String p)
  | GlossObject (Some t) => if truthy t then t else PString object_Object
  | GlossObject None => PString object_Object
  end.

(** [if (s.gloss)] on a single element: an object is truthy. *)
Definition gloss_truthy (g : GlossElement) : bool :=
  match g with
  | GlossValue p => truthy p
  | GlossObject _ => true
  end.

(** The array [definitions] that is stored as JSON. *)
Definition definitions (gloss : OneOrMany GlossElement) : list Primitive :=
  match gloss with
  | Absent => []
  | One g => if gloss_truthy g then [gloss_text g] else []
  | Many gs => List.map gloss_text gs
  end.

(** The strings of a JSON array, if it holds nothing else. *)
Definition strings_of (l : list Primitive) : option (list jsstring) :=
  mapM (fun p => match p with PString s => Some s | _ => None end) l.

(** The row [senseStmt.run(entryId, partsOfSpeech, glossesJson)] writes,
    as [buildDefinitionFromEntry] parses it back from
    [json_object('pos', s.pos, 'gloss', json(s.gloss))]. [Server.SenseRow]
    describes gloss arrays of strings; a row whose array holds a number
    or a boolean (the [#text] of an object) has no counterpart there. *)
Definition sense_row (s : XmlSense) : option Server.SenseRow :=
  glosses ← strings_of (definitions (s_gloss s));
  Some (Server.mkSenseRow (Some (partsOfSpeech (s_pos s)))
                          (Server.GlossArray glosses)).

(** The rows written for the senses of an entry, in order. *)
Definition sense_rows (senses : list XmlSense)
  : option (list Server.SenseRow) :=
  mapM sense_row senses.

(** The parts of speech of a sense, rendered. *)
Definition pos_list (pos : OneOrMany Primitive) : list jsstring :=
  match pos with
  | Absent => []
  | One p => [String p]
  | Many ps => List.map String ps
  end.

(** The parts of speech a sense names: the non-empty ones; a single
    falsy value (such as the number 0) names none. *)
Definition named_parts (pos : OneOrMany Primitive) : list jsstring :=
  match pos with
  | One p => if truthy p then List.filter Str.truthy [String p] else []
  | _ => List.filter Str.truthy (pos_list pos)
  end.

(** [s.includes(p)] *)
Fixpoint includes (p s : jsstring) : bool :=
  Str.startsWith_aux p s
  || match s with
     | [] => false
     | _ :: s' => includes p s'
     end.

(** No part of speech of the sense contains the separator [', ']. *)
Definition separator_free (s : XmlSense) : Prop :=
  Forall (fun p => includes (js ", ") p = false) (pos_list (s_pos s)).

(** What a sense element amounts to in a definition: its glosses and
    the parts of speech it names; nothing for a sense without glosses. *)
Definition read_back (s : XmlSense) : option Server.Sense :=
  glosses ← strings_of (definitions (s_gloss s));
  match glosses with
  | [] => None
  | _ => Some (Server.mkSense glosses (named_parts (s_pos s)))
  end.

End Build.
Arguments Absent {A}.
Arguments One {A} a.
Arguments Many {A} l.
End BuildDatabase.

Module BuildExamples.
Import BuildDatabase.

(** [String(x)] for an integral number below 10^21. *)
Definition integer_toString (x : Double.t) : jsstring :=
  match Double.Math_floor x with
  | Double.Integer z => js (NilZero.string_of_int (Z.to_int z))
  | _ => js "NaN"
  end.

(** A sense with two parts of speech and two glosses, and a sense whose
    only gloss reads as the number 0. *)
Definition study : XmlSense :=
  mkXmlSense (Many [PString (js "noun"); PString (js "suru verb")])
             (Many [GlossValue (PString (js "study"));
                    GlossObject (Some (PString (js "learning")))]).

Definition zero : XmlSense :=
  mkXmlSense (One (PString (js "numeric")))
             (One (GlossValue (PNumber (Double.of_Z 0)))).

Definition seven : XmlSense :=
  mkXmlSense Absent (Many [GlossValue (PNumber (Double.of_Z 7))]).

(** A database that holds the rows [rows] for every entry. *)
Definition holding (rows : list Server.SenseRow) : Server.Database :=
  Server.mkDatabase
    (fun _ => Server.DbOk None) (fun _ => Server.DbOk [])
    (fun _ => Server.DbOk
                (Some (Server.mkEntryData None (Some (js "benkyou"))
                                          (Some rows)))).

End BuildExamples.

(* ===================================================================== *)
(** * Properties                                                           *)
(* ===================================================================== *)

(** ** Insertion-ordered maps *)

Section JsMapFacts.
Context {K V : Type} `{EqDecision K}.
Implicit Types (m : list (K * V)) (k : K) (v : V).

Lemma JsMap_get_set_eq m k v : JsMap.get k (JsMap.set k v m) = Some v.
Proof.
  induction m as [|[k' v'] m IH]; simpl.
  - rewrite decide_True; done.
  - destruct (decide (k = k')) as [->|Hne]; simpl.
    + rewrite decide_True; done.
    + rewrite decide_False; done.
Qed.

Lemma JsMap_get_set_ne m k k' v :
  k' ≠ k -> JsMap.get k' (JsMap.set k v m) = JsMap.get k' m.
Proof.
  intros Hne. induction m as [|[k0 v0] m IH]; simpl.
  - rewrite decide_False; done.
  - destruct (decide (k = k0)) as [->|Hk]; simpl.
    + rewrite !decide_False; done.
    + destruct (decide (k' = k0)); done.
Qed.

Lemma JsMap_get_delete_eq m k : JsMap.get k (JsMap.delete k m) = None.
Proof.
  induction m as [|[k' v'] m IH]; simpl; [done|].
  destruct (decide (k = k')) as [->|Hne]; simpl; [done|].
  rewrite decide_False; done.
Qed.

Lemma JsMap_get_delete_ne m k k' :
  k' ≠ k -> JsMap.get k' (JsMap.delete k m) = JsMap.get k' m.
Proof.
  intros Hne. induction m as [|[k0 v0] m IH]; simpl; [done|].
  destruct (decide (k = k0)) as [->|Hk]; simpl.
  - rewrite decide_False; done.
  - destruct (decide (k' = k0)); done.
Qed.

Lemma JsMap_has_set m k k' v :
  JsMap.has k' (JsMap.set k v m) = bool_decide (k' = k) || JsMap.has k' m.
Proof.
  unfold JsMap.has. destruct (decide (k' = k)) as [->|Hne].
  - rewrite JsMap_get_set_eq, bool_decide_true; done.
  - rewrite JsMap_get_set_ne, bool_decide_false; done.
Qed.

Lemma JsMap_has_delete m k k' :
  JsMap.has k' (JsMap.delete k m)
  = negb (bool_decide (k' = k)) && JsMap.has k' m.
Proof.
  unfold JsMap.has. destruct (decide (k' = k)) as [->|Hne].
  - rewrite JsMap_get_delete_eq, bool_decide_true; done.
  - rewrite JsMap_get_delete_ne, bool_decide_false; done.
Qed.

End JsMapFacts.

(** ** The routing of [MultiLevelCache] *)

Section Routing.
Context {O : Type}.
Implicit Types (m : MultiLevelCache.t O) (c : EnhancedLRUCache.t O).


Lemma getCache_unknown (type : string) :
  type ∉ MultiLevelCache.known_types -> MultiLevelCache.getCache type = MultiLevelCache.DefinitionCache.
Proof.
  intros Hn. unfold MultiLevelCache.getCache.
  repeat case_bool_decide; try done; subst;
    exfalso; apply Hn; unfold MultiLevelCache.known_types; set_solver.
Qed.

Lemma read_write_same (l : MultiLevelCache.level) c m :
  MultiLevelCache.read l (MultiLevelCache.write l c m) = c.
Proof. destruct l; reflexivity. Qed.

(** A value written to a store is read back from it before it expires. *)
Lemma get_after_set (key : jsstring) (v : jsvalue O) customTTL now now'
  accessTime c :
  now' < now + EnhancedLRUCache.effective_ttl customTTL c ->
  (EnhancedLRUCache.get key now' accessTime
     (EnhancedLRUCache.set key v customTTL now c)).1 = v.
Proof.
  intros Hlt. unfold EnhancedLRUCache.get, EnhancedLRUCache.set. simpl.
  rewrite JsMap_get_set_eq. unfold EnhancedLRUCache.isValid. simpl.
  assert (EnhancedLRUCache.effective_ttl customTTL c
          = EnhancedLRUCache.effective_ttl customTTL
              (if (EnhancedLRUCache.maxSize c <=? JsMap.size (EnhancedLRUCache.cache c))
                  && negb (JsMap.has key (EnhancedLRUCache.cache c))
               then EnhancedLRUCache.evictLRU c else c)) as Httl.
  { destruct (_ && _); [|done].
    unfold EnhancedLRUCache.effective_ttl, EnhancedLRUCache.evictLRU.
    destruct (EnhancedLRUCache.accessOrder c); [done|].
    destruct (EnhancedLRUCache.oldest _).1; [|done].
    destruct (Str.truthy _); done. }
  destruct (now' <? _) eqn:Hv; [done|].
  apply Z.ltb_ge in Hv. unfold EnhancedLRUCache.effective_ttl in *. lia.
Qed.

(** C10. A data-class tag other than 'definition', 'analysis', 'image'
    and 'frequent' is routed to the definition store: [getCache] returns
    it, [set] and [get] under the tag are [set] and [get] under
    'definition', and a value written under the tag is read back under
    'definition'. *)
Theorem unknown_type_routes_to_definition_cache
  (type : string) (key : jsstring) (v : jsvalue O) (customTTL : option Z)
  (now now' : Z) (accessTime : Q) m :
  type ∉ MultiLevelCache.known_types ->
  MultiLevelCache.read (MultiLevelCache.getCache type) m
    = MultiLevelCache.definitionCache m
  /\ MultiLevelCache.set key v type customTTL now m
     = MultiLevelCache.set key v "definition" customTTL now m
  /\ MultiLevelCache.get key type now accessTime m
     = MultiLevelCache.get key "definition" now accessTime m
  /\ (now' < now + EnhancedLRUCache.effective_ttl customTTL
                     (MultiLevelCache.definitionCache m) ->
      (MultiLevelCache.get key "definition" now' accessTime
         (MultiLevelCache.set key v type customTTL now m)).1 = v).
Proof.
  intros Hn. pose proof (getCache_unknown type Hn) as Hg.
  unfold MultiLevelCache.set, MultiLevelCache.get. rewrite Hg.
  change (MultiLevelCache.getCache "definition")
    with MultiLevelCache.DefinitionCache.
  repeat split; try reflexivity.
  intros Hlt. rewrite read_write_same.
  pose proof (get_after_set key v customTTL now now' accessTime
                (MultiLevelCache.definitionCache m) Hlt) as Hget.
  simpl MultiLevelCache.read.
  destruct (EnhancedLRUCache.get key now' accessTime _) as [v' c']; exact Hget.
Qed.

End Routing.

Lemma unknown_type_routes_to_definition_cache_witness :
  let m := @MultiLevelCache.new unit in
  ("grammar"%string ∉ MultiLevelCache.known_types)
  /\ MultiLevelCache.set (js "k") (JNum 7) "grammar" None 0 m
     = MultiLevelCache.set (js "k") (JNum 7) "definition" None 0 m
  /\ (MultiLevelCache.get (js "k") "definition" 5 0%Q
        (MultiLevelCache.set (js "k") (JNum 7) "grammar" None 0 m)).1
     = JNum 7.
Proof.
  assert ("grammar"%string ∉ MultiLevelCache.known_types) as Hn.
  { unfold MultiLevelCache.known_types. intros H. repeat (apply elem_of_cons in H as [H|H]; [discriminate H|]).
    inversion H. }
  destruct (unknown_type_routes_to_definition_cache
              (O := unit) "grammar" (js "k") (JNum 7) None 0 5 0%Q
              MultiLevelCache.new Hn) as (_ & Hset & _ & Hread).
  split; [exact Hn|]. split; [exact Hset|].
  apply Hread. vm_compute. reflexivity.
Defined.

(** ** Folds *)

Lemma fold_left_preserves {A B : Type} (P : A -> Prop) (f : A -> B -> A)
  (l : list B) (a : A) :
  (forall a b, P a -> P (f a b)) -> P a -> P (fold_left f l a).
Proof.
  intros Hf. revert a. induction l as [|b l IH]; simpl; intros a Ha; [done|].
  apply IH, Hf, Ha.
Qed.

(** ** Hit-rate accounting *)

Section HitRate.
Context {O : Type}.
Import EnhancedLRUCache.
Implicit Types (c : EnhancedLRUCache.t O) (s : @Stats).


Lemma evictLRU_counters c : counters (evictLRU c) = counters c.
Proof.
  unfold evictLRU. destruct (accessOrder c); [done|].
  destruct (oldest _).1; [|done]. destruct (Str.truthy _); done.
Qed.

Lemma set_counters key v customTTL now c :
  counters (set key v customTTL now c) = counters c.
Proof.
  unfold set. destruct (_ && _); [|done].
  rewrite <- (evictLRU_counters c). done.
Qed.

Lemma delete_counters key c : counters (delete key c).2 = counters c.
Proof. done. Qed.

Lemma cleanup_counters now c : counters (cleanup now c).2 = counters c.
Proof.
  unfold cleanup.
  assert (counters (fold_left (cleanup_step now) (cache c) (0, c)).2 = counters c) as H.
  { apply (fold_left_preserves (fun acc => counters acc.2 = counters c)); [|done].
    intros [n c'] [k it] Hc. unfold cleanup_step. destruct (_ <=? _); done. }
  destruct (fold_left _ _ _) as [n c1]. exact H.
Qed.

Lemma preload_counters entries now c :
  counters (preload entries now c).2 = counters c.
Proof.
  unfold preload.
  apply (fold_left_preserves (fun acc => counters acc.2 = counters c)); [|done].
  intros [n c'] [k v] Hc. unfold preload_step. destruct (negb _); [|done].
  simpl. rewrite set_counters. exact Hc.
Qed.

Lemma import_counters data now c :
  counters (import data now c).2 = counters c.
Proof.
  unfold import.
  assert (counters (fold_left (import_step now) data (0, c)).2 = counters c) as H.
  { apply (fold_left_preserves (fun acc => counters acc.2 = counters c)); [|done].
    intros [n c'] it Hc. unfold import_step. destruct (_ <? _); done. }
  destruct (fold_left _ _ _) as [n c1]. exact H.
Qed.

(** What every [delete] preserves, [optimize] preserves. *)
Lemma optimize_preserves (P : EnhancedLRUCache.t O -> Prop) targetFillRate c :
  (forall k c', P c' -> P (delete k c').2) ->
  P c -> P (optimize targetFillRate c).2.
Proof.
  intros Hd Hc.
  assert (forall es, P (remove_entries es c).2) as Hrem.
  { intros es. apply (fold_left_preserves (fun acc => P acc.2)); [|done].
    intros [n c'] [k time] Hc'. by apply Hd. }
  unfold optimize.
  destruct (targetSize _ _); [destruct (_ <=? _)|..]; done || apply Hrem.
Qed.

Lemma optimize_counters targetFillRate c :
  counters (optimize targetFillRate c).2 = counters c.
Proof.
  apply (optimize_preserves (fun c' => counters c' = counters c)); done.
Qed.



Lemma in_step_counters n c c' :
  counters c' = counters c -> in_step n c -> in_step n c'.
Proof.
  unfold counters, in_step. intros [= -> -> ->]. done.
Qed.

Lemma get_in_step key now accessTime n c :
  in_step n c -> in_step (n + 1) (get key now accessTime c).2.
Proof.
  intros (Hh & Hm & Hn & _). unfold get.
  destruct (JsMap.get key (cache c)) as [it|]; [destruct (isValid now it)|];
    unfold in_step, percentage; simpl; repeat split; lia.
Qed.

Lemma step_in_step n c (o : EnhancedLRUCache.op O) :
  in_step n c -> in_step (n + (if is_get o then 1 else 0)) (step c o).
Proof.
  intros Hc. destruct o as [key now d|key v ttl' now|key| |entries now|data now|r|now]; simpl.
  - apply get_in_step, Hc.
  - rewrite Z.add_0_r. eapply in_step_counters; [apply set_counters|done].
  - rewrite Z.add_0_r. eapply in_step_counters; [apply delete_counters|done].
  - rewrite Z.add_0_r. eapply in_step_counters; [|done]. done.
  - rewrite Z.add_0_r. eapply in_step_counters; [apply preload_counters|done].
  - rewrite Z.add_0_r. eapply in_step_counters; [apply import_counters|done].
  - rewrite Z.add_0_r. eapply in_step_counters; [apply optimize_counters|done].
  - rewrite Z.add_0_r. eapply in_step_counters; [apply cleanup_counters|done].
Qed.

Lemma run_in_step (ops : list (EnhancedLRUCache.op O)) n c :
  in_step n c -> in_step (n + gets ops) (run ops c).
Proof.
  revert n c. induction ops as [|o ops IH]; intros n c Hc.
  - unfold gets. simpl. rewrite Z.add_0_r. exact Hc.
  - simpl. apply (step_in_step n c o) in Hc. apply IH in Hc.
    replace (n + gets (o :: ops)) with (n + (if is_get o then 1 else 0) + gets ops); [done|].
    unfold gets. simpl. destruct (is_get o); simpl; lia.
Qed.

(** C3 (amended). From a fresh store and after any history of
    operations, [hits + misses] is the number of [get] calls in the
    history; [stats.hitRate] is the number 0 before the first [get] and
    afterwards the percentage [(hits / (hits + misses)) * 100], the
    quotient and the product each rounded as a double; [getStats]
    reports [Math.round(hitRate * 100) / 100], again in double
    arithmetic. *)
Theorem hit_rate_is_percentage_of_reads
  (maxSize ttl : Z) (ops : list (EnhancedLRUCache.op O)) :
  let c := run ops (new maxSize ttl) in
  let h := hits (stats c) in
  let m := misses (stats c) in
  h + m = gets ops
  /\ (gets ops = 0 ->
      hitRate (stats c) = Double.zero
      /\ r_hitRate (getStats c) = Double.zero)
  /\ (0 < gets ops ->
      let rate := Double.mul (Double.div (Double.of_Z h) (Double.of_Z (h + m)))
                             (Double.of_Z 100) in
      hitRate (stats c) = rate
      /\ r_hitRate (getStats c)
         = Double.div (Double.Math_round (Double.mul rate (Double.of_Z 100)))
                      (Double.of_Z 100)).
Proof.
  intros c h m.
  assert (in_step (0 + gets ops) c) as (Hh & Hm & Hn & Hr).
  { apply run_in_step. unfold in_step, percentage. simpl. repeat split; lia. }
  fold h m in Hh, Hm, Hn, Hr. rewrite Z.add_0_l in Hn.
  split; [exact Hn|].
  assert (r_hitRate (getStats c)
          = Double.div
              (Double.Math_round
                 (Double.mul (percentage h m) (Double.of_Z 100)))
              (Double.of_Z 100)) as Hrep.
  { unfold getStats. simpl. rewrite Hr. reflexivity. }
  split.
  - intros H0. rewrite Hrep, Hr. unfold percentage.
    destruct (0 <? h + m) eqn:E; [apply Z.ltb_lt in E; lia|].
    split; reflexivity.
  - intros Hpos rate. rewrite Hrep, Hr. unfold percentage.
    destruct (0 <? h + m) eqn:E; [|apply Z.ltb_ge in E; lia].
    split; reflexivity.
Qed.
End HitRate.

(** After 23 hits and 137 misses the stored rate is the double
    14.374999999999998 (the exact percentage is 14.375) and the
    reported rate is 14.37. *)
Lemma hit_rate_is_percentage_of_reads_witness :
  let c := EnhancedLRUCache.run HitRateExamples.history_23_137 (EnhancedLRUCache.new 2 1000) in
  EnhancedLRUCache.hits (EnhancedLRUCache.stats c) = 23
  /\ EnhancedLRUCache.misses (EnhancedLRUCache.stats c) = 137
  /\ EnhancedLRUCache.hitRate (EnhancedLRUCache.stats c)
     = SpecFloat.S754_finite false 8092405580431359 (-49)
  /\ EnhancedLRUCache.r_hitRate (EnhancedLRUCache.getStats c)
     = Double.hundredths 1437.
Proof.
  intros c.
  destruct (hit_rate_is_percentage_of_reads (O := unit) 2 1000
              HitRateExamples.history_23_137)
    as (Hn & _ & Hrate).
  destruct Hrate as [Hs Hr]; [vm_compute; reflexivity|].
  fold c in Hs, Hr.
  assert (EnhancedLRUCache.hits (EnhancedLRUCache.stats c) = 23) as Hh
    by (vm_compute; reflexivity).
  assert (EnhancedLRUCache.misses (EnhancedLRUCache.stats c) = 137) as Hm
    by (vm_compute; reflexivity).
  split; [exact Hh|]. split; [exact Hm|].
  rewrite Hs, Hr, Hh, Hm. split; vm_compute; reflexivity.
Defined.

(** C3 (as stated) fails: after one hit and one miss the stored and the
    reported [hitRate] are the number 50, not the fraction 1/2. *)
Lemma hit_rate_is_not_a_fraction :
  let c := EnhancedLRUCache.run
             [EnhancedLRUCache.OpSet (js "a") (@JNum unit 1) None 0;
              EnhancedLRUCache.OpGet (js "a") 1 0%Q;
              EnhancedLRUCache.OpGet (js "b") 2 0%Q]
             (EnhancedLRUCache.new 2 1000) in
  let h := EnhancedLRUCache.hits (EnhancedLRUCache.stats c) in
  let m := EnhancedLRUCache.misses (EnhancedLRUCache.stats c) in
  h = 1 /\ m = 1
  /\ EnhancedLRUCache.hitRate (EnhancedLRUCache.stats c) = Double.of_Z 50
  /\ EnhancedLRUCache.r_hitRate (EnhancedLRUCache.getStats c) = Double.of_Z 50
  /\ Double.of_Z 50 <> Double.div (Double.of_Z h) (Double.of_Z (h + m)).
Proof.
  repeat split; try reflexivity.
  intros H. vm_compute in H. discriminate H.
Qed.


(** [Math.round] and [Math.floor] at a few doubles: halves go upwards,
    also below zero; a result of zero keeps the sign. *)
Lemma rounding_examples :
  Double.Math_round (Double.div (Double.of_Z 5) (Double.of_Z 2))
  = Double.of_Z 3
  /\ Double.Math_round (Double.div (Double.of_Z (-5)) (Double.of_Z 2))
     = Double.of_Z (-2)
  /\ Double.Math_round (Double.div (Double.of_Z (-1)) (Double.of_Z 4))
     = SpecFloat.S754_zero true
  /\ Double.Math_floor (Double.div (Double.of_Z (-1)) (Double.of_Z 4))
     = Double.Integer (-1)
  /\ Double.Math_floor (Double.div (Double.of_Z 7) (Double.of_Z 2))
     = Double.Integer 3.
Proof. vm_compute. repeat split; reflexivity. Qed.

(** ** The eviction scenario *)

(** The store after the four calls when Get("a") reads the clock in the
    millisecond of Set("b"): both keys carry the access time [t2], the
    eviction loop replaces its candidate only on a strictly smaller
    time, so it settles on "a", the key it meets first. *)
Lemma after_four_in_one_millisecond (t1 t2 t4 : Z) :
  t2 < t1 + 1000 ->
  JsMap.keys (EnhancedLRUCache.cache (LruScenario.after_four t1 t2 t2 t4))
  = [LruScenario.key_b; LruScenario.key_c].
Proof.
  intros H21. apply Z.ltb_lt in H21.
  pose proof (Z.ltb_irrefl t2) as H22.
  repeat (cbv -[Z.ltb Z.add Qplus Qdiv Qmult inject_Z
                Double.of_Z Double.mul Double.div];
          rewrite ?H21, ?H22).
  reflexivity.
Qed.

(** C6 fails in the code. Whenever Get("a") is served in the
    millisecond in which Set("b") was, and before "a" expires, Set("c")
    evicts "a", the key that was just read, and keeps "b": the store
    holds "b" and "c", one eviction is counted, a later Get("a") returns
    [null] whenever it is made, and the scenario does not hold. *)
Theorem read_in_the_millisecond_of_a_write_is_evicted
  (t1 t2 t4 t5 t6 t7 : Z) :
  t2 < t1 + 1000 ->
  let c4 := LruScenario.after_four t1 t2 t2 t4 in
  JsMap.keys (EnhancedLRUCache.cache c4)
  = [LruScenario.key_b; LruScenario.key_c]
  /\ EnhancedLRUCache.evictions (EnhancedLRUCache.stats c4) = 1
  /\ (EnhancedLRUCache.get LruScenario.key_a t6 0%Q c4).1 = JNull
  /\ ~ LruScenario.scenario_holds t1 t2 t2 t4 t5 t6 t7.
Proof.
  intros H21 c4.
  pose proof (after_four_in_one_millisecond t1 t2 t4 H21) as Hkeys.
  fold c4 in Hkeys.
  split; [exact Hkeys|]. split; [|split].
  - subst c4. apply Z.ltb_lt in H21.
    pose proof (Z.ltb_irrefl t2) as H22.
    repeat (cbv -[Z.ltb Z.add Qplus Qdiv Qmult inject_Z
                  Double.of_Z Double.mul Double.div];
            rewrite ?H21, ?H22).
    reflexivity.
  - unfold EnhancedLRUCache.get.
    destruct (JsMap.get LruScenario.key_a (EnhancedLRUCache.cache c4))
      as [it|] eqn:Hget; [|reflexivity].
    exfalso. revert Hget. subst c4. apply Z.ltb_lt in H21.
    pose proof (Z.ltb_irrefl t2) as H22.
    repeat (cbv -[Z.ltb Z.add Qplus Qdiv Qmult inject_Z
                  Double.of_Z Double.mul Double.div];
            rewrite ?H21, ?H22).
    discriminate.
  - unfold LruScenario.scenario_holds. fold c4.
    destruct (EnhancedLRUCache.get LruScenario.key_b t5 0%Q c4) as [vb c5].
    destruct (EnhancedLRUCache.get LruScenario.key_a t6 0%Q c5) as [va c6].
    destruct (EnhancedLRUCache.get LruScenario.key_c t7 0%Q c6) as [vc c7].
    intros [H _]. rewrite Hkeys in H. discriminate H.
Qed.

Lemma read_in_the_millisecond_of_a_write_is_evicted_witness :
  JsMap.keys (EnhancedLRUCache.cache (LruScenario.after_four 0 0 0 0))
  = [LruScenario.key_b; LruScenario.key_c]
  /\ ~ LruScenario.scenario_holds 0 0 0 0 0 0 0.
Proof.
  destruct (read_in_the_millisecond_of_a_write_is_evicted 0 0 0 0 0 0)
    as (H1 & _ & _ & H4); [lia|].
  split; [exact H1|exact H4].
Defined.

(** The four calls go wrong only on such a tie: when the clock has
    advanced between Set("b") and Get("a"), and each read comes before
    its key expires, "b" is evicted and not "a", Get("b") misses,
    Get("a") hits with 1 and Get("c") hits with 3. *)
Lemma scenario_holds_when_clock_advances (t1 t2 t3 t4 t5 t6 t7 : Z) :
  t2 < t3 -> t3 < t1 + 1000 -> t6 < t1 + 1000 -> t7 < t4 + 1000 ->
  LruScenario.scenario_holds t1 t2 t3 t4 t5 t6 t7.
Proof.
  intros H23 H31 H61 H74.
  apply Z.ltb_lt in H23, H31, H61, H74.
  unfold LruScenario.scenario_holds.
  repeat (cbv -[Z.ltb Z.add Qplus Qdiv Qmult inject_Z
                Double.of_Z Double.mul Double.div];
          rewrite ?H23, ?H31, ?H61, ?H74).
  repeat split; reflexivity.
Qed.

(** ** Capacity *)

(** C4 at two inputs where the code lets a store grow past [maxSize]:
    [import] inserts without evicting, and [set] evicts nothing when the
    oldest key is the empty string. *)
Theorem import_and_set_exceed_capacity :
  let data := [EnhancedLRUCache.mkExported (js "a") (@JNum unit 1) 1000 0;
               EnhancedLRUCache.mkExported (js "b") (JNum 2) 1000 0] in
  let c1 := (EnhancedLRUCache.import data 0 (EnhancedLRUCache.new 1 1000)).2 in
  let c2 := EnhancedLRUCache.run
              [EnhancedLRUCache.OpSet (js "") (@JNum unit 1) None 0;
               EnhancedLRUCache.OpSet (js "a") (JNum 2) None 1]
              (EnhancedLRUCache.new 1 1000) in
  (EnhancedLRUCache.maxSize c1 = 1
   /\ JsMap.size (EnhancedLRUCache.cache c1) = 2)
  /\ (EnhancedLRUCache.maxSize c2 = 1
      /\ JsMap.size (EnhancedLRUCache.cache c2) = 2).
Proof. repeat split; reflexivity. Qed.

(** The half of the invariant that does hold: the two maps of a store
    always have the same keys. *)

Section KeysAgree.
Context {O : Type}.
Import EnhancedLRUCache.
Implicit Types (c : EnhancedLRUCache.t O).

Lemma remove_keys_agree key c st :
  keys_agree c ->
  keys_agree (mk (maxSize c) (ttl c) (JsMap.delete key (cache c))
                 (JsMap.delete key (accessOrder c)) st).
Proof. intros H k. simpl. rewrite !JsMap_has_delete, H. done. Qed.

Lemma insert_keys_agree key (it : Item O) time c st :
  keys_agree c ->
  keys_agree (mk (maxSize c) (ttl c) (JsMap.set key it (cache c))
                 (JsMap.set key time (accessOrder c)) st).
Proof. intros H k. simpl. rewrite !JsMap_has_set, H. done. Qed.

Lemma evictLRU_keys_agree c : keys_agree c -> keys_agree (evictLRU c).
Proof.
  intros H. unfold evictLRU. destruct (accessOrder c) eqn:Hao; [done|].
  rewrite <- Hao. destruct (oldest _).1; [|done].
  destruct (Str.truthy _); [|done]. apply remove_keys_agree, H.
Qed.

Lemma set_keys_agree key v customTTL now c :
  keys_agree c -> keys_agree (set key v customTTL now c).
Proof.
  intros H. unfold set.
  apply insert_keys_agree. destruct (_ && _); [apply evictLRU_keys_agree|]; done.
Qed.

Lemma get_keys_agree key now accessTime c :
  keys_agree c -> keys_agree (get key now accessTime c).2.
Proof.
  intros H. unfold get.
  destruct (JsMap.get key (cache c)) as [it|] eqn:Hget; [|exact H].
  destruct (isValid now it); simpl; [|apply remove_keys_agree, H].
  intros k. simpl. rewrite JsMap_has_set, <- H.
  destruct (decide (k = key)) as [->|Hne].
  - rewrite bool_decide_true by done. unfold JsMap.has. rewrite Hget. done.
  - rewrite bool_decide_false by done. done.
Qed.

Lemma cleanup_keys_agree now c : keys_agree c -> keys_agree (cleanup now c).2.
Proof.
  intros H. unfold cleanup.
  assert (keys_agree (fold_left (cleanup_step now) (cache c) (0, c)).2) as Hf.
  { apply (fold_left_preserves (fun acc => keys_agree acc.2)); [|done].
    intros [n c'] [k it] Hc. unfold cleanup_step.
    destruct (_ <=? _); [apply remove_keys_agree|]; done. }
  destruct (fold_left _ _ _) as [n c1]. exact Hf.
Qed.

Lemma preload_keys_agree entries now c :
  keys_agree c -> keys_agree (preload entries now c).2.
Proof.
  intros H. unfold preload.
  apply (fold_left_preserves (fun acc => keys_agree acc.2)); [|done].
  intros [n c'] [k v] Hc. unfold preload_step.
  destruct (negb _); [apply set_keys_agree|]; done.
Qed.

Lemma import_keys_agree data now c :
  keys_agree c -> keys_agree (import data now c).2.
Proof.
  intros H. unfold import.
  assert (keys_agree (fold_left (import_step now) data (0, c)).2) as Hf.
  { apply (fold_left_preserves (fun acc => keys_agree acc.2)); [|done].
    intros [n c'] it Hc. unfold import_step.
    destruct (_ <? _); [apply insert_keys_agree|]; done. }
  destruct (fold_left _ _ _) as [n c1]. exact Hf.
Qed.

Lemma optimize_keys_agree targetFillRate c :
  keys_agree c -> keys_agree (optimize targetFillRate c).2.
Proof.
  intros H. apply optimize_preserves; [|done].
  intros k c' Hc. apply remove_keys_agree, Hc.
Qed.

Lemma step_keys_agree c (o : EnhancedLRUCache.op O) :
  keys_agree c -> keys_agree (step c o).
Proof.
  intros H. destruct o; simpl.
  - apply get_keys_agree, H.
  - apply set_keys_agree, H.
  - apply remove_keys_agree, H.
  - done.
  - apply preload_keys_agree, H.
  - apply import_keys_agree, H.
  - apply optimize_keys_agree, H.
  - apply cleanup_keys_agree, H.
Qed.

(** Every key of the entry map has its counterpart in the access-order
    map, and conversely, after any history of operations. *)
Lemma keys_agree_after_any_history (maxSize ttl : Z)
  (ops : list (EnhancedLRUCache.op O)) :
  keys_agree (run ops (new maxSize ttl)).
Proof.
  unfold run. apply fold_left_preserves; [apply step_keys_agree|done].
Qed.
End KeysAgree.

(** ** Circuit breakers *)

Section BreakerFacts.
Import CircuitBreaker.
Context {R E : Type}.
Implicit Types (b : Breaker) (reg : gmap string Breaker)
  (history : list (Z * (R + E))).

Lemma execute_registry (serviceName : string) (operation : unit -> R + E)
  fallback now reg b :
  reg !! serviceName = Some b ->
  (executeWithCircuitBreaker serviceName operation fallback now reg).2
  = <[serviceName := after_call now (resolves (operation tt)) b]> reg.
Proof.
  intros Hb. unfold executeWithCircuitBreaker, after_call. rewrite Hb.
  destruct (bool_decide (state b = OPEN) && before_next_attempt now b).
  - rewrite insert_id by done. destruct fallback; done.
  - destruct (operation tt); simpl; [done|]. destruct fallback; done.
Qed.

Lemma call_once_lookup (serviceName : string) reg b (c : Z * (R + E)) :
  reg !! serviceName = Some b ->
  call_once serviceName reg c !! serviceName
  = Some (after_call (fst c) (resolves (snd c)) b).
Proof.
  intros Hb. unfold call_once. rewrite (execute_registry _ _ _ _ _ b Hb).
  apply lookup_insert_eq.
Qed.

Lemma count_failures_snoc history (c : Z * (R + E)) :
  count_failures (history ++ [c])
  = count_failures history + (if is_failure c then 1 else 0).
Proof.
  unfold count_failures. rewrite List.filter_app, List.length_app. simpl.
  destruct (is_failure c); simpl; lia.
Qed.

Lemma count_failures_nonneg history : 0 <= count_failures history.
Proof. unfold count_failures. lia. Qed.

Lemma after_call_inv cfg history b (c : Z * (R + E)) :
  breaker_inv cfg history b ->
  breaker_inv cfg (history ++ [c]) (after_call (fst c) (resolves (snd c)) b).
Proof.
  intros (Hcfg & Hho & Hopen & Hclosed).
  rewrite <- Hcfg in *. clear Hcfg.
  unfold breaker_inv. rewrite count_failures_snoc.
  pose proof (count_failures_nonneg history) as Hnn.
  assert (state b = OPEN -> failureThreshold (config b) <= count_failures history) as Hfar.
  { intros Hs. destruct (Z.lt_ge_cases (count_failures history) (failureThreshold (config b))) as [Hlt|Hge]; [|lia].
    apply Hclosed in Hlt as [Hc _]. congruence. }
  unfold after_call, is_failure, on_entry, on_success, on_failure.
  destruct c as [now [r|e]]; simpl;
    destruct (state b) eqn:Hs; simpl; try done;
    try destruct (before_next_attempt now b); simpl;
    try destruct (failureThreshold (config b) <=? failures b + 1) eqn:Hth; simpl;
    rewrite ?Hs; simpl;
    try (apply Z.leb_le in Hth); try (apply Z.leb_gt in Hth);
    try specialize (Hfar eq_refl); try specialize (Hopen eq_refl);
    repeat split; intros; rewrite ?Hs in *; try done; try congruence; try lia;
    try (destruct Hclosed as [_ Hf]; lia);
    try (destruct Hopen as [Hge Hna]; first [lia | exact Hna]).
Qed.

Lemma new_breaker_inv options :
  breaker_inv (R := R) (E := E) (make_config options) [] (new_breaker options).
Proof.
  unfold breaker_inv, new_breaker. simpl. repeat split; try done.
Qed.

Lemma calls_lookup (serviceName : string) history reg b cfg h0 :
  reg !! serviceName = Some b -> breaker_inv cfg h0 b ->
  exists b', calls serviceName history reg !! serviceName = Some b'
             /\ breaker_inv cfg (h0 ++ history) b'.
Proof.
  revert reg b h0. induction history as [|c history IH]; intros reg b h0 Hb Hinv.
  - exists b. rewrite app_nil_r. done.
  - simpl. 
    destruct (IH (call_once serviceName reg c) _ (h0 ++ [c])
                 (call_once_lookup serviceName reg b c Hb)
                 (after_call_inv cfg h0 b c Hinv)) as (b' & Hb' & Hinv').
    exists b'. rewrite <- app_assoc in Hinv'. done.
Qed.

(** C2 (amended). A breaker created CLOSED counts every failed call;
    a success while CLOSED leaves the count as it is. It stays CLOSED
    while the failures since creation are below [failureThreshold], and
    the failure that reaches the threshold makes it OPEN with
    [nextAttempt = now + resetTimeout]. Once OPEN, the first call at or
    after [nextAttempt] turns it HALF_OPEN and attempts the operation;
    a success leaves it CLOSED with [failures = 0], a failure leaves it
    OPEN with [nextAttempt = now + resetTimeout]. *)
Theorem breaker_opens_on_accumulated_failures
  (serviceName : string) (options : Options) history :
  let cfg := make_config options in
  let reg := calls serviceName history
               (createCircuitBreaker serviceName options ∅) in
  exists b, reg !! serviceName = Some b
  /\ (count_failures history < failureThreshold cfg ->
      state b = CLOSED /\ failures b = count_failures history)
  /\ (forall now (error : E),
      count_failures history < failureThreshold cfg ->
      failureThreshold cfg <= count_failures history + 1 ->
      exists b',
        call_once serviceName reg (now, (inr error : R + E)) !! serviceName = Some b'
        /\ state b' = OPEN
        /\ failures b' = count_failures history + 1
        /\ nextAttempt b' = Some (now + resetTimeout cfg))
  /\ (state b = OPEN ->
      exists t, nextAttempt b = Some t
      /\ forall now (operation : unit -> R + E) fallback,
          t <= now ->
          state (on_entry b) = HALF_OPEN
          /\ (let '(_, cs, reg') :=
                executeWithCircuitBreaker serviceName operation fallback
                  now reg in
              head cs = Some CallOperation
              /\ exists b', reg' !! serviceName = Some b'
                 /\ match operation tt with
                    | inl _ => state b' = CLOSED /\ failures b' = 0
                    | inr _ => state b' = OPEN
                               /\ nextAttempt b' = Some (now + resetTimeout cfg)
                    end)).
Proof.
  intros cfg reg.
  destruct (calls_lookup serviceName history
              (createCircuitBreaker serviceName options ∅)
              (new_breaker options) cfg []
              (lookup_insert_eq _ _ _) (new_breaker_inv options))
    as (b & Hb & Hcfg & Hho & Hopen & Hclosed).
  change ([] ++ history) with history in Hclosed.
  fold reg in Hb. clearbody cfg reg.
  exists b. split; [exact Hb|]. split; [exact Hclosed|]. split.
  - intros now error Hlt Hge. destruct (Hclosed Hlt) as [Hs Hf].
    rewrite (call_once_lookup serviceName reg b _ Hb). eexists. split; [reflexivity|].
    unfold after_call, on_entry, on_failure. simpl. rewrite Hs. simpl.
    rewrite Hs. simpl. rewrite Hcfg, Hf.
    destruct (failureThreshold cfg <=? count_failures history + 1) eqn:Hth;
      [|apply Z.leb_gt in Hth; lia].
    simpl. done.
  - intros Hs. destruct (Hopen Hs) as [Hge [t Ht]]. exists t. split; [exact Ht|].
    intros now operation fallback Hnow.
    split; [unfold on_entry; rewrite Hs; reflexivity|].
    pose proof (execute_registry serviceName operation fallback now reg b Hb) as Hreg.
    unfold executeWithCircuitBreaker in *. rewrite Hb in *.
    assert (before_next_attempt now b = false) as Hbefore.
    { unfold before_next_attempt. rewrite Ht. apply Z.ltb_ge. exact Hnow. }
    unfold after_call in Hreg. rewrite Hbefore, andb_false_r in *.
    destruct (operation tt) as [r|e]; simpl in *.
    + split; [done|]. eexists. split; [apply lookup_insert_eq|].
      unfold on_entry, on_success. rewrite Hs. simpl. done.
    + assert ((failureThreshold (config b) <=? failures b + 1) = true) as Hth
        by (apply Z.leb_le; rewrite Hcfg; lia).
      destruct fallback; simpl; (split; [done|]);
        (eexists; split; [apply lookup_insert_eq|]);
        unfold on_entry, on_failure; rewrite Hs; simpl; rewrite Hth; simpl;
        rewrite Hcfg; done.
Qed.

(** C8. A call made while the breaker is OPEN and the clock is before
    [nextAttempt] never attempts the guarded operation and leaves the
    registry as it is: it invokes the fallback alone when one is given,
    and otherwise throws the temporarily-unavailable error. *)
Theorem open_breaker_short_circuits
  (serviceName : string) (operation : unit -> R + E)
  (fallback : option (unit -> R + E)) (now t : Z) reg b :
  reg !! serviceName = Some b ->
  state b = OPEN -> nextAttempt b = Some t -> now < t ->
  let '(completion, cs, reg') :=
    executeWithCircuitBreaker serviceName operation fallback now reg in
  (CallOperation ∉ cs)
  /\ reg' = reg
  /\ match fallback with
     | Some fb => cs = [CallFallback] /\ completion = completion_of (fb tt)
     | None => cs = []
               /\ completion = Thrown (TemporarilyUnavailable serviceName)
     end.
Proof.
  intros Hb Hs Ht Hnow. unfold executeWithCircuitBreaker. rewrite Hb.
  rewrite bool_decide_true by exact Hs.
  unfold before_next_attempt. rewrite Ht.
  destruct (now <? t) eqn:Hlt; [|apply Z.ltb_ge in Hlt; lia]. simpl.
  destruct fallback as [fb|]; repeat split; try done.
  - intros Hin. apply list_elem_of_singleton in Hin. discriminate Hin.
  - intros Hin. inversion Hin.
Qed.

End BreakerFacts.


(** C2 (as stated) fails: with threshold 3, two failures, a success and
    one more failure open the breaker. The success did not reset the
    count (it reads 2 after it), and the history never has more than
    two failures in a row. *)
Lemma success_does_not_reset_failures :
  let history := [(0, BreakerExamples.failing); (1, BreakerExamples.failing);
                  (2, BreakerExamples.succeeding); (3, BreakerExamples.failing)] in
  let reg := BreakerExamples.parser_registry in
  (CircuitBreaker.failures
     <$> CircuitBreaker.calls "parser" (take 3 history) reg !! "parser"%string)
    = Some 2
  /\ (CircuitBreaker.state
        <$> CircuitBreaker.calls "parser" history reg !! "parser"%string)
     = Some CircuitBreaker.OPEN
  /\ CircuitBreaker.consecutive_failures history = 1
  /\ CircuitBreaker.longest_failure_run history = 2.
Proof. vm_compute. repeat split; reflexivity. Qed.

Lemma breaker_opens_on_accumulated_failures_witness :
  let history := [(0, BreakerExamples.failing); (1, BreakerExamples.failing);
                  (2, BreakerExamples.failing)] in
  let reg := CircuitBreaker.calls "parser" history
               BreakerExamples.parser_registry in
  exists b, reg !! "parser"%string = Some b
    /\ CircuitBreaker.state b = CircuitBreaker.OPEN
    /\ CircuitBreaker.nextAttempt b = Some 30002
    /\ exists b',
         (CircuitBreaker.executeWithCircuitBreaker "parser"
            (fun _ => BreakerExamples.succeeding) None 30002 reg).2
           !! "parser"%string = Some b'
         /\ CircuitBreaker.state b' = CircuitBreaker.CLOSED
         /\ CircuitBreaker.failures b' = 0.
Proof.
  intros history reg.
  destruct (breaker_opens_on_accumulated_failures (R := nat) (E := unit)
              "parser" BreakerExamples.parser_options history)
    as (b & Hb & _ & _ & Hprobe).
  fold BreakerExamples.parser_registry in Hb. fold reg in Hb, Hprobe.
  assert (CircuitBreaker.state b = CircuitBreaker.OPEN) as Hs.
  { assert (reg !! "parser"%string
            = Some (CircuitBreaker.mkBreaker CircuitBreaker.OPEN 3 (Some 2)
                      (Some 30002)
                      (CircuitBreaker.make_config BreakerExamples.parser_options)))
      as Hv by (vm_compute; reflexivity).
    rewrite Hv in Hb. injection Hb as <-. reflexivity. }
  exists b. split; [exact Hb|]. split; [exact Hs|].
  destruct (Hprobe Hs) as (t & Ht & Hcall).
  assert (t = 30002) as ->.
  { assert (reg !! "parser"%string
            = Some (CircuitBreaker.mkBreaker CircuitBreaker.OPEN 3 (Some 2)
                      (Some 30002)
                      (CircuitBreaker.make_config BreakerExamples.parser_options)))
      as Hv by (vm_compute; reflexivity).
    rewrite Hv in Hb. injection Hb as <-. simpl in Ht. congruence. }
  split; [exact Ht|].
  specialize (Hcall 30002 (fun _ => BreakerExamples.succeeding) None
                ltac:(lia)) as [_ Hrun].
  destruct (CircuitBreaker.executeWithCircuitBreaker _ _ _ _ _) as [[completion cs] reg'].
  destruct Hrun as (_ & b' & Hb' & Hfin). exists b'. split; [exact Hb'|exact Hfin].
Defined.

Lemma open_breaker_short_circuits_witness :
  let reg := CircuitBreaker.calls "parser"
               [(0, BreakerExamples.failing); (1, BreakerExamples.failing);
                (2, BreakerExamples.failing)]
               BreakerExamples.parser_registry in
  CircuitBreaker.executeWithCircuitBreaker "parser"
    (fun _ => BreakerExamples.succeeding)
    (Some (fun _ => (inl 7%nat : nat + unit))) 100 reg
  = (CircuitBreaker.Returned 7%nat, [CircuitBreaker.CallFallback], reg).
Proof.
  intros reg.
  pose proof (open_breaker_short_circuits (R := nat) (E := unit) "parser"
                (fun _ => BreakerExamples.succeeding)
                (Some (fun _ => inl 7%nat)) 100 30002 reg
                (CircuitBreaker.mkBreaker CircuitBreaker.OPEN 3 (Some 2)
                   (Some 30002)
                   (CircuitBreaker.make_config BreakerExamples.parser_options))
                ltac:(vm_compute; reflexivity) ltac:(reflexivity)
                ltac:(reflexivity) ltac:(lia)) as H.
  destruct (CircuitBreaker.executeWithCircuitBreaker _ _ _ _ _) as [[completion cs] reg'].
  destruct H as (_ & -> & -> & ->). reflexivity.
Defined.

(** ** Request deduplication *)

Section DedupFacts.
Import Deduplication.
Context {Resp : Type}.
Implicit Types (w : World Resp) (e : event Resp).

Lemma step_answered_are_executed w e :
  answered_are_executed w -> answered_are_executed (step w e).
Proof.
  intros [Hc Hr]. destruct e as [id req now|id resp|now]; simpl.
  - unfold middleware. destruct (requestQueue w !! _); [done|]. split; simpl.
    + intros id' [k Hk]. apply elem_of_app.
      destruct (decide (id = id')) as [->|Hne].
      * right. apply list_elem_of_singleton. done.
      * left. apply Hc. rewrite lookup_insert_ne in Hk by done. eauto.
    + intros id' resp Hin. apply elem_of_app. left. eauto.
  - unfold handler_ends. destruct (cleanupKey w !! id) as [key|] eqn:Hk; [|done].
    split; simpl.
    + intros id' [k Hk']. apply Hc.
      destruct (decide (id = id')) as [->|Hne].
      * rewrite lookup_delete_eq in Hk'. done.
      * rewrite lookup_delete_ne in Hk' by done. eauto.
    + intros id' resp' Hin. apply elem_of_app in Hin as [Hin|Hin]; [eauto|].
      apply list_elem_of_singleton in Hin. injection Hin as -> ->. apply Hc. eauto.
  - done.
Qed.

Lemma run_answered_are_executed (trace : list (event Resp)) w :
  answered_are_executed w -> answered_are_executed (run trace w).
Proof.
  revert w. induction trace as [|e trace IH]; intros w Hw; [done|].
  simpl. apply IH, step_answered_are_executed, Hw.
Qed.

Lemma followers_subscribe (req : Request) (now : Z) (n : nat) (l : list nat) w :
  requestQueue w !! generateRequestKey req = Some (mkEntry 0%nat now) ->
  subscribers w !! 0%nat = Some l ->
  forall first,
  let w' := run (arrivals req now first n) w in
  requestQueue w' = requestQueue w
  /\ subscribers w' = <[0%nat := l ++ seq first n]> (subscribers w)
  /\ cleanupKey w' = cleanupKey w
  /\ executed w' = executed w
  /\ responses w' = responses w.
Proof.
  revert l w. induction n as [|n IH]; intros l w Hq Hs first.
  - simpl. rewrite app_nil_r, insert_id by done. done.
  - change (run (arrivals req now first (S n)) w)
      with (run (arrivals req now (S first) n) (middleware first req now w)).
    assert (middleware first req now w
            = mkWorld (requestQueue w)
                (<[0%nat := l ++ [first]]> (subscribers w))
                (cleanupKey w) (executed w) (responses w)) as ->.
    { unfold middleware. rewrite Hq. simpl. rewrite Hs. done. }
    set (w1 := mkWorld _ _ _ _ _).
    destruct (IH (l ++ [first]) w1 Hq (lookup_insert_eq _ _ _) (S first))
      as (H1 & H2 & H3 & H4 & H5).
    cbn zeta. rewrite H1, H2, H3, H4, H5. simpl.
    rewrite insert_insert_eq, <- app_assoc. done.
Qed.

(** C7 at its failing inputs. Requests 0, 1, ..., n arrive with one
    signature before the handler of request 0 ends, and that handler
    then sends [resp]: the operation was executed once, for request 0,
    and request 0 alone has a response; requests 1 to n are subscribed
    to a promise that nothing settles and have received nothing. *)
Theorem only_the_first_caller_is_answered (req : Request) (now : Z)
  (resp : Resp) (n : nat) :
  let w := run (arrivals req now 0 (S n) ++ [HandlerEnds 0%nat resp])
               empty_world in
  executed w = [0%nat]
  /\ responses w = [(0%nat, resp)]
  /\ subscribers w !! 0%nat = Some (seq 1 n)
  /\ Forall (fun id => response_of id w = None) (seq 1 n).
Proof.
  intros w. subst w. unfold run. rewrite fold_left_app.
  set (w1 := middleware (Resp := Resp) 0 req now empty_world).
  change (fold_left step (arrivals req now 0 (S n)) empty_world)
    with (run (arrivals req now 1 n) w1).
  assert (requestQueue w1 !! generateRequestKey req = Some (mkEntry 0%nat now)) as Hq
    by apply lookup_insert_eq.
  assert (subscribers w1 !! 0%nat = Some []) as Hs by apply lookup_insert_eq.
  destruct (followers_subscribe req now n [] w1 Hq Hs 1%nat)
    as (H1 & H2 & H3 & H4 & H5).
  cbn [fold_left step]. unfold handler_ends. rewrite H3.
  assert (cleanupKey w1 !! 0%nat = Some (generateRequestKey req)) as Hc
    by apply lookup_insert_eq.
  rewrite Hc. simpl. rewrite H2, H4, H5. simpl.
  split; [done|]. split; [done|]. split; [apply lookup_insert_eq|].
  apply Forall_forall. intros id Hin. apply elem_of_seq in Hin.
  unfold response_of. cbn [responses].
  change (responses w1) with (@nil (nat * Resp)).
  cbn [app List.find fst]. rewrite bool_decide_false by lia. done.
Qed.
Lemma step_executed_other id w e :
  ~ arrival_of id e -> id ∉ executed w -> id ∉ executed (step w e).
Proof.
  intros Hne Hid. destruct e as [id' req now|id' resp|now]; simpl in *.
  - unfold middleware. destruct (requestQueue w !! _); [done|]. simpl.
    intros Hin. apply elem_of_app in Hin as [Hin|Hin]; [done|].
    apply list_elem_of_singleton in Hin. congruence.
  - unfold handler_ends. destruct (cleanupKey w !! id'); done.
  - done.
Qed.

(** A request that was not passed on to a handler has no response, now
    or after anything that happens later, short of arriving anew. *)
Lemma coalesced_request_is_never_answered (trace : list (event Resp)) id w :
  answered_are_executed w -> id ∉ executed w ->
  Forall (fun e => ~ arrival_of id e) trace ->
  response_of id (run trace w) = None.
Proof.
  intros Hw Hid Htrace.
  assert (answered_are_executed (run trace w) /\ id ∉ executed (run trace w))
    as [[_ Hr] Hid'].
  { revert w Hw Hid. induction Htrace as [|e trace He _ IH]; intros w Hw Hid; [done|].
    simpl. apply IH; [apply step_answered_are_executed, Hw|].
    apply step_executed_other; done. }
  unfold response_of.
  destruct (List.find _ (responses (run trace w))) as [[id' resp]|] eqn:Hf; [|done].
  apply find_some in Hf as [Hin Heq]. apply bool_decide_eq_true in Heq.
  simpl in Heq. subst id'. exfalso. apply Hid', (Hr id resp).
  apply list_elem_of_In. exact Hin.
Qed.
End DedupFacts.

(** ** Batching *)

Section BatchFacts.
Import BatchProcessor.
Context {I R E : Type} `{EqDecision I}.
Implicit Types (w : World I R E) (tm : Timer) (ts : list Timer).








Lemma next_due_In now ts tm :
  next_due now ts = Some tm -> In tm ts.
Proof.
  unfold next_due. intros H.
  destruct (List.filter _ ts) as [|tm0 rest] eqn:Hf; [done|].
  injection H as <-.
  assert (forall t0 l, In (fold_left earlier l t0) (t0 :: l)) as Hfold.
  { intros t0 l. revert t0. induction l as [|x l IH]; intros t0; simpl; [auto|].
    destruct (IH (earlier t0 x)) as [H|H]; [|auto].
    rewrite <- H. unfold earlier. destruct (_ <? _); auto. }
  assert (In (fold_left earlier rest tm0) (List.filter (fun tm => deadline tm <=? now) ts))
    as Hin by (rewrite Hf; apply Hfold).
  apply filter_In in Hin as [? _]. done.
Qed.

Lemma length_clearTimeout_le id ts :
  (List.length (clearTimeout id ts) <= List.length ts)%nat.
Proof. apply List.filter_length_le. Qed.

Lemma length_clearTimeout_lt tm ts :
  In tm ts ->
  (List.length (clearTimeout (timer_id tm) ts) < List.length ts)%nat.
Proof.
  induction ts as [|tm' ts IH]; intros Hin; [done|].
  simpl. destruct Hin as [->|Hin].
  - rewrite bool_decide_true by done. simpl.
    pose proof (length_clearTimeout_le (timer_id tm) ts). lia.
  - specialize (IH Hin). destruct (negb _); simpl; lia.
Qed.

Lemma processBatch_timers_le (type : string) now w :
  (List.length (timers (processBatch type now w)) <= List.length (timers w))%nat.
Proof.
  unfold processBatch. destruct (batches (bp w) !! type) as [batch|]; [|done].
  destruct (items batch); [done|].
  assert (List.length (match timeout batch with
                       | Some id => clearTimeout id (timers w)
                       | None => timers w
                       end) <= List.length (timers w))%nat as H.
  { destruct (timeout batch); [apply length_clearTimeout_le|done]. }
  destruct (processor batch _); exact H.
Qed.

(** The loop of [advance] has fuel enough: when it ends, no armed timer
    is due any more. *)
Lemma fire_due_exhausts fuel now w :
  (List.length (timers w) <= fuel)%nat ->
  next_due now (timers (fire_due fuel now w)) = None.
Proof.
  revert w. induction fuel as [|fuel IH]; intros w Hlen; simpl.
  - destruct (timers w); [done|simpl in Hlen; lia].
  - destruct (next_due now (timers w)) as [tm|] eqn:Hdue; [|exact Hdue].
    apply IH. etransitivity; [apply processBatch_timers_le|]. simpl.
    pose proof (length_clearTimeout_lt tm (timers w) (next_due_In _ _ _ Hdue)).
    lia.
Qed.

Lemma advance_leaves_nothing_due now w :
  next_due now (timers (advance now w)) = None.
Proof. apply fire_due_exhausts. done. Qed.

(** The completion of a suspended run touches neither the batches nor
    the timers, and calls no processor. *)
Lemma complete_spec id w :
  batches (bp (complete id w)) = batches (bp w)
  /\ maxBatchSize (bp (complete id w)) = maxBatchSize (bp w)
  /\ timers (complete id w) = timers w
  /\ flushes (complete id w) = flushes w.
Proof.
  unfold complete. destruct (List.find _ _) as [job|]; [|done].
  destruct (job_outcome job); done.
Qed.

Lemma complete_pending id w type :
  pending type (complete id w) = pending type w.
Proof.
  unfold pending. destruct (complete_spec id w) as (-> & _). done.
Qed.





End BatchFacts.



(** ** Candidate generation *)

Section SetFacts.
Context {A : Type} `{EqDecision A}.
Implicit Types (x : A) (s xs : list A).

Lemma JsSet_add_NoDup x s : NoDup s -> NoDup (JsSet.add x s).
Proof.
  intros Hs. unfold JsSet.add. case_bool_decide as Hin; [done|].
  apply NoDup_app. split; [done|]. split; [|apply NoDup_singleton].
  intros y Hy Hy'. apply list_elem_of_singleton in Hy'. subst. done.
Qed.

Lemma JsSet_addAll_NoDup xs s : NoDup s -> NoDup (JsSet.addAll xs s).
Proof.
  unfold JsSet.addAll. revert s.
  induction xs as [|x xs IH]; intros s Hs; simpl; [done|].
  apply IH, JsSet_add_NoDup, Hs.
Qed.
End SetFacts.

Section GenerateFacts.
Import Variants.
Variables (isHiragana isKatakana : jsstring -> bool)
          (toKatakana toHiragana : jsstring -> jsstring).

Lemma add_when_NoDup (b : bool) xs variants :
  NoDup variants -> NoDup (add_when b xs variants).
Proof. destruct b; simpl; [apply JsSet_addAll_NoDup|done]. Qed.

Lemma inflections_NoDup word variants :
  NoDup variants -> NoDup (inflections word variants).
Proof.
  intros Hv. unfold inflections.
  assert (forall sufs vs, NoDup vs ->
            NoDup (fold_left (fun variants suffix =>
                      match match_suffix suffix word with
                      | Some first => JsSet.add first variants
                      | None => variants
                      end) sufs vs)) as Hfold.
  { induction sufs as [|suf sufs IH]; intros vs Hvs; simpl; [done|].
    apply IH. destruct (match_suffix suf word); [apply JsSet_add_NoDup|]; done. }
  apply Hfold.
  destruct (match_ri word) as [[first second]|];
    repeat first [apply add_when_NoDup | apply JsSet_add_NoDup]; exact Hv.
Qed.

Lemma particle_step_NoDup word variants particle :
  NoDup variants -> NoDup (particle_step word variants particle).
Proof.
  intros Hv. unfold particle_step. apply JsSet_add_NoDup, add_when_NoDup, Hv.
Qed.

Lemma particles_NoDup word ps variants :
  NoDup variants -> NoDup (fold_left (particle_step word) ps variants).
Proof.
  revert variants. induction ps as [|p ps IH]; intros variants Hv; simpl; [done|].
  apply IH, particle_step_NoDup, Hv.
Qed.

(** C9. Candidate generation is a function of the query string and of
    what the four [wanakana] functions answer for it: equal answers
    give the identical ordered list. The list has no duplicates and no
    empty string. (The generator takes neither the database nor the
    caches: it cannot query the one or change the others.) *)
Theorem candidate_generation_is_pure_and_duplicate_free (word : jsstring) :
  let candidates :=
    generateComprehensiveVariants isHiragana isKatakana toKatakana toHiragana
      word in
  NoDup candidates
  /\ Forall (fun v => v <> []) candidates
  /\ (forall isHiragana' isKatakana' toKatakana' toHiragana',
      isHiragana' word = isHiragana word ->
      isKatakana' word = isKatakana word ->
      toKatakana' word = toKatakana word ->
      toHiragana' word = toHiragana word ->
      generateComprehensiveVariants isHiragana' isKatakana' toKatakana'
        toHiragana' word = candidates).
Proof.
  cbn zeta. split; [|split].
  - unfold generateComprehensiveVariants.
    apply NoDup_ListNoDup, List.NoDup_filter, NoDup_ListNoDup.
    repeat match goal with
           | |- NoDup (if ?b then _ else _) => destruct b
           | |- NoDup (match ?o with Some _ => _ | None => _ end) => destruct o
           | |- NoDup (add_when _ _ _) => apply add_when_NoDup
           | |- NoDup (JsSet.addAll _ _) => apply JsSet_addAll_NoDup
           | |- NoDup (JsSet.add _ _) => apply JsSet_add_NoDup
           | |- NoDup (inflections _ _) => apply inflections_NoDup
           | |- NoDup (fold_left (particle_step _) _ _) => apply particles_NoDup
           | |- NoDup [_] => apply NoDup_singleton
           end.
  - unfold generateComprehensiveVariants. apply List.Forall_forall.
    intros v Hin. apply filter_In in Hin as [_ Hlen].
    apply Z.ltb_lt in Hlen. intros ->. unfold Str.length in Hlen. simpl in Hlen. lia.
  - intros isH' isK' toK' toH' H1 H2 H3 H4.
    unfold generateComprehensiveVariants. rewrite H1, H2, H3, H4. reflexivity.
Qed.
End GenerateFacts.

Lemma candidate_generation_is_pure_and_duplicate_free_witness :
  let word := js "取り除いて" in
  let candidates :=
    Variants.generateComprehensiveVariants ServerExamples.notKana
      ServerExamples.notKana ServerExamples.unconverted
      ServerExamples.unconverted word in
  NoDup candidates
  /\ List.length candidates = 23%nat
  /\ Variants.generateComprehensiveVariants (fun _ => false) (fun _ => false)
       (fun _ => word) (fun _ => word) word = candidates.
Proof.
  intros word candidates.
  destruct (candidate_generation_is_pure_and_duplicate_free
              ServerExamples.notKana ServerExamples.notKana
              ServerExamples.unconverted ServerExamples.unconverted word)
    as (Hnodup & _ & Hsame).
  split; [exact Hnodup|]. split; [vm_compute; reflexivity|].
  apply Hsame; reflexivity.
Defined.

(** ** The lookup pipeline *)

Section NullMarker.
Context {O : Type}.
Implicit Types (c : EnhancedLRUCache.t O) (m : MultiLevelCache.t O).

(** Reading back a stored [null] yields [null] whether the entry is
    still valid (a hit) or has expired (a miss). *)
Lemma get_after_set_null (key : jsstring) customTTL now now' accessTime c :
  (EnhancedLRUCache.get key now' accessTime
     (EnhancedLRUCache.set key JNull customTTL now c)).1 = JNull.
Proof.
  unfold EnhancedLRUCache.get, EnhancedLRUCache.set. simpl.
  rewrite JsMap_get_set_eq. simpl.
  destruct (EnhancedLRUCache.isValid _ _); reflexivity.
Qed.

Lemma multilevel_get_after_set_null (key : jsstring) now now' accessTime m :
  (MultiLevelCache.get key "definition" now' accessTime
     (MultiLevelCache.set key JNull "definition" None now m)).1 = JNull.
Proof.
  unfold MultiLevelCache.get, MultiLevelCache.set.
  change (MultiLevelCache.getCache "definition")
    with MultiLevelCache.DefinitionCache.
  rewrite read_write_same.
  pose proof (get_after_set_null key None now now' accessTime
                (MultiLevelCache.read MultiLevelCache.DefinitionCache m)) as H.
  destruct (EnhancedLRUCache.get _ _ _ _) as [v c']. exact H.
Qed.

Lemma set_ttl (key : jsstring) (v : jsvalue O) customTTL now c :
  EnhancedLRUCache.ttl (EnhancedLRUCache.set key v customTTL now c)
  = EnhancedLRUCache.ttl c.
Proof.
  unfold EnhancedLRUCache.set. simpl. destruct (_ && _); [|done].
  unfold EnhancedLRUCache.evictLRU.
  destruct (EnhancedLRUCache.accessOrder c); [done|].
  destruct (EnhancedLRUCache.oldest _).1; [|done].
  destruct (Str.truthy _); done.
Qed.

Lemma get_ttl (key : jsstring) now accessTime c :
  EnhancedLRUCache.ttl (EnhancedLRUCache.get key now accessTime c).2
  = EnhancedLRUCache.ttl c.
Proof.
  unfold EnhancedLRUCache.get.
  destruct (JsMap.get key _) as [it|]; [|done].
  destruct (EnhancedLRUCache.isValid now it); done.
Qed.

(** Reading a key back before it expires counts as a hit. *)
Lemma get_after_set_counts_a_hit (key : jsstring) (v : jsvalue O) now now'
  accessTime c :
  now' < now + EnhancedLRUCache.ttl c ->
  let c1 := EnhancedLRUCache.set key v None now c in
  EnhancedLRUCache.hits
    (EnhancedLRUCache.stats (EnhancedLRUCache.get key now' accessTime c1).2)
  = EnhancedLRUCache.hits (EnhancedLRUCache.stats c1) + 1.
Proof.
  intros Hlt c1. unfold EnhancedLRUCache.get.
  assert (JsMap.get key (EnhancedLRUCache.cache c1)
          = Some (EnhancedLRUCache.mkItem v (now + EnhancedLRUCache.ttl c)
                    now now)) as ->.
  { unfold c1, EnhancedLRUCache.set. simpl. rewrite JsMap_get_set_eq. done. }
  unfold EnhancedLRUCache.isValid. simpl.
  destruct (now' <? now + EnhancedLRUCache.ttl c) eqn:Hv;
    [reflexivity|apply Z.ltb_ge in Hv; lia].
Qed.

Lemma multilevel_get_ttl (key : jsstring) now accessTime m :
  EnhancedLRUCache.ttl
    (MultiLevelCache.definitionCache
       (MultiLevelCache.get key "definition" now accessTime m).2)
  = EnhancedLRUCache.ttl (MultiLevelCache.definitionCache m).
Proof.
  unfold MultiLevelCache.get.
  change (MultiLevelCache.getCache "definition")
    with MultiLevelCache.DefinitionCache.
  pose proof (get_ttl key now accessTime (MultiLevelCache.definitionCache m)) as H.
  simpl. destruct (EnhancedLRUCache.get key now accessTime _) as [v c].
  exact H.
Qed.

Lemma multilevel_marker_counts_a_hit (key : jsstring) now now' accessTime m :
  now' < now + EnhancedLRUCache.ttl (MultiLevelCache.definitionCache m) ->
  let m1 := MultiLevelCache.set key JNull "definition" None now m in
  let m2 := MultiLevelCache.set key JNull "definition" None now'
              (MultiLevelCache.get key "definition" now' accessTime m1).2 in
  EnhancedLRUCache.hits
    (EnhancedLRUCache.stats (MultiLevelCache.definitionCache m2))
  = EnhancedLRUCache.hits
      (EnhancedLRUCache.stats (MultiLevelCache.definitionCache m1)) + 1.
Proof.
  intros Hlt. cbn zeta. unfold MultiLevelCache.set, MultiLevelCache.get.
  change (MultiLevelCache.getCache "definition")
    with MultiLevelCache.DefinitionCache.
  destruct m as [d a i f]. simpl in *.
  pose proof (get_after_set_counts_a_hit key JNull now now' accessTime d Hlt)
    as Hhit. cbn zeta in Hhit.
  destruct (EnhancedLRUCache.get key now' accessTime _) as [v' c']. simpl in *.
  pose proof (set_counters key JNull None now' c') as Hcnt.
  unfold EnhancedLRUCache.counters in Hcnt. injection Hcnt as Hh _ _.
  rewrite Hh. exact Hhit.
Qed.
End NullMarker.

Section PipelineFacts.
Import Server.
Variables (isHiragana isKatakana : jsstring -> bool)
          (toKatakana toHiragana : jsstring -> jsstring)
          (db : Database).

Local Abbreviation lookup :=
  (getDefinitionAdvanced isHiragana isKatakana toKatakana toHiragana db).
Local Abbreviation full_query_sequence :=
  (Server.full_query_sequence isHiragana isKatakana toKatakana toHiragana).
Local Abbreviation no_match :=
  (Server.no_match isHiragana isKatakana toKatakana toHiragana db).

Lemma exact_tier_no_match word now variants s :
  Forall (fun v => exactQuery db v = DbOk None) variants ->
  exact_tier db word now variants s
  = (DbOk None,
     mkState (multiLevelCache s)
             (queryLog s ++ List.map ExactQuery variants)).
Proof.
  intros H. revert s. induction H as [|v variants Hv _ IH]; intros s; simpl.
  - unfold ret. rewrite app_nil_r. destruct s; reflexivity.
  - unfold bind, query. rewrite Hv. rewrite IH. simpl.
    rewrite <- app_assoc. reflexivity.
Qed.

Lemma lookup_no_match word now accessTime s :
  no_match word ->
  truthy (MultiLevelCache.get word "definition" now accessTime
            (multiLevelCache s)).1 = false ->
  lookup word now accessTime s
  = (JNull,
     mkState
       (MultiLevelCache.set word JNull "definition" None now
          (MultiLevelCache.get word "definition" now accessTime
             (multiLevelCache s)).2)
       (queryLog s ++ full_query_sequence word)).
Proof.
  intros (Hp & Hex & Hfz) Hc. unfold getDefinitionAdvanced, cache_get.
  destruct (MultiLevelCache.get word "definition" now accessTime _) as [v m].
  simpl in Hc. rewrite Hc, Hp. unfold try_or_null, bind.
  rewrite (exact_tier_no_match word now _ _ Hex). simpl.
  unfold fuzzy_tier, bind, query. rewrite Hfz. simpl.
  unfold full_query_sequence. simpl. rewrite <- app_assoc. reflexivity.
Qed.

(** C1 on the code. For a word with no match in any tier, the first
    lookup returns [null] and stores an entry with value [null] under
    the word; the second lookup returns [null] again, but it sends the
    whole query sequence to the database once more: the cached [null]
    fails the truthiness test that guards the early return. *)
Theorem negative_cache_marker_is_ignored word now now' accessTime accessTime' s :
  no_match word ->
  truthy (MultiLevelCache.get word "definition" now accessTime
            (multiLevelCache s)).1 = false ->
  let '(r1, s1) := lookup word now accessTime s in
  let '(r2, s2) := lookup word now' accessTime' s1 in
  r1 = JNull
  /\ (EnhancedLRUCache.value
       <$> JsMap.get word
             (EnhancedLRUCache.cache
                (MultiLevelCache.definitionCache (multiLevelCache s1))))
     = Some JNull
  /\ r2 = JNull
  /\ queries_issued s1 s2 = full_query_sequence word
  /\ full_query_sequence word <> [].
Proof.
  intros Hno Hc. rewrite (lookup_no_match word now accessTime s Hno Hc).
  set (s1 := mkState _ _).
  rewrite (lookup_no_match word now' accessTime' s1 Hno).
  2:{ simpl. rewrite multilevel_get_after_set_null. reflexivity. }
  split; [reflexivity|]. split.
  { simpl. unfold MultiLevelCache.set.
    change (MultiLevelCache.getCache "definition")
      with MultiLevelCache.DefinitionCache.
    simpl. rewrite JsMap_get_set_eq. reflexivity. }
  split; [reflexivity|]. split.
  - unfold queries_issued. simpl. rewrite drop_app_length. reflexivity.
  - unfold full_query_sequence. simpl. discriminate.
Qed.

(** The second lookup of an unknown word does find the marker: while the
    marker is valid the cache counts a hit for it, and the database is
    queried all the same. *)
Lemma second_lookup_hits_the_marker word now now' accessTime accessTime' s :
  no_match word ->
  truthy (MultiLevelCache.get word "definition" now accessTime
            (multiLevelCache s)).1 = false ->
  now' < now + EnhancedLRUCache.ttl
                 (MultiLevelCache.definitionCache (multiLevelCache s)) ->
  let s1 := (lookup word now accessTime s).2 in
  let s2 := (lookup word now' accessTime' s1).2 in
  definition_hits s2 = definition_hits s1 + 1.
Proof.
  intros Hno Hc Hlt. cbn zeta.
  rewrite (lookup_no_match word now accessTime s Hno Hc).
  cbn [snd]. set (s1 := mkState _ _).
  rewrite (lookup_no_match word now' accessTime' s1 Hno).
  2:{ simpl. rewrite multilevel_get_after_set_null. reflexivity. }
  unfold definition_hits, s1. cbn [snd multiLevelCache].
  apply multilevel_marker_counts_a_hit.
  rewrite multilevel_get_ttl. exact Hlt.
Qed.
End PipelineFacts.

Lemma negative_cache_marker_is_ignored_witness :
  let word := js "zzz" in
  let '(r1, s1) := ServerExamples.lookup word 0 0%Q Server.initial in
  let '(r2, s2) := ServerExamples.lookup word 1 0%Q s1 in
  r1 = JNull /\ r2 = JNull
  /\ List.length (Server.queries_issued s1 s2) = 7%nat.
Proof.
  intros word.
  assert (Server.no_match ServerExamples.notKana ServerExamples.notKana
            ServerExamples.unconverted ServerExamples.unconverted
            ServerExamples.emptyDatabase word) as Hno.
  { split; [vm_compute; reflexivity|]. split; [|reflexivity].
    apply Forall_forall. intros v _. reflexivity. }
  pose proof (negative_cache_marker_is_ignored
                ServerExamples.notKana ServerExamples.notKana
                ServerExamples.unconverted ServerExamples.unconverted
                ServerExamples.emptyDatabase word 0 1 0%Q 0%Q Server.initial
                Hno ltac:(vm_compute; reflexivity)) as H.
  unfold ServerExamples.lookup.
  destruct (Server.getDefinitionAdvanced _ _ _ _ _ word 0 _ _) as [r1 s1].
  destruct (Server.getDefinitionAdvanced _ _ _ _ _ word 1 _ _) as [r2 s2].
  destruct H as (H1 & _ & H2 & H3 & _).
  split; [exact H1|]. split; [exact H2|]. rewrite H3. vm_compute. reflexivity.
Defined.

(* ===================================================================== *)
(** * Further properties                                                   *)
(* ===================================================================== *)

(** ** Insertion-ordered maps, continued *)

Section JsMapMore.
Context {K V : Type} `{EqDecision K}.
Implicit Types (m : list (K * V)) (k : K) (v : V).

Lemma JsMap_has_keys m k : JsMap.has k m = true <-> k ∈ JsMap.keys m.
Proof.
  unfold JsMap.has, JsMap.keys. induction m as [|[k' v'] m IH]; simpl.
  - split; [done|]. intros Hin. inversion Hin.
  - destruct (decide (k = k')) as [->|Hne].
    + split; [|done]. intros _. apply elem_of_cons. by left.
    + rewrite IH. split.
      * intros Hin. apply elem_of_cons. by right.
      * intros Hin. apply elem_of_cons in Hin as [?|?]; done.
Qed.

Lemma JsMap_has_false m k : JsMap.has k m = false <-> k ∉ JsMap.keys m.
Proof.
  rewrite <- JsMap_has_keys. destruct (JsMap.has k m); split; done.
Qed.

Lemma JsMap_keys_set m k v :
  JsMap.keys (JsMap.set k v m)
  = if JsMap.has k m then JsMap.keys m else JsMap.keys m ++ [k].
Proof.
  unfold JsMap.keys, JsMap.has. induction m as [|[k' v'] m IH]; simpl; [done|].
  destruct (decide (k = k')) as [->|Hne]; simpl; [done|].
  rewrite IH. destruct (JsMap.get k m); done.
Qed.

Lemma JsMap_keys_delete m k :
  JsMap.keys (JsMap.delete k m)
  = List.filter (fun k' => negb (bool_decide (k' = k))) (JsMap.keys m).
Proof.
  unfold JsMap.keys. induction m as [|[k' v'] m IH]; simpl; [done|].
  destruct (decide (k = k')) as [->|Hne].
  - rewrite bool_decide_true by done. simpl. exact IH.
  - rewrite bool_decide_false by done. simpl. by rewrite IH.
Qed.

Lemma JsMap_NoDup_set m k v :
  NoDup (JsMap.keys m) -> NoDup (JsMap.keys (JsMap.set k v m)).
Proof.
  intros Hm. rewrite JsMap_keys_set. destruct (JsMap.has k m) eqn:Hh; [done|].
  apply NoDup_app. split; [done|]. split; [|apply NoDup_singleton].
  intros k' Hin Hin'. apply list_elem_of_singleton in Hin'. subst k'.
  by apply JsMap_has_false in Hh.
Qed.

Lemma JsMap_NoDup_delete m k :
  NoDup (JsMap.keys m) -> NoDup (JsMap.keys (JsMap.delete k m)).
Proof.
  intros Hm. rewrite JsMap_keys_delete.
  by apply NoDup_ListNoDup, List.NoDup_filter, NoDup_ListNoDup.
Qed.

Lemma JsMap_length_set m k v :
  List.length (JsMap.set k v m)
  = if JsMap.has k m then List.length m else S (List.length m).
Proof.
  unfold JsMap.has. induction m as [|[k' v'] m IH]; simpl; [done|].
  destruct (decide (k = k')) as [->|Hne]; simpl; [done|].
  rewrite IH. destruct (JsMap.get k m); done.
Qed.

Lemma JsMap_delete_absent m k :
  JsMap.has k m = false -> JsMap.delete k m = m.
Proof.
  unfold JsMap.has. induction m as [|[k' v'] m IH]; simpl; [done|].
  destruct (decide (k = k')) as [->|Hne]; [done|].
  intros Hh. by rewrite IH.
Qed.

Lemma JsMap_length_delete_le m k :
  (List.length (JsMap.delete k m) <= List.length m)%nat.
Proof.
  induction m as [|[k' v'] m IH]; simpl; [done|].
  destruct (decide (k = k')); simpl; lia.
Qed.

Lemma JsMap_length_delete m k :
  NoDup (JsMap.keys m) -> JsMap.has k m = true ->
  S (List.length (JsMap.delete k m)) = List.length m.
Proof.
  unfold JsMap.keys. induction m as [|[k' v'] m IH]; simpl; intros Hm Hh.
  - discriminate Hh.
  - apply NoDup_cons in Hm as [Hk' Hm].
    unfold JsMap.has in Hh. simpl in Hh.
    destruct (decide (k = k')) as [->|Hne].
    + rewrite JsMap_delete_absent; [done|]. by apply JsMap_has_false.
    + simpl. rewrite IH; done.
Qed.

Lemma JsMap_get_In m k v :
  NoDup (JsMap.keys m) -> (JsMap.get k m = Some v <-> In (k, v) m).
Proof.
  unfold JsMap.keys. induction m as [|[k' v'] m IH]; simpl; intros Hm.
  - split; [done|intros []].
  - apply NoDup_cons in Hm as [Hk' Hm].
    destruct (decide (k = k')) as [->|Hne].
    + split.
      * intros [= ->]. by left.
      * intros [[= ->]|Hin]; [done|]. exfalso. apply Hk'.
        apply list_elem_of_In, in_map_iff. by exists (k', v).
    + rewrite (IH Hm). split; [by right|]. intros [[= -> ->]|Hin]; done.
Qed.

End JsMapMore.

(** ** The two maps of a store stay maps *)

Section WellFormed.
Context {O : Type}.
Import EnhancedLRUCache StoreSpec.
Implicit Types (c : EnhancedLRUCache.t O).

Lemma well_formed_remove key c st :
  well_formed c ->
  well_formed (mk (maxSize c) (ttl c) (JsMap.delete key (cache c))
                  (JsMap.delete key (accessOrder c)) st).
Proof.
  intros (Hc & Ha & Hk & Hl). repeat split; simpl.
  - by apply JsMap_NoDup_delete.
  - by apply JsMap_NoDup_delete.
  - by apply remove_keys_agree.
  - destruct (JsMap.has key (cache c)) eqn:Hh.
    + pose proof (JsMap_length_delete _ _ Hc Hh).
      rewrite (Hk key) in Hh. pose proof (JsMap_length_delete _ _ Ha Hh). lia.
    + rewrite (JsMap_delete_absent _ _ Hh). rewrite (Hk key) in Hh.
      by rewrite (JsMap_delete_absent _ _ Hh).
Qed.

Lemma well_formed_insert key (it : Item O) time c st :
  well_formed c ->
  well_formed (mk (maxSize c) (ttl c) (JsMap.set key it (cache c))
                  (JsMap.set key time (accessOrder c)) st).
Proof.
  intros (Hc & Ha & Hk & Hl). repeat split; simpl.
  - by apply JsMap_NoDup_set.
  - by apply JsMap_NoDup_set.
  - by apply insert_keys_agree.
  - rewrite !JsMap_length_set, (Hk key), Hl. done.
Qed.

Lemma well_formed_stats c st :
  well_formed c ->
  well_formed (mk (maxSize c) (ttl c) (cache c) (accessOrder c) st).
Proof. intros H. exact H. Qed.

Lemma well_formed_evictLRU c : well_formed c -> well_formed (evictLRU c).
Proof.
  intros H. unfold evictLRU. destruct (accessOrder c) eqn:Hao; [done|].
  rewrite <- Hao. destruct (oldest _).1; [|done].
  destruct (Str.truthy _); [|done]. by apply well_formed_remove.
Qed.

Lemma well_formed_set key v customTTL now c :
  well_formed c -> well_formed (set key v customTTL now c).
Proof.
  intros H. unfold set. apply well_formed_insert.
  destruct (_ && _); [by apply well_formed_evictLRU|done].
Qed.

Lemma well_formed_get key now accessTime c :
  well_formed c -> well_formed (get key now accessTime c).2.
Proof.
  intros H. unfold get.
  destruct (JsMap.get key (cache c)) as [it|] eqn:Hget; [|exact H].
  destruct (isValid now it); simpl; [|by apply well_formed_remove].
  destruct H as (Hc & Ha & Hk & Hl).
  assert (JsMap.has key (accessOrder c) = true) as Hh.
  { rewrite <- Hk. unfold JsMap.has. by rewrite Hget. }
  split; [done|]. split; [by apply JsMap_NoDup_set|]. split.
  - intros k. simpl. rewrite JsMap_has_set, <- (Hk k).
    destruct (decide (k = key)) as [->|Hne].
    + rewrite bool_decide_true by done. unfold JsMap.has. by rewrite Hget.
    + by rewrite bool_decide_false.
  - simpl. by rewrite JsMap_length_set, Hh.
Qed.

Lemma well_formed_step c (o : EnhancedLRUCache.op O) :
  well_formed c -> well_formed (step c o).
Proof.
  intros H. destruct o as [key now d|key v ttl' now|key| |entries now|data now|r|now];
    simpl.
  - by apply well_formed_get.
  - by apply well_formed_set.
  - by apply well_formed_remove.
  - repeat split; simpl; try apply NoDup_nil_2; done.
  - unfold preload.
    apply (fold_left_preserves (fun acc => well_formed acc.2)); [|done].
    intros [n c'] [k v] Hc. unfold preload_step.
    destruct (negb _); [by apply well_formed_set|done].
  - unfold import.
    assert (well_formed (fold_left (import_step now) data (0, c)).2) as Hf.
    { apply (fold_left_preserves (fun acc => well_formed acc.2)); [|done].
      intros [n c'] it Hc. unfold import_step.
      destruct (_ <? _); [by apply well_formed_insert|done]. }
    destruct (fold_left _ _ _) as [n c1]. exact Hf.
  - apply optimize_preserves; [|done].
    intros k c' Hc. by apply well_formed_remove.
  - unfold cleanup.
    assert (well_formed (fold_left (cleanup_step now) (cache c) (0, c)).2) as Hf.
    { apply (fold_left_preserves (fun acc => well_formed acc.2)); [|done].
      intros [n c'] [k it] Hc. unfold cleanup_step.
      destruct (_ <=? _); [by apply well_formed_remove|done]. }
    destruct (fold_left _ _ _) as [n c1]. exact Hf.
Qed.

Lemma well_formed_new (maxSize ttl : Z) :
  well_formed (@new O maxSize ttl).
Proof. repeat split; simpl; try apply NoDup_nil_2; done. Qed.

Lemma well_formed_run (ops : list (EnhancedLRUCache.op O)) maxSize ttl :
  well_formed (run ops (new maxSize ttl)).
Proof.
  unfold run. apply fold_left_preserves;
    [apply well_formed_step|apply well_formed_new].
Qed.
End WellFormed.

(** ** Expiry *)

Section Expiry.
Context {O : Type}.
Import EnhancedLRUCache StoreSpec.
Implicit Types (c : EnhancedLRUCache.t O).

Lemma set_stores_item key (v : jsvalue O) customTTL now c :
  JsMap.get key (cache (set key v customTTL now c))
  = Some (mkItem v (now + effective_ttl customTTL c) now now).
Proof. unfold set. simpl. apply JsMap_get_set_eq. Qed.

(** X1. An entry written with [set] lives for its TTL. A [get] or [has]
    before [now + ttl] finds it: [get] returns the value, counts a hit
    and leaves the entries as they are. From [now + ttl] on it is gone:
    [has] is false, and [get] returns [null], counts a miss and removes
    the key from both maps. *)
Theorem entry_lives_for_its_ttl (key : jsstring) (v : jsvalue O)
  (customTTL : option Z) (now now' : Z) (accessTime : Q) c :
  let lifetime := effective_ttl customTTL c in
  let c1 := set key v customTTL now c in
  let c2 := (get key now' accessTime c1).2 in
  (now' < now + lifetime ->
   (get key now' accessTime c1).1 = v
   /\ has key now' c1 = true
   /\ hits (stats c2) = hits (stats c1) + 1
   /\ misses (stats c2) = misses (stats c1)
   /\ cache c2 = cache c1)
  /\ (now + lifetime <= now' ->
      (get key now' accessTime c1).1 = JNull
      /\ has key now' c1 = false
      /\ misses (stats c2) = misses (stats c1) + 1
      /\ hits (stats c2) = hits (stats c1)
      /\ JsMap.has key (cache c2) = false
      /\ JsMap.has key (accessOrder c2) = false).
Proof.
  intros lifetime c1 c2. subst c2.
  pose proof (set_stores_item key v customTTL now c) as Hit.
  fold lifetime c1 in Hit. clearbody c1 lifetime.
  unfold has, get, isValid. rewrite Hit. simpl.
  split; intros Ht.
  - destruct (now' <? now + lifetime) eqn:Hv; [|apply Z.ltb_ge in Hv; lia].
    simpl. done.
  - destruct (now' <? now + lifetime) eqn:Hv; [apply Z.ltb_lt in Hv; lia|].
    simpl. rewrite !JsMap_has_delete, bool_decide_true by done. done.
Qed.

End Expiry.

Lemma entry_lives_for_its_ttl_witness :
  let c1 := EnhancedLRUCache.set (js "k") (@JNum unit 7) (Some 50) 100 (EnhancedLRUCache.new 2 1000) in
  (EnhancedLRUCache.get (js "k") 149 0%Q c1).1 = JNum 7
  /\ (EnhancedLRUCache.get (js "k") 150 0%Q c1).1 = JNull
  /\ JsMap.has (js "k") (EnhancedLRUCache.cache (EnhancedLRUCache.get (js "k") 150 0%Q c1).2) = false.
Proof.
  intros c1.
  destruct (entry_lives_for_its_ttl (js "k") (@JNum unit 7) (Some 50) 100 149
              0%Q (EnhancedLRUCache.new 2 1000)) as [Hbefore _].
  destruct (entry_lives_for_its_ttl (js "k") (@JNum unit 7) (Some 50) 100 150
              0%Q (EnhancedLRUCache.new 2 1000)) as [_ Hafter].
  destruct Hbefore as (Hv & _); [vm_compute; reflexivity|].
  destruct Hafter as (Hn & _ & _ & _ & Hgone & _); [vm_compute; discriminate|].
  split; [exact Hv|]. split; [exact Hn|exact Hgone].
Defined.

(** ** Eviction *)

Section Eviction.
Context {O : Type}.
Import EnhancedLRUCache StoreSpec.
Implicit Types (c : EnhancedLRUCache.t O) (ao : list (jsstring * Z)).

Lemma oldest_fold ao pre k t mid :
  Forall (fun x => t < x.2) pre -> Forall (fun x => t <= x.2) mid ->
  exists k' t' pre' post',
    pre ++ (k, t) :: mid ++ ao = pre' ++ (k', t') :: post'
    /\ fold_left oldest_step ao (Some k, Some t) = (Some k', Some t')
    /\ Forall (fun x => t' < x.2) pre'
    /\ Forall (fun x => t' <= x.2) post'.
Proof.
  revert pre k t mid. induction ao as [|[k1 t1] ao IH]; intros pre k t mid Hpre Hmid.
  - exists k, t, pre, mid. rewrite app_nil_r. done.
  - simpl. destruct (t1 <? t) eqn:Hlt.
    + apply Z.ltb_lt in Hlt.
      destruct (IH (pre ++ (k, t) :: mid) k1 t1 []) as (k' & t' & pre' & post' & He & Hf & H1 & H2).
      * apply Forall_app. split; [|apply Forall_cons; split].
        -- eapply Forall_impl; [exact Hpre|]. simpl. intros; lia.
        -- simpl. lia.
        -- eapply Forall_impl; [exact Hmid|]. simpl. intros; lia.
      * constructor.
      * exists k', t', pre', post'. split; [|done].
        rewrite <- He. simpl. rewrite <- !app_assoc. simpl. done.
    + apply Z.ltb_ge in Hlt.
      destruct (IH pre k t (mid ++ [(k1, t1)])) as (k' & t' & pre' & post' & He & Hf & H1 & H2).
      * done.
      * apply Forall_app. split; [done|]. apply Forall_cons. split; [done|constructor].
      * exists k', t', pre', post'. split; [|done].
        rewrite <- He. rewrite <- !app_assoc. simpl. done.
Qed.

(** The key the eviction loop settles on: the first entry of
    [accessOrder] that carries the least access time. *)
Lemma oldest_is_first_least ao :
  ao <> [] ->
  exists k t pre post,
    ao = pre ++ (k, t) :: post
    /\ oldest ao = (Some k, Some t)
    /\ Forall (fun x => t < x.2) pre
    /\ Forall (fun x => t <= x.2) post.
Proof.
  destruct ao as [|[k t] ao]; [done|]. intros _.
  destruct (oldest_fold ao [] k t []) as (k' & t' & pre' & post' & He & Hf & H1 & H2);
    [constructor|constructor|].
  exists k', t', pre', post'. done.
Qed.

(** What [evictLRU] does with the key the loop settles on. *)
Lemma evictLRU_spec c :
  accessOrder c <> [] ->
  exists k t pre post,
    accessOrder c = pre ++ (k, t) :: post
    /\ Forall (fun x => t < x.2) pre
    /\ Forall (fun x => t <= x.2) post
    /\ (k <> [] ->
        cache (evictLRU c) = JsMap.delete k (cache c)
        /\ accessOrder (evictLRU c) = JsMap.delete k (accessOrder c)
        /\ evictions (stats (evictLRU c)) = evictions (stats c) + 1)
    /\ (k = [] -> evictLRU c = c).
Proof.
  intros Hne.
  destruct (oldest_is_first_least (accessOrder c) Hne)
    as (k & t & pre & post & He & Ho & H1 & H2).
  exists k, t, pre, post. split; [done|]. split; [done|]. split; [done|].
  unfold evictLRU. destruct (accessOrder c) eqn:Hao; [done|].
  rewrite Ho. simpl. split.
  - intros Hk. destruct k; [done|]. simpl. done.
  - intros ->. done.
Qed.

(** X2. [evictLRU] on a store that tracks some key removes, from both
    maps, the first key of [accessOrder] among those with the least
    access time, and counts one eviction; when that key is the empty
    string it removes nothing. *)
Theorem evictLRU_removes_first_least_recent c :
  accessOrder c <> [] ->
  exists k t pre post,
    accessOrder c = pre ++ (k, t) :: post
    /\ Forall (fun x => t < x.2) pre
    /\ Forall (fun x => t <= x.2) post
    /\ (k <> [] ->
        cache (evictLRU c) = JsMap.delete k (cache c)
        /\ accessOrder (evictLRU c) = JsMap.delete k (accessOrder c)
        /\ evictions (stats (evictLRU c)) = evictions (stats c) + 1)
    /\ (k = [] -> evictLRU c = c).
Proof. apply evictLRU_spec. Qed.

End Eviction.

Lemma evictLRU_removes_first_least_recent_witness :
  let c := EnhancedLRUCache.run [EnhancedLRUCache.OpSet (js "a") (@JNum unit 1) None 5;
                EnhancedLRUCache.OpSet (js "b") (JNum 2) None 3;
                EnhancedLRUCache.OpSet (js "c") (JNum 3) None 3] (EnhancedLRUCache.new 5 1000) in
  JsMap.keys (EnhancedLRUCache.cache (EnhancedLRUCache.evictLRU c)) = [js "a"; js "c"].
Proof.
  intros c.
  destruct (evictLRU_removes_first_least_recent c ltac:(vm_compute; discriminate))
    as (k & t & pre & post & He & H1 & H2 & Hk & _).
  assert (k = js "b") as ->.
  { vm_compute in He.
    destruct pre as [|x pre]; [injection He as <- <- <-; inversion H2 as [|? ? Hb _]; simpl in Hb; lia|].
    destruct pre as [|y pre]; [injection He as <- <- <- <-; reflexivity|].
    destruct pre as [|z pre]; [injection He as <- <- <- <- <-;
      inversion H1 as [|? ? _ Hy]; inversion Hy as [|? ? Hb _]; simpl in Hb; lia|].
    repeat (destruct pre; try discriminate He). }
  destruct Hk as (Hc & _); [vm_compute; discriminate|].
  rewrite Hc. vm_compute. reflexivity.
Defined.

(** ** Capacity *)

Section Capacity.
Context {O : Type}.
Import EnhancedLRUCache StoreSpec.
Implicit Types (c : EnhancedLRUCache.t O).

Lemma nonempty_keys_delete {V : Type} (m : list (jsstring * V)) k :
  Forall (fun k => k <> []) (JsMap.keys m) ->
  Forall (fun k => k <> []) (JsMap.keys (JsMap.delete k m)).
Proof.
  intros H. rewrite JsMap_keys_delete. apply Forall_forall.
  intros k' Hin. apply list_elem_of_In, filter_In in Hin as [Hin _].
  rewrite Forall_forall in H. apply H, list_elem_of_In, Hin.
Qed.

Lemma nonempty_keys_set {V : Type} (m : list (jsstring * V)) k (v : V) :
  k <> [] ->
  Forall (fun k => k <> []) (JsMap.keys m) ->
  Forall (fun k => k <> []) (JsMap.keys (JsMap.set k v m)).
Proof.
  intros Hk H. rewrite JsMap_keys_set. destruct (JsMap.has k m); [done|].
  apply Forall_app. split; [done|]. by apply Forall_cons.
Qed.

Lemma within_capacity_remove key c st :
  within_capacity c ->
  within_capacity (mk (maxSize c) (ttl c) (JsMap.delete key (cache c))
                      (JsMap.delete key (accessOrder c)) st).
Proof.
  intros (Hw & Hm & Hs & Hk). split; [by apply well_formed_remove|].
  split; [done|]. split; simpl.
  - unfold JsMap.size in *. pose proof (JsMap_length_delete_le (cache c) key). lia.
  - by apply nonempty_keys_delete.
Qed.

Lemma within_capacity_set key v customTTL now c :
  key <> [] -> within_capacity c ->
  within_capacity (set key v customTTL now c).
Proof.
  intros Hkey (Hw & Hm & Hs & Hk).
  split; [by apply well_formed_set|].
  unfold set.
  destruct (_ && _) eqn:Hcond.
  - (* the store is full and the key is new *)
    apply andb_true_iff in Hcond as [Hfull Hnew].
    apply Z.leb_le in Hfull. apply negb_true_iff in Hnew.
    destruct Hw as (Hc & Ha & Hag & Hl).
    assert (accessOrder c <> []) as Hne.
    { intros He. rewrite He in Hl. unfold JsMap.size in *. simpl in Hl. lia. }
    destruct (evictLRU_spec c Hne)
      as (k & t & pre & post & He & _ & _ & Hev & _).
    assert (k ∈ JsMap.keys (accessOrder c)) as Hin.
    { rewrite He. unfold JsMap.keys. rewrite map_app. simpl.
      apply elem_of_app. right. apply elem_of_cons. by left. }
    assert (k <> []) as Hknz by (rewrite Forall_forall in Hk; by apply Hk).
    destruct (Hev Hknz) as (Hc' & Ha' & _).
    assert (maxSize (evictLRU c) = maxSize c) as Hmx.
    { unfold evictLRU. destruct (accessOrder c); [done|].
      destruct (oldest _).1; [|done]. destruct (Str.truthy _); done. }
    set (c1 := evictLRU c) in *. clearbody c1. simpl. rewrite Hmx.
    split; [done|]. split.
    + rewrite Hc'. unfold JsMap.size in *. rewrite JsMap_length_set.
      rewrite JsMap_has_delete, Hnew, andb_false_r.
      assert (JsMap.has k (cache c) = true) as Hh.
      { rewrite (Hag k). by apply JsMap_has_keys. }
      etransitivity; [|exact Hs]. apply Z.eq_le_incl. f_equal.
      exact (JsMap_length_delete _ _ Hc Hh).
    + rewrite Ha'. by apply nonempty_keys_set, nonempty_keys_delete.
  - split; [done|]. split; simpl.
    + unfold JsMap.size in *. rewrite JsMap_length_set.
      apply andb_false_iff in Hcond as [Hroom|Hold].
      * apply Z.leb_gt in Hroom.
        destruct (JsMap.has _ _); [exact Hs|].
        rewrite Nat2Z.inj_succ. apply Z.le_succ_l. exact Hroom.
      * apply negb_false_iff in Hold. rewrite Hold. done.
    + by apply nonempty_keys_set.
Qed.

Lemma within_capacity_get key now accessTime c :
  within_capacity c -> within_capacity (get key now accessTime c).2.
Proof.
  intros H. pose proof (well_formed_get key now accessTime c (proj1 H)) as Hw.
  unfold get in *.
  destruct (JsMap.get key (cache c)) as [it|] eqn:Hget; [|exact H].
  destruct (isValid now it); simpl in *; [|by apply within_capacity_remove].
  destruct H as (Hw0 & Hm & Hs & Hk). split; [done|]. split; [done|].
  split; [done|]. simpl.
  rewrite JsMap_keys_set.
  destruct Hw0 as (_ & _ & Hag & _).
  assert (JsMap.has key (accessOrder c) = true) as ->; [|done].
  rewrite <- Hag. unfold JsMap.has. by rewrite Hget.
Qed.

Lemma within_capacity_step c (o : EnhancedLRUCache.op O) :
  evicting o -> within_capacity c -> within_capacity (step c o).
Proof.
  intros Ho H.
  destruct o as [key now d|key v ttl' now|key| |entries now|data now|r|now];
    simpl in *.
  - by apply within_capacity_get.
  - by apply within_capacity_set.
  - by apply within_capacity_remove.
  - destruct H as (Hw & Hm & Hs & Hk).
    split; [exact (well_formed_step c OpClear Hw)|].
    split; [done|]. split; simpl; [unfold JsMap.size; simpl; lia|constructor].
  - unfold preload. generalize 0. revert c H.
    induction Ho as [|[k v] entries Hk _ IH]; intros c H n; simpl; [done|].
    simpl in Hk. destruct (negb _); apply IH; [by apply within_capacity_set|done].
  - done.
  - apply optimize_preserves; [|done].
    intros k c' Hc. by apply within_capacity_remove.
  - unfold cleanup.
    assert (within_capacity (fold_left (cleanup_step now) (cache c) (0, c)).2)
      as Hf.
    { apply (fold_left_preserves (fun acc => within_capacity acc.2)); [|done].
      intros [n c'] [k it] Hc. unfold cleanup_step.
      destruct (_ <=? _); [by apply within_capacity_remove|done]. }
    destruct (fold_left _ _ _) as [n c1]. exact Hf.
Qed.

(** X3. A store of capacity at least 1 never holds more than [maxSize]
    entries, whatever sequence of [get], [set], [delete], [clear],
    [preload], [optimize] and [cleanup] calls is made on it, provided
    no key written is the empty string. *)
Theorem store_stays_within_capacity (maxSize ttl : Z)
  (ops : list (EnhancedLRUCache.op O)) :
  1 <= maxSize -> Forall evicting ops ->
  JsMap.size (cache (run ops (new maxSize ttl))) <= maxSize.
Proof.
  intros Hm Hops.
  assert (within_capacity (run ops (new maxSize ttl))
          /\ EnhancedLRUCache.maxSize (run ops (new maxSize ttl)) = maxSize)
    as [(_ & _ & Hs & _) Hmx].
  { assert (within_capacity (@new O maxSize ttl)) as H0.
    { split; [apply well_formed_new|]. simpl. unfold JsMap.size. simpl.
      repeat split; try lia. constructor. }
    assert (EnhancedLRUCache.maxSize (@new O maxSize ttl) = maxSize) as Hx by done.
    revert H0 Hx. unfold run. generalize (@new O maxSize ttl).
    induction Hops as [|o ops Ho _ IH]; intros c H0 Hx; [done|].
    simpl. apply IH; [by apply within_capacity_step|].
    rewrite <- Hx. clear.
    destruct o as [key now d|key v ttl' now|key| |entries now|data now|r|now];
      simpl; try done.
    - unfold get. destruct (JsMap.get _ _) as [it|]; [|done].
      destruct (isValid _ _); done.
    - unfold set. simpl. destruct (_ && _); [|done].
      unfold evictLRU. destruct (accessOrder c); [done|].
      destruct (oldest _).1; [|done]. destruct (Str.truthy _); done.
    - unfold preload.
      apply (fold_left_preserves (fun acc => EnhancedLRUCache.maxSize acc.2 = EnhancedLRUCache.maxSize c)); [|done].
      intros [n c'] [k v] Hc. unfold preload_step. destruct (negb _); [|done].
      simpl in *. rewrite <- Hc. unfold set. simpl. destruct (_ && _); [|done].
      unfold evictLRU. destruct (accessOrder c'); [done|].
      destruct (oldest _).1; [|done]. destruct (Str.truthy _); done.
    - unfold import.
      assert (EnhancedLRUCache.maxSize (fold_left (import_step now) data (0, c)).2
              = EnhancedLRUCache.maxSize c) as Hf.
      { apply (fold_left_preserves (fun acc => EnhancedLRUCache.maxSize acc.2 = EnhancedLRUCache.maxSize c)); [|done].
        intros [n c'] it Hc. unfold import_step. destruct (_ <? _); done. }
      destruct (fold_left _ _ _) as [n c1]. exact Hf.
    - apply (optimize_preserves
               (fun c' => EnhancedLRUCache.maxSize c'
                          = EnhancedLRUCache.maxSize c)); done.
    - unfold cleanup.
      assert (EnhancedLRUCache.maxSize (fold_left (cleanup_step now) (cache c) (0, c)).2
              = EnhancedLRUCache.maxSize c) as Hf.
      { apply (fold_left_preserves (fun acc => EnhancedLRUCache.maxSize acc.2 = EnhancedLRUCache.maxSize c)); [|done].
        intros [n c'] [k it] Hc. unfold cleanup_step. destruct (_ <=? _); done. }
      destruct (fold_left _ _ _) as [n c1]. exact Hf. }
  rewrite Hmx in Hs. exact Hs.
Qed.
End Capacity.

Lemma store_stays_within_capacity_witness :
  let ops := [EnhancedLRUCache.OpSet (js "a") (@JNum unit 1) None 0;
              EnhancedLRUCache.OpSet (js "b") (JNum 2) None 1;
              EnhancedLRUCache.OpGet (js "a") 2 0%Q;
              EnhancedLRUCache.OpSet (js "c") (JNum 3) None 3] in
  1 <= 2 /\ Forall StoreSpec.evicting ops
  /\ JsMap.size (EnhancedLRUCache.cache
                   (EnhancedLRUCache.run ops (EnhancedLRUCache.new 2 1000)))
     <= 2.
Proof.
  intros ops.
  assert (Forall StoreSpec.evicting ops) as H
    by (repeat constructor; vm_compute; discriminate).
  split; [lia|]. split; [exact H|].
  apply store_stays_within_capacity; [lia|exact H].
Defined.

(** ** The sweep, backup and restore *)

Section Sweep.
Context {O : Type}.
Import EnhancedLRUCache StoreSpec.
Implicit Types (c : EnhancedLRUCache.t O).

Lemma JsMap_set_fresh {V : Type} (m : list (jsstring * V)) k (v : V) :
  JsMap.has k m = false -> JsMap.set k v m = m ++ [(k, v)].
Proof.
  unfold JsMap.has. induction m as [|[k' v'] m IH]; simpl; [done|].
  destruct (decide (k = k')); [done|]. intros H. by rewrite IH.
Qed.

Lemma JsMap_delete_app_absent {V : Type} (p s : list (jsstring * V)) k :
  (k ∉ JsMap.keys p) -> JsMap.delete k (p ++ s) = p ++ JsMap.delete k s.
Proof.
  induction p as [|[k' v'] p IH]; simpl; [done|]. intros Hk.
  apply not_elem_of_cons in Hk as [Hne Hk].
  destruct (decide (k = k')); [done|]. by rewrite IH.
Qed.

Lemma JsMap_delete_middle {V : Type} (p s : list (jsstring * V)) k (v : V) :
  NoDup (JsMap.keys (p ++ (k, v) :: s)) ->
  JsMap.delete k (p ++ (k, v) :: s) = p ++ s.
Proof.
  unfold JsMap.keys. rewrite map_app. simpl. intros Hn.
  apply NoDup_app in Hn as (_ & Hps & Hs).
  apply NoDup_cons in Hs as [Hks _].
  rewrite JsMap_delete_app_absent.
  - simpl. rewrite decide_True by done. f_equal.
    apply JsMap_delete_absent. by apply JsMap_has_false.
  - intros Hin. apply (Hps k Hin). by left.
Qed.

Lemma cleanup_loop now (s : list (jsstring * Item O)) :
  forall p n c,
    NoDup (JsMap.keys (p ++ s)) -> cache c = p ++ s ->
    let r := fold_left (cleanup_step now) s (n, c) in
    cache r.2 = p ++ List.filter (valid_entry now) s
    /\ r.1 = n + Z.of_nat (List.length s)
             - Z.of_nat (List.length (List.filter (valid_entry now) s)).
Proof.
  induction s as [|[k it] s IH]; intros p n c Hn Hc; simpl.
  - split; [done|lia].
  - assert (valid_entry now (k, it) = negb (expiry it <=? now)) as ->.
    { unfold valid_entry, isValid. simpl.
      destruct (Z.leb_spec (expiry it) now), (Z.ltb_spec now (expiry it));
        (done || lia). }
    destruct (expiry it <=? now) eqn:He; simpl.
    +       destruct (IH p (n + 1)
                  (mk (maxSize c) (ttl c) (JsMap.delete k (cache c))
                      (JsMap.delete k (accessOrder c)) (stats c)))
        as [IH1 IH2].
      * revert Hn. unfold JsMap.keys. rewrite !map_app. simpl.
        intros Hn. apply NoDup_app in Hn as (Hp & Hps & Hs).
        apply NoDup_cons in Hs as [_ Hs]. apply NoDup_app.
        split; [done|]. split; [|done].
        intros x Hx Hx'. apply (Hps x Hx). by right.
      * simpl. rewrite Hc. by apply JsMap_delete_middle.
      * split; [exact IH1|]. rewrite IH2. lia.
    +       destruct (IH (p ++ [(k, it)]) n c) as [IH1 IH2].
      * by rewrite <- app_assoc.
      * by rewrite <- app_assoc.
      * rewrite <- app_assoc in IH1. split; [exact IH1|].
        rewrite IH2. simpl. lia.
Qed.

(** X4. The sweep keeps exactly the entries that have not expired at
    the time it runs, in their order, reports how many it dropped, and
    brings the reported size up to date. *)
Theorem cleanup_keeps_the_unexpired now c :
  NoDup (JsMap.keys (cache c)) ->
  cache (cleanup now c).2 = List.filter (valid_entry now) (cache c)
  /\ (cleanup now c).1
     = JsMap.size (cache c) - JsMap.size (cache (cleanup now c).2)
  /\ size (stats (cleanup now c).2) = JsMap.size (cache (cleanup now c).2).
Proof.
  intros Hn. unfold cleanup.
  pose proof (cleanup_loop now (cache c) [] 0 c Hn eq_refl) as [H1 H2].
  destruct (fold_left _ _ _) as [n c1]. simpl in *.
  split; [exact H1|]. split; [|done].
  rewrite H2, H1. unfold JsMap.size. lia.
Qed.
End Sweep.

Lemma cleanup_keeps_the_unexpired_witness :
  let c := EnhancedLRUCache.set (js "b") (@JNum unit 2) (Some 50) 0
             (EnhancedLRUCache.set (js "a") (JNum 1) (Some 10) 0
                (EnhancedLRUCache.new 5 100)) in
  NoDup (JsMap.keys (EnhancedLRUCache.cache c))
  /\ JsMap.keys (EnhancedLRUCache.cache (EnhancedLRUCache.cleanup 20 c).2)
     = [js "b"]
  /\ (EnhancedLRUCache.cleanup 20 c).1 = 1.
Proof.
  intros c.
  assert (NoDup (JsMap.keys (EnhancedLRUCache.cache c))) as Hn.
  { vm_compute. apply NoDup_cons. split; [|apply NoDup_singleton].
    intros Hin. apply list_elem_of_singleton in Hin. discriminate. }
  split; [exact Hn|].
  destruct (cleanup_keeps_the_unexpired 20 c Hn) as (H1 & H2 & _).
  split; [rewrite H1; reflexivity|rewrite H2, H1; reflexivity].
Defined.

Section Backup.
Context {O : Type}.
Import EnhancedLRUCache StoreSpec.
Implicit Types (c : EnhancedLRUCache.t O).

Lemma import_of_export_loop now now' (l : list (jsstring * Item O)) :
  now <= now' ->
  forall n c0,
    NoDup (JsMap.keys (cache c0) ++ JsMap.keys l) ->
    JsMap.keys (accessOrder c0) = JsMap.keys (cache c0) ->
    let data :=
      omap (fun '(key, item) =>
              if isValid now item
              then Some (mkExported key (value item) (expiry item)
                                    (created item))
              else None) l in
    let kept := List.filter (valid_entry now') l in
    let r := fold_left (import_step now') data (n, c0) in
    cache r.2 = cache c0 ++ List.map (reimported now') kept
    /\ accessOrder r.2
       = accessOrder c0 ++ List.map (fun e => (e.1, now')) kept
    /\ r.1 = n + Z.of_nat (List.length kept).
Proof.
  intros Hle. induction l as [|[k it] l IH]; intros n c0 Hn Hk; simpl.
  - rewrite !app_nil_r. split; [done|]. split; [done|lia].
  - assert (NoDup (JsMap.keys (cache c0) ++ JsMap.keys l)) as Hn'.
    { apply NoDup_app in Hn as (H1 & H2 & H3).
      apply NoDup_cons in H3 as [_ H3]. apply NoDup_app.
      split; [done|]. split; [|done].
      intros x Hx Hx'. apply (H2 x Hx). by right. }
    assert (valid_entry now' (k, it) = (now' <? expiry it)) as -> by done.
    unfold isValid.
    destruct (now <? expiry it) eqn:Hv; simpl.
    + destruct (now' <? expiry it) eqn:Hv'; simpl.
      * assert (k ∉ JsMap.keys (cache c0)) as Hfresh.
        { apply NoDup_app in Hn as (_ & H2 & _).
          intros Hin. apply (H2 k Hin). by left. }
        rewrite !JsMap_set_fresh
          by (apply JsMap_has_false; first [done|by rewrite Hk]).
        destruct (IH (n + 1)
                    (mk (maxSize c0) (ttl c0)
                        (cache c0 ++ [(k, mkItem (value it) (expiry it)
                                                 (created it) now')])
                        (accessOrder c0 ++ [(k, now')]) (stats c0)))
          as (IH1 & IH2 & IH3).
        -- simpl. unfold JsMap.keys at 1. rewrite map_app. simpl.
           rewrite <- app_assoc. exact Hn.
        -- simpl. unfold JsMap.keys in *. rewrite !map_app, Hk. done.
        -- simpl in IH1, IH2. rewrite <- app_assoc in IH1, IH2.
           split; [exact IH1|]. split; [exact IH2|].
           etransitivity; [exact IH3|]. simpl. lia.
      * by apply IH.
    + assert ((now' <? expiry it) = false) as ->.
      { apply Z.ltb_ge. apply Z.ltb_ge in Hv. lia. }
      by apply IH.
Qed.

(** X5. Restoring a backup into a fresh store, no earlier than the
    backup was taken, brings back exactly the entries that are still
    unexpired at the time of the restore, in their order, each with its
    value, expiry and creation time, and with the time of the restore
    as its access time; the count returned is their number. *)
Theorem import_restores_the_unexpired now now' c (maxSize' ttl' : Z) :
  NoDup (JsMap.keys (cache c)) -> now <= now' ->
  let r := import (export now c) now' (new maxSize' ttl') in
  let kept := List.filter (valid_entry now') (cache c) in
  cache r.2 = List.map (reimported now') kept
  /\ accessOrder r.2 = List.map (fun e => (e.1, now')) kept
  /\ r.1 = Z.of_nat (List.length kept)
  /\ size (stats r.2) = Z.of_nat (List.length kept).
Proof.
  intros Hn Hle. unfold import, export.
  pose proof (import_of_export_loop now now' (cache c) Hle 0
                (new maxSize' ttl') Hn eq_refl) as (H1 & H2 & H3).
  destruct (fold_left _ _ _) as [n c1]. simpl in *.
  split; [exact H1|]. split; [exact H2|]. split; [lia|].
  unfold JsMap.size. rewrite H1, length_map. done.
Qed.
End Backup.

Lemma import_restores_the_unexpired_witness :
  let c := EnhancedLRUCache.set (js "b") (@JNum unit 2) (Some 50) 0
             (EnhancedLRUCache.set (js "a") (JNum 1) (Some 10) 0
                (EnhancedLRUCache.new 5 100)) in
  NoDup (JsMap.keys (EnhancedLRUCache.cache c)) /\ 5 <= 20
  /\ JsMap.keys (EnhancedLRUCache.cache
       (EnhancedLRUCache.import (EnhancedLRUCache.export 5 c) 20
          (EnhancedLRUCache.new 1 100)).2) = [js "b"].
Proof.
  intros c.
  assert (NoDup (JsMap.keys (EnhancedLRUCache.cache c))) as Hn.
  { vm_compute. apply NoDup_cons. split; [|apply NoDup_singleton].
    intros Hin. apply list_elem_of_singleton in Hin. discriminate. }
  split; [exact Hn|]. split; [lia|].
  destruct (import_restores_the_unexpired 5 20 c 1 100 Hn) as (H1 & _);
    [lia|].
  rewrite H1. reflexivity.
Defined.

(** ** [optimize] *)

Section Optimize.
Context {O : Type}.
Import EnhancedLRUCache StoreSpec.
Implicit Types (c : EnhancedLRUCache.t O).

Lemma insert_by_time_perm x l : insert_by_time x l ≡ₚ x :: l.
Proof.
  induction l as [|y l IH]; simpl; [done|].
  destruct (x.2 <? y.2); [done|]. rewrite IH. apply Permutation_swap.
Qed.

Lemma sort_by_time_perm l : sort_by_time l ≡ₚ l.
Proof.
  unfold sort_by_time.
  assert (forall acc, fold_left (fun acc x => insert_by_time x acc) l acc
                      ≡ₚ l ++ acc) as H.
  { induction l as [|x l IH]; intros acc; simpl; [done|].
    rewrite IH, insert_by_time_perm. symmetry. apply Permutation_middle. }
  rewrite H. by rewrite app_nil_r.
Qed.

Lemma insert_by_time_sorted x l :
  oldest_first l -> oldest_first (insert_by_time x l).
Proof.
  induction l as [|y l IH]; simpl; intros Hs.
  - split; [constructor|done].
  - destruct Hs as [Hy Hs].
    destruct (x.2 <? y.2) eqn:Hlt.
    + apply Z.ltb_lt in Hlt. split; [|done].
      constructor; [lia|]. eapply Forall_impl; [exact Hy|].
      simpl. intros z Hz. lia.
    + apply Z.ltb_ge in Hlt. split; [|by apply IH].
      rewrite insert_by_time_perm. by constructor.
Qed.

Lemma sort_by_time_sorted l : oldest_first (sort_by_time l).
Proof.
  unfold sort_by_time. apply (fold_left_preserves oldest_first); [|done].
  intros acc x Hacc. by apply insert_by_time_sorted.
Qed.

Lemma sorted_app_le (l1 l2 : list (jsstring * Z)) :
  oldest_first (l1 ++ l2) ->
  forall x y, x ∈ l1 -> y ∈ l2 -> x.2 <= y.2.
Proof.
  induction l1 as [|z l1 IH]; simpl; intros Hs x y Hx Hy.
  - inversion Hx.
  - destruct Hs as [Hz Hs].
    apply elem_of_cons in Hx as [->|Hx]; [|by apply IH].
    rewrite Forall_forall in Hz. apply Hz, elem_of_app. by right.
Qed.

(** The loop of [optimize] over the entries [es] it removes. *)
Lemma optimize_loop (es : list (jsstring * Z)) :
  forall n c,
    NoDup (JsMap.keys es) -> NoDup (JsMap.keys (cache c)) ->
    (forall k, k ∈ JsMap.keys es -> JsMap.has k (cache c) = true) ->
    let r := fold_left (fun '(removed, c') '(key, _) =>
                          (removed + 1, (delete key c').2)) es (n, c) in
    r.1 = n + Z.of_nat (List.length es)
    /\ (List.length (cache r.2) + List.length es)%nat = List.length (cache c)
    /\ (forall k, JsMap.has k (cache r.2) = true
                  <-> JsMap.has k (cache c) = true /\ (k ∉ JsMap.keys es))
    /\ (es <> [] -> size (stats r.2) = JsMap.size (cache r.2)).
Proof.
  induction es as [|[k t] es IH]; intros n c Hes Hc Hin; simpl.
  - split; [lia|]. split; [lia|]. split; [|done].
    intros k. split; [|by intros [? _]]. intros H. split; [done|].
    intros H'. inversion H'.
  - simpl in Hes. apply NoDup_cons in Hes as [Hk Hes].
    destruct (IH (n + 1) (delete k c).2 Hes) as (IH1 & IH2 & IH3 & IH4).
    + simpl. by apply JsMap_NoDup_delete.
    + intros k' Hk'. simpl. rewrite JsMap_has_delete.
      rewrite (Hin k') by (by right). rewrite andb_true_r.
      apply negb_true_iff, bool_decide_eq_false. intros ->. done.
    + simpl in IH2, IH3.
      split; [etransitivity; [exact IH1|lia]|].
      split.
      { pose proof (JsMap_length_delete (cache c) k Hc
                      (Hin k ltac:(by left))) as Hl.
        etransitivity; [|exact Hl]. rewrite <- IH2. lia. }
      split.
      { intros k'. rewrite IH3, JsMap_has_delete, andb_true_iff,
          negb_true_iff, bool_decide_eq_false, not_elem_of_cons.
        tauto. }
      intros _. destruct es as [|e es'].
      * simpl. done.
      * apply IH4. done.
Qed.

(** Removing the [n] oldest of the sorted entries, as the loop of
    [optimize] does. *)
Lemma remove_oldest (n : nat) c :
  well_formed c ->
  let r := remove_entries (take n (sort_by_time (accessOrder c))) c in
  (List.length (cache r.2) + Nat.min n (List.length (cache c)))%nat
  = List.length (cache c)
  /\ r.1 = Z.of_nat (Nat.min n (List.length (cache c)))
  /\ (forall k t k' t',
        In (k, t) (accessOrder c) -> In (k', t') (accessOrder c) ->
        JsMap.has k (cache r.2) = false ->
        JsMap.has k' (cache r.2) = true ->
        t <= t').
Proof.
  intros (Hc & Ha & Hag & Hl) r. subst r. unfold remove_entries.
  set (sorted := sort_by_time (accessOrder c)).
  pose proof (sort_by_time_perm (accessOrder c)) as Hperm. fold sorted in Hperm.
  pose proof (sort_by_time_sorted (accessOrder c)) as Hsorted.
  fold sorted in Hsorted.
  assert (NoDup (JsMap.keys sorted)) as Hns.
  { unfold JsMap.keys. by rewrite Hperm. }
  assert (sorted = take n sorted ++ drop n sorted) as Hsplit
    by (by rewrite take_drop).
  assert (NoDup (JsMap.keys (take n sorted))) as Hnt.
  { rewrite Hsplit in Hns. unfold JsMap.keys in *. rewrite map_app in Hns.
    by apply NoDup_app in Hns as (? & _ & _). }
  destruct (optimize_loop (take n sorted) 0 c Hnt Hc) as (H1 & H2 & H3 & H4).
  { intros k Hk. rewrite (Hag k). apply JsMap_has_keys.
    unfold JsMap.keys in *. rewrite <- Hperm.
    rewrite Hsplit, map_app. apply elem_of_app. by left. }
  assert (List.length sorted = List.length (cache c)) as Hlen.
  { rewrite Hl. by apply Permutation_length. }
  assert (List.length (take n sorted)
          = Nat.min n (List.length (cache c))) as Htake.
  { rewrite length_take. by rewrite Hlen. }
  split.
  { rewrite <- Htake. exact H2. }
  split.
  { etransitivity; [exact H1|]. rewrite Htake. lia. }
  intros k t k' t' Hk Hk' Hgone Hstay.
  assert (JsMap.has k (cache c) = true) as Hhk.
  { rewrite (Hag k). apply JsMap_has_keys, list_elem_of_In.
    unfold JsMap.keys. apply in_map_iff. by exists (k, t). }
  assert (k ∈ JsMap.keys (take n sorted)) as Hkin.
  { destruct (decide (k ∈ JsMap.keys (take n sorted))) as [|Hno]; [done|].
    exfalso. assert (JsMap.has k
      (cache (fold_left (fun '(removed, c') '(key, _) =>
                (removed + 1, (delete key c').2)) (take n sorted) (0, c)).2)
      = true) as Hx by (by apply H3).
    congruence. }
  apply H3 in Hstay as [_ Hk'out].
  assert ((k, t) ∈ take n sorted) as Hkt.
  { assert ((k, t) ∈ sorted) as Hks
      by (rewrite Hperm; by apply list_elem_of_In).
    rewrite Hsplit in Hks. apply elem_of_app in Hks as [|Hd]; [done|].
    exfalso. rewrite Hsplit in Hns. unfold JsMap.keys in Hns, Hkin.
    rewrite map_app in Hns. apply NoDup_app in Hns as (_ & Hx & _).
    apply (Hx k Hkin). apply list_elem_of_In, in_map_iff.
    exists (k, t). split; [done|]. by apply list_elem_of_In. }
  assert ((k', t') ∈ drop n sorted) as Hkt'.
  { assert ((k', t') ∈ sorted) as Hks
      by (rewrite Hperm; by apply list_elem_of_In).
    rewrite Hsplit in Hks. apply elem_of_app in Hks as [Ht|]; [|done].
    exfalso. apply Hk'out. unfold JsMap.keys.
    apply list_elem_of_In, in_map_iff. exists (k', t').
    split; [done|]. by apply list_elem_of_In. }
  rewrite Hsplit in Hsorted.
  exact (sorted_app_le _ _ Hsorted (k, t) (k', t') Hkt Hkt').
Qed.

(** X6. The target size of [optimize] is the floor of the double
    product [maxSize * targetFillRate]. A store that is already at or
    below it is left unchanged and 0 is returned (as with a target of
    [+Infinity] or [NaN]); otherwise the store is brought down to
    exactly the target size (an empty store for a negative target or
    [-Infinity]). In every case the number of entries removed is
    returned, and least recently accessed entries are the ones removed:
    no entry that goes was accessed later than an entry that stays. *)
Theorem optimize_trims_the_least_recent (targetFillRate : Double.t) c :
  well_formed c ->
  let r := optimize targetFillRate c in
  match Double.Math_floor
          (Double.mul (Double.of_Z (maxSize c)) targetFillRate) with
  | Double.Integer targetSize =>
    if JsMap.size (cache c) <=? targetSize then r = (0, c)
    else JsMap.size (cache r.2) = Z.max 0 targetSize
  | Double.PlusInfinity | Double.NotANumber => r = (0, c)
  | Double.MinusInfinity => JsMap.size (cache r.2) = 0
  end
  /\ r.1 = JsMap.size (cache c) - JsMap.size (cache r.2)
  /\ (forall k t k' t',
        In (k, t) (accessOrder c) -> In (k', t') (accessOrder c) ->
        JsMap.has k (cache r.2) = false ->
        JsMap.has k' (cache r.2) = true ->
        t <= t').
Proof.
  intros Hw r.
  assert (r = (0, c) ->
          r.1 = JsMap.size (cache c) - JsMap.size (cache r.2)
          /\ (forall k t k' t',
                In (k, t) (accessOrder c) -> In (k', t') (accessOrder c) ->
                JsMap.has k (cache r.2) = false ->
                JsMap.has k' (cache r.2) = true ->
                t <= t')) as Hsame.
  { intros ->. simpl. split; [lia|].
    destruct Hw as (Hc & Ha & Hag & Hl).
    intros k t k' t' Hk _ Hgone _. exfalso.
    assert (JsMap.has k (cache c) = true) as Hh; [|congruence].
    rewrite (Hag k). apply JsMap_has_keys, list_elem_of_In.
    unfold JsMap.keys. apply in_map_iff. by exists (k, t). }
  assert (forall n : nat,
            r = remove_entries (take n (sort_by_time (accessOrder c))) c ->
            JsMap.size (cache r.2)
            = JsMap.size (cache c)
              - Z.of_nat (Nat.min n (List.length (cache c)))
            /\ r.1 = JsMap.size (cache c) - JsMap.size (cache r.2)
            /\ (forall k t k' t',
                  In (k, t) (accessOrder c) -> In (k', t') (accessOrder c) ->
                  JsMap.has k (cache r.2) = false ->
                  JsMap.has k' (cache r.2) = true ->
                  t <= t')) as Hcut.
  { intros n ->. destruct (remove_oldest n c Hw) as (H1 & H2 & H3).
    split; [unfold JsMap.size; lia|].
    split; [rewrite H2; unfold JsMap.size; lia|exact H3]. }
  subst r. unfold optimize, targetSize in *.
  destruct (Double.Math_floor _) as [targetSize| | |].
  - destruct (JsMap.size (cache c) <=? targetSize) eqn:Hcmp.
    + split; [done|]. by apply Hsame.
    + apply Z.leb_gt in Hcmp.
      destruct (Hcut (Z.to_nat (JsMap.size (cache c) - targetSize)) eq_refl)
        as (H1 & H2 & H3).
      split; [|split; [exact H2|exact H3]].
      rewrite H1. unfold JsMap.size in *. lia.
  - split; [done|]. by apply Hsame.
  - destruct (Hcut (List.length (sort_by_time (accessOrder c))))
      as (H1 & H2 & H3).
    { by rewrite firstn_all. }
    split; [|split; [exact H2|exact H3]].
    rewrite H1. destruct Hw as (Hc & Ha & Hag & Hl).
    rewrite (Permutation_length (sort_by_time_perm (accessOrder c))).
    unfold JsMap.size. lia.
  - split; [done|]. by apply Hsame.
Qed.
End Optimize.

(** [optimize(0.29)] on a store of capacity 100 holding 29 entries: the
    double product [100 * 0.29] is 28.999999999999996, the target size
    is 28, and the oldest entry is removed. *)
Lemma optimize_trims_the_least_recent_witness :
  let c := OptimizeExamples.store_of_29 in
  StoreSpec.well_formed c
  /\ JsMap.size (EnhancedLRUCache.cache c) = 29
  /\ EnhancedLRUCache.targetSize (Double.hundredths 29) c = Double.Integer 28
  /\ JsMap.size (EnhancedLRUCache.cache
                   (EnhancedLRUCache.optimize (Double.hundredths 29) c).2) = 28
  /\ (EnhancedLRUCache.optimize (Double.hundredths 29) c).1 = 1.
Proof.
  intros c.
  assert (StoreSpec.well_formed c) as Hw
    by (subst c; apply well_formed_run).
  assert (EnhancedLRUCache.targetSize (Double.hundredths 29) c
          = Double.Integer 28) as Ht by (vm_compute; reflexivity).
  assert (JsMap.size (EnhancedLRUCache.cache c) = 29) as Hs
    by (vm_compute; reflexivity).
  split; [exact Hw|]. split; [exact Hs|]. split; [exact Ht|].
  destruct (optimize_trims_the_least_recent (Double.hundredths 29) c Hw)
    as (H1 & H2 & _).
  unfold EnhancedLRUCache.targetSize in Ht. rewrite Ht, Hs in H1.
  change (29 <=? 28) with false in H1.
  split; [exact H1|rewrite H2, H1, Hs; reflexivity].
Defined.

(** The product is rounded before it is floored: [3 * (1 / 3)] is the
    double 1, although a third of 3 taken exactly from the double
    [1 / 3] lies below 1; the default rate 0.8 on the default capacity
    gives 800. *)
Lemma target_size_examples :
  EnhancedLRUCache.targetSize (Double.div (Double.of_Z 1) (Double.of_Z 3))
    (EnhancedLRUCache.new (O := unit) 3 1000) = Double.Integer 1
  /\ EnhancedLRUCache.targetSize EnhancedLRUCache.default_targetFillRate
       (EnhancedLRUCache.new_default (O := unit)) = Double.Integer 800.
Proof. split; vm_compute; reflexivity. Qed.

(** ** The four stores *)

Section Tiers.
Context {O : Type}.
Import MultiLevelCache.
Implicit Types (m : MultiLevelCache.t O) (l : level).

Lemma read_write_other l l' (c : EnhancedLRUCache.t O) m :
  l <> l' -> read l' (write l c m) = read l' m.
Proof. destruct l, l'; done. Qed.

(** X7. The four stores are separate: a [set], a [get] or a warm-up
    under one data class leaves the store of every other data class as
    it was, so what is written under one class is not read under
    another. *)
Theorem tiers_are_isolated (type type' : string) (key key' : jsstring)
  (v : jsvalue O) (customTTL : option Z) (now now' : Z) (accessTime : Q)
  (entries : list (jsstring * jsvalue O)) m :
  getCache type <> getCache type' ->
  read (getCache type') (set key v type customTTL now m)
    = read (getCache type') m
  /\ read (getCache type') (get key type now accessTime m).2
    = read (getCache type') m
  /\ (get key' type' now' accessTime (set key v type customTTL now m)).1
     = (get key' type' now' accessTime m).1
  /\ (getCache type' <> FrequentWordsCache ->
      read (getCache type') (warmUp entries now m).2
        = read (getCache type') m).
Proof.
  intros Hne. unfold set, get, warmUp.
  split; [by apply read_write_other|].
  split.
  { destruct (EnhancedLRUCache.get key now accessTime _) as [r c].
    by apply read_write_other. }
  split.
  { rewrite read_write_other by done.
    by destruct (EnhancedLRUCache.get key' now' accessTime _) as [r c]. }
  intros Hf. destruct (EnhancedLRUCache.preload entries now _) as [n c].
  simpl snd. apply (read_write_other FrequentWordsCache). congruence.
Qed.
End Tiers.

Lemma tiers_are_isolated_witness :
  let m := @MultiLevelCache.new unit in
  MultiLevelCache.getCache "analysis" <> MultiLevelCache.getCache "image"
  /\ (MultiLevelCache.get (js "k") "image" 1 0%Q
        (MultiLevelCache.set (js "k") (JNum 7) "analysis" None 0 m)).1
     = JNull.
Proof.
  intros m.
  assert (MultiLevelCache.getCache "analysis"
          <> MultiLevelCache.getCache "image") as Hne
    by (vm_compute; discriminate).
  split; [exact Hne|].
  destruct (tiers_are_isolated "analysis" "image" (js "k") (js "k")
              (@JNum unit 7) None 0 1 0%Q [] m Hne) as (_ & _ & H & _).
  rewrite H. reflexivity.
Defined.

(** ** The cache management routes *)

Section CacheRoutes.
Context {O : Type}.
Import MultiLevelCache.
Implicit Types (m : MultiLevelCache.t O).

(** X8. The cache management routes act on the store [getCache]
    returns for the data class. The warm-up route treats 'frequent'
    apart, but to no effect: for every class it preloads the entries
    into that store and answers with the number [preload] loaded. The
    route that clears one class empties exactly that store and names the
    class in its answer, so a class it does not know empties the
    definition store; 'all' empties the four stores. Clearing keeps the
    hit and miss counters of every store. *)
Theorem cache_routes_act_on_the_class_store (type : string)
  (entries : list (jsstring * jsvalue O)) (now : Z) m :
  (let r := EnhancedLRUCache.preload entries now (read (getCache type) m) in
   PerformanceAPI.warm type entries now m
   = (r.1, write (getCache type) r.2 m))
  /\ (type <> ""%string -> type <> "all"%string ->
      (PerformanceAPI.clear_route type m).1 = type
      /\ EnhancedLRUCache.cache
           (read (getCache type) (PerformanceAPI.clear_route type m).2) = []
      /\ (forall l, l <> getCache type ->
            read l (PerformanceAPI.clear_route type m).2 = read l m)
      /\ ((type ∉ known_types) ->
          EnhancedLRUCache.cache
            (definitionCache (PerformanceAPI.clear_route type m).2) = []))
  /\ (forall l,
        EnhancedLRUCache.cache
          (read l (PerformanceAPI.clear_route "all" m).2) = [])
  /\ (forall l,
        EnhancedLRUCache.counters
          (read l (PerformanceAPI.clear_route type m).2)
        = EnhancedLRUCache.counters (read l m)).
Proof.
  split; [|split; [|split]].
  - cbn zeta. unfold PerformanceAPI.warm, warmUp. case_bool_decide as Ht.
    + subst type. change (getCache "frequent") with (@FrequentWordsCache).
      simpl. by destruct (EnhancedLRUCache.preload entries now _).
    + simpl. by destruct (EnhancedLRUCache.preload entries now _).
  - intros Hne Hall. unfold PerformanceAPI.clear_route.
    rewrite !bool_decide_false by done. simpl.
    split; [done|]. split; [by rewrite read_write_same|].
    split.
    + intros l Hl. by apply read_write_other.
    + intros Hunk. rewrite (getCache_unknown type Hunk). done.
  - intros l. simpl. by destruct l.
  - intros l. unfold PerformanceAPI.clear_route.
    destruct (negb _ && negb _); simpl.
    + by destruct l, (getCache type).
    + by destruct l.
Qed.
End CacheRoutes.

Lemma cache_routes_act_on_the_class_store_witness :
  let m := MultiLevelCache.set (js "k") (@JNum unit 7) "definition" None 0
             MultiLevelCache.new in
  "grammar"%string <> ""%string /\ "grammar"%string <> "all"%string
  /\ EnhancedLRUCache.cache
       (MultiLevelCache.definitionCache
          (PerformanceAPI.clear_route "grammar" m).2) = [].
Proof.
  intros m.
  assert ("grammar"%string <> ""%string) as Hne by discriminate.
  assert ("grammar"%string <> "all"%string) as Hall by discriminate.
  split; [exact Hne|]. split; [exact Hall|].
  destruct (cache_routes_act_on_the_class_store "grammar" [] 0 m)
    as (_ & H & _ & _).
  destruct (H Hne Hall) as (_ & _ & _ & Hd).
  apply Hd. unfold MultiLevelCache.known_types. intros Hin.
  repeat (apply elem_of_cons in Hin as [Hin|Hin]; [discriminate Hin|]).
  inversion Hin.
Defined.

(** ** Circuit breakers, continued *)

Section BreakerMore.
Context {R E : Type}.
Import CircuitBreaker BreakerSpec.

Lemma after_call_config now resolved (b : Breaker) :
  config (after_call now resolved b) = config b.
Proof.
  unfold after_call, on_success, on_failure, on_entry.
  destruct (_ && _); [done|].
  destruct resolved; repeat (case_decide || case_match); done.
Qed.

Lemma after_call_settled now resolved (b : Breaker) :
  1 <= failureThreshold (config b) ->
  settled b -> settled (after_call now resolved b).
Proof.
  intros Hth (Hh & Hf & Ho & Hn). unfold after_call.
  destruct (_ && _); [done|].
  unfold on_entry. destruct (state b) eqn:Hs; [| |done].
  - (* CLOSED *)
    rewrite decide_False by done.
    assert (failures b < failureThreshold (config b)) as Hlt.
    { destruct (Z.lt_ge_cases (failures b) (failureThreshold (config b)))
        as [|Hge]; [done|]. apply Ho in Hge. congruence. }
    destruct resolved.
    + unfold on_success. rewrite decide_False by (rewrite Hs; done).
      unfold settled. rewrite Hs. done.
    + unfold on_failure. rewrite Hs.
      destruct (_ <=? _) eqn:Hcmp; unfold settled; simpl.
      * apply Z.leb_le in Hcmp. split; [done|]. split; [lia|].
        split; [done|]. intros _. by exists now.
      * apply Z.leb_gt in Hcmp. split; [done|]. split; [lia|].
        split; [|done]. split; [done|lia].
  - (* OPEN, and the waiting time is over *)
    rewrite decide_True by done.
    assert (failureThreshold (config b) <= failures b) as Hge
      by (by apply Ho).
    destruct resolved.
    + unfold on_success. simpl. unfold settled. simpl.
      split; [done|]. split; [done|]. split; [|done]. split; [done|lia].
    + unfold on_failure. simpl.
      destruct (_ <=? _) eqn:Hcmp; [|apply Z.leb_gt in Hcmp; lia].
      unfold settled. simpl. split; [done|]. split; [lia|].
      split; [split; [intros _; lia|done]|]. intros _. by exists now.
Qed.

(** X10. Between calls a breaker is never HALF_OPEN, and it is OPEN
    exactly when its failure count has reached the threshold: whatever
    calls were made since the breaker was created with a threshold of at
    least 1, with or without fallback, the breaker keeps its
    configuration, counts no negative failures, is OPEN if and only if
    [failures >= failureThreshold], and when OPEN waits until
    [resetTimeout] after its last failure. *)
Theorem breaker_is_open_exactly_at_threshold (serviceName : string)
  (options : Options) (history : list (Attempt R E))
  (reg : gmap string Breaker) :
  1 <= failureThreshold (make_config options) ->
  exists b,
    attempts serviceName history
      (createCircuitBreaker serviceName options reg) !! serviceName = Some b
    /\ config b = make_config options
    /\ settled b.
Proof.
  intros Hth. unfold attempts, createCircuitBreaker.
  assert (exists b, (<[serviceName := new_breaker options]> reg)
                      !! serviceName = Some b
                    /\ config b = make_config options /\ settled b) as H0.
  { exists (new_breaker options). rewrite lookup_insert_eq.
    split; [done|]. split; [done|]. unfold settled. simpl. simpl in Hth.
    split; [done|]. split; [done|]. split; [|done]. split; [done|lia]. }
  revert H0. generalize (<[serviceName := new_breaker options]> reg).
  induction history as [|a history IH]; intros reg0 H0; simpl; [done|].
  apply IH. destruct H0 as (b & Hb & Hc & Hs).
  exists (after_call (at_now a) (resolves (at_operation a tt)) b).
  unfold attempt. rewrite (execute_registry _ _ _ _ _ b Hb).
  rewrite lookup_insert_eq. split; [done|].
  rewrite after_call_config. split; [done|].
  apply after_call_settled; [by rewrite Hc|done].
Qed.

(** X11. Breakers are per service. A call for a service that has no
    breaker throws the not-found error without calling the operation or
    the fallback, and changes nothing; a call for one service leaves
    the breaker of every other service as it is; and the fallback
    changes what the caller gets, never what the breaker records. *)
Theorem breakers_are_per_service (serviceName other : string)
  (operation : unit -> R + E) (fallback : option (unit -> R + E))
  (now : Z) (reg : gmap string Breaker) :
  (reg !! serviceName = None ->
   executeWithCircuitBreaker serviceName operation fallback now reg
   = (Thrown (BreakerNotFound serviceName), [], reg))
  /\ (other <> serviceName ->
      (executeWithCircuitBreaker serviceName operation fallback now reg).2
        !! other = reg !! other)
  /\ (executeWithCircuitBreaker serviceName operation fallback now reg).2
     = (executeWithCircuitBreaker serviceName operation None now reg).2.
Proof.
  split; [|split].
  - intros Hn. unfold executeWithCircuitBreaker. by rewrite Hn.
  - intros Hne. destruct (reg !! serviceName) as [b|] eqn:Hb.
    + rewrite (execute_registry _ _ _ _ _ b Hb).
      by rewrite lookup_insert_ne.
    + unfold executeWithCircuitBreaker. by rewrite Hb.
  - destruct (reg !! serviceName) as [b|] eqn:Hb.
    + by rewrite !(execute_registry _ _ _ _ _ b Hb).
    + unfold executeWithCircuitBreaker. by rewrite Hb.
Qed.
End BreakerMore.

Lemma breaker_is_open_exactly_at_threshold_witness :
  let options := CircuitBreaker.mkOptions (Some 2) (Some 1000) None in
  let failing := BreakerSpec.mkAttempt 0 (fun _ => inr tt : unit + unit)
                   None in
  1 <= CircuitBreaker.failureThreshold (CircuitBreaker.make_config options)
  /\ exists b,
       BreakerSpec.attempts "parser" [failing; failing]
         (CircuitBreaker.createCircuitBreaker "parser" options ∅)
         !! "parser"%string = Some b
       /\ CircuitBreaker.state b = CircuitBreaker.OPEN.
Proof.
  intros options failing.
  assert (1 <= CircuitBreaker.failureThreshold
                 (CircuitBreaker.make_config options)) as Hth
    by (vm_compute; discriminate).
  split; [exact Hth|].
  destruct (breaker_is_open_exactly_at_threshold "parser" options
              [failing; failing] ∅ Hth) as (b & Hb & _ & Hs).
  exists b. split; [exact Hb|].
  vm_compute in Hb. injection Hb as <-. reflexivity.
Defined.

(** ** Request deduplication, continued *)

Section DedupMore.
Context {Resp : Type}.
Import Deduplication RequestQueueStats.
Implicit Types (w : World Resp).

(** X12. The registry key is made of the method, the path and, on the
    two analysis paths only, one field of the body: [text] for
    '/api/full-analysis' and [word] for '/api/debug-lookup'. Two
    requests that agree on these have the same key, whatever else they
    carry, and the second one to arrive while the first is registered is
    not passed on to a handler. *)
Theorem key_ignores_all_but_critical_fields (r1 r2 : Request)
  (id1 id2 : nat) (now1 now2 : Z) w :
  method r1 = method r2 -> path r1 = path r2 ->
  (path r1 = "/api/full-analysis"%string -> body_text r1 = body_text r2) ->
  (path r1 = "/api/debug-lookup"%string -> body_word r1 = body_word r2) ->
  generateRequestKey r1 = generateRequestKey r2
  /\ executed (middleware id2 r2 now2 (middleware id1 r1 now1 w))
     = executed (middleware id1 r1 now1 w).
Proof.
  intros Hm Hp Ht Hw.
  assert (generateRequestKey r1 = generateRequestKey r2) as Hk.
  { unfold generateRequestKey, extractCriticalParams. rewrite <- Hm, <- Hp.
    repeat case_bool_decide.
    - by rewrite Ht.
    - by rewrite Hw.
    - done. }
  split; [exact Hk|].
  unfold middleware at 1. rewrite <- Hk.
  assert (is_Some (requestQueue (middleware id1 r1 now1 w)
                     !! generateRequestKey r1)) as [e He].
  { unfold middleware.
    destruct (requestQueue w !! generateRequestKey r1) as [e|] eqn:He;
      simpl; [by rewrite He|]. rewrite lookup_insert_eq. eauto. }
  by rewrite He.
Qed.

(** X13. A request whose key is free is registered and passed on; when
    its handler ends the response, its key is freed and the response is
    recorded, so the next request with the same key is passed on to a
    handler again rather than joined to the finished one. *)
Theorem finished_request_frees_its_key (req : Request) (id id' : nat)
  (now now' : Z) (resp : Resp) w :
  requestQueue w !! generateRequestKey req = None ->
  let w1 := middleware id req now w in
  let w2 := handler_ends id resp w1 in
  requestQueue w1 !! generateRequestKey req = Some (mkEntry id now)
  /\ executed w1 = executed w ++ [id]
  /\ requestQueue w2 !! generateRequestKey req = None
  /\ responses w2 = responses w ++ [(id, resp)]
  /\ executed (middleware id' req now' w2) = executed w ++ [id; id'].
Proof.
  intros Hfree w1 w2.
  assert (w1 = mkWorld (<[generateRequestKey req := mkEntry id now]>
                          (requestQueue w))
                       (<[id := []]> (subscribers w))
                       (<[id := generateRequestKey req]> (cleanupKey w))
                       (executed w ++ [id]) (responses w)) as Hw1.
  { subst w1. unfold middleware. by rewrite Hfree. }
  assert (w2 = mkWorld (base.delete (generateRequestKey req) (requestQueue w1))
                       (subscribers w1) (base.delete id (cleanupKey w1))
                       (executed w1) (responses w1 ++ [(id, resp)])) as Hw2.
  { subst w2. unfold handler_ends. rewrite Hw1. simpl.
    by rewrite lookup_insert_eq. }
  clearbody w1 w2. subst w1.
  assert (requestQueue w2 !! generateRequestKey req = None) as Hgone.
  { rewrite Hw2. simpl. apply lookup_delete_eq. }
  split; [simpl; apply lookup_insert_eq|]. split; [done|].
  split; [exact Hgone|]. split; [by rewrite Hw2|].
  unfold middleware. rewrite Hgone. simpl. rewrite Hw2. simpl.
  by rewrite <- app_assoc.
Qed.

Lemma oldest_timestamp_spec (now : Z) (q : gmap Key QueueEntry) :
  let oldest := map_fold (fun _ request oldest =>
                            Z.min oldest (timestamp request)) now q in
  oldest <= now
  /\ (forall key e, q !! key = Some e -> oldest <= timestamp e)
  /\ (oldest = now
      \/ exists key e, q !! key = Some e /\ oldest = timestamp e).
Proof.
  apply (map_fold_weak_ind
           (fun r (m : gmap Key QueueEntry) =>
              r <= now
              /\ (forall key e, m !! key = Some e -> r <= timestamp e)
              /\ (r = now
                  \/ exists key e, m !! key = Some e /\ r = timestamp e))).
  - split; [lia|]. split; [|by left]. intros key e H.
    by rewrite lookup_empty in H.
  - intros i x m r Hi (H1 & H2 & H3). split; [lia|]. split.
    + intros key e He. destruct (decide (key = i)) as [->|Hne].
      * rewrite lookup_insert_eq in He. injection He as <-. lia.
      * rewrite lookup_insert_ne in He by done. specialize (H2 _ _ He). lia.
    + destruct (Z.min_spec r (timestamp x)) as [[_ ->]|[_ ->]].
      * destruct H3 as [->|(key & e & He & ->)]; [by left|].
        right. exists key, e. split; [|done].
        rewrite lookup_insert_ne; [done|]. intros ->. congruence.
      * right. exists i, x. by rewrite lookup_insert_eq.
Qed.

(** X14. The periodic sweep keeps exactly the registered requests that
    are at most five minutes old. Right after it, the age that
    [getOldestRequestAge] reports lies between 0 and 300000
    milliseconds, and no registered request is older than reported. *)
Theorem sweep_bounds_the_oldest_age (now : Z) w :
  (forall key e,
     requestQueue (sweep now w) !! key = Some e
     <-> requestQueue w !! key = Some e /\ now - timestamp e <= 300000)
  /\ 0 <= getOldestRequestAge now (sweep now w) <= 300000
  /\ (forall key e,
        requestQueue (sweep now w) !! key = Some e ->
        now - timestamp e <= getOldestRequestAge now (sweep now w)).
Proof.
  assert (forall key e,
     requestQueue (sweep now w) !! key = Some e
     <-> requestQueue w !! key = Some e /\ now - timestamp e <= 300000)
    as Hsw.
  { intros key e. unfold sweep. simpl. rewrite map_lookup_filter_Some.
    simpl. rewrite negb_true_iff, Z.ltb_ge. done. }
  split; [exact Hsw|].
  unfold getOldestRequestAge.
  pose proof (oldest_timestamp_spec now (requestQueue (sweep now w)))
    as (H1 & H2 & H3). simpl in H1, H2, H3.
  case_bool_decide as Hemp.
  - split; [lia|]. intros key e He. rewrite Hemp in He.
    by rewrite lookup_empty in He.
  - simpl. split.
    + split; [lia|]. destruct H3 as [->|(key & e & He & ->)]; [lia|].
      apply Hsw in He as [_ He]. lia.
    + intros key e He. specialize (H2 _ _ He). lia.
Qed.
End DedupMore.

Lemma key_ignores_all_but_critical_fields_witness :
  let r1 := Deduplication.mkRequest "POST" "/api/semantic-search"
              (Some (js "a")) None in
  let r2 := Deduplication.mkRequest "POST" "/api/semantic-search"
              (Some (js "b")) (Some (js "c")) in
  Deduplication.generateRequestKey r1 = Deduplication.generateRequestKey r2
  /\ Deduplication.executed
       (Deduplication.middleware 2 r2 1
          (Deduplication.middleware 1 r1 0
             (@Deduplication.empty_world unit))) = [1%nat].
Proof.
  intros r1 r2.
  destruct (key_ignores_all_but_critical_fields r1 r2 1 2 0 1
              (@Deduplication.empty_world unit)) as [Hk He];
    try (vm_compute; (reflexivity || discriminate)).
  split; [exact Hk|]. rewrite He. reflexivity.
Defined.

Lemma finished_request_frees_its_key_witness :
  let req := Deduplication.mkRequest "POST" "/api/debug-lookup" None
               (Some (js "k")) in
  Deduplication.executed
    (Deduplication.middleware 2 req 9
       (Deduplication.handler_ends 1 tt
          (Deduplication.middleware 1 req 0 Deduplication.empty_world)))
  = [1%nat; 2%nat].
Proof.
  intros req.
  destruct (finished_request_frees_its_key req 1 2 0 9 tt
              Deduplication.empty_world) as (_ & _ & _ & _ & H);
    [reflexivity|exact H].
Defined.

(** ** Batches, continued *)

Section BatchMore.
Import BatchProcessor BatchSpec.
Context {I R E : Type} `{EqDecision I}.
Implicit Types (w : World I R E) (type : string).

Lemma flushed_snoc type (fs : list (Flush I)) (f : Flush I) :
  flat_map (fun f => if bool_decide (flush_type f = type)
                     then flush_items f else []) (fs ++ [f])
  = flat_map (fun f => if bool_decide (flush_type f = type)
                       then flush_items f else []) fs
    ++ (if bool_decide (flush_type f = type) then flush_items f else []).
Proof. rewrite flat_map_app. simpl. by rewrite app_nil_r. Qed.

(** What [processBatch] does, whether or not there is anything to
    flush. *)
Lemma processBatch_spec type now w :
  (processBatch type now w = w /\ pending type w = [])
  \/ (exists batch,
        batches (bp w) !! type = Some batch /\ items batch <> []
        /\ flushes (processBatch type now w)
           = flushes w ++ [mkFlush now type (items batch)]
        /\ batches (bp (processBatch type now w))
           = <[type := mkBatch [] (processor batch) None]> (batches (bp w))
        /\ maxBatchSize (bp (processBatch type now w)) = maxBatchSize (bp w)).
Proof.
  unfold processBatch, pending.
  destruct (batches (bp w) !! type) as [batch|] eqn:Hb; [|by left].
  destruct (items batch) as [|i its] eqn:Hi; [by left|].
  right. exists batch. rewrite Hi. split; [done|]. split; [done|].
  destruct (processor batch (i :: its)); done.
Qed.

Lemma processBatch_conserves type' now w type :
  flushed type (processBatch type' now w)
  ++ pending type (processBatch type' now w)
  = flushed type w ++ pending type w.
Proof.
  destruct (processBatch_spec type' now w)
    as [[-> _]|(batch & Hb & Hne & Hf & Hbs & _)]; [done|].
  unfold flushed, pending. rewrite Hf, Hbs, flushed_snoc. simpl.
  destruct (decide (type' = type)) as [->|Hneq].
  - rewrite bool_decide_true by done. rewrite lookup_insert_eq, Hb. simpl.
    by rewrite app_nil_r.
  - rewrite bool_decide_false by done. rewrite lookup_insert_ne by done.
    by rewrite app_nil_r.
Qed.

Lemma addToBatch_conserves type' (item : I) proc now w type :
  flushed type (addToBatch type' item proc now w)
  ++ pending type (addToBatch type' item proc now w)
  = flushed type w ++ pending type w
    ++ (if bool_decide (type' = type) then [item] else []).
Proof.
  change (flushed type (push_item type' item proc now w)
          ++ pending type (push_item type' item proc now w)
          = flushed type w ++ pending type w
            ++ (if bool_decide (type' = type) then [item] else [])).
  unfold push_item.
  set (batch0 := match batches (bp w) !! type' with
                 | Some batch => batch
                 | None => mkBatch [] proc None
                 end).
  assert (pending type' w = items batch0) as Hp.
  { unfold pending, batch0. by destruct (batches (bp w) !! type'). }
  destruct (_ <=? _).
  - rewrite processBatch_conserves. unfold flushed, pending. simpl.
    f_equal. destruct (decide (type' = type)) as [->|Hneq].
    + rewrite bool_decide_true by done. rewrite lookup_insert_eq. simpl.
      unfold pending in Hp. by rewrite Hp.
    + rewrite bool_decide_false by done. rewrite lookup_insert_ne by done.
      by rewrite app_nil_r.
  - unfold flushed, pending. simpl. f_equal.
    destruct (decide (type' = type)) as [->|Hneq].
    + rewrite bool_decide_true by done. rewrite lookup_insert_eq. simpl.
      unfold pending in Hp. by rewrite Hp.
    + rewrite bool_decide_false by done. rewrite lookup_insert_ne by done.
      by rewrite app_nil_r.
Qed.

Lemma fire_due_conserves fuel now w type :
  flushed type (fire_due fuel now w) ++ pending type (fire_due fuel now w)
  = flushed type w ++ pending type w.
Proof.
  revert w. induction fuel as [|fuel IH]; intros w; simpl; [done|].
  destruct (next_due now (timers w)) as [tm|]; [|done].
  rewrite IH, processBatch_conserves. done.
Qed.

(** X15. No item is lost, repeated or reordered: after any history of
    submissions and timer firings, the items handed to the processor of
    a type so far, followed by those still waiting under the type, are
    exactly the items submitted under the type, in the order of
    submission. *)
Theorem no_item_is_lost_or_repeated (trace : list (event I R E)) type :
  flushed type (run trace new_world) ++ pending type (run trace new_world)
  = submitted type trace.
Proof.
  assert (forall w,
            flushed type (run trace w) ++ pending type (run trace w)
            = (flushed type w ++ pending type w) ++ submitted type trace)
    as H.
  { induction trace as [|e trace IH]; intros w; simpl.
    - by rewrite app_nil_r.
    - rewrite IH. destruct e as [type' item proc now|now|job]; simpl.
      + rewrite addToBatch_conserves. by rewrite <- !app_assoc.
      + unfold advance. by rewrite fire_due_conserves.
      + unfold flushed. rewrite complete_pending.
        destruct (complete_spec job w) as (_ & _ & _ & ->).
        done. }
  rewrite H. done.
Qed.
End BatchMore.

Section BatchBounds.
Import BatchProcessor BatchSpec.
Context {I R E : Type} `{EqDecision I}.
Implicit Types (w : World I R E) (type : string).

Lemma processBatch_in_bounds type' now w :
  maxBatchSize (bp w) = 10 ->
  (forall type, type <> type' -> (List.length (pending type w) < 10)%nat) ->
  (List.length (pending type' w) <= 10)%nat ->
  Forall (fun f => (1 <= List.length (flush_items f) <= 10)%nat)
         (flushes w) ->
  in_bounds (processBatch type' now w).
Proof.
  intros Hmax Hothers Hthis Hfl.
  destruct (processBatch_spec type' now w)
    as [[-> Hp]|(batch & Hb & Hne & Hf & Hbs & Hm)].
  - split; [done|]. split; [|done]. intros type.
    destruct (decide (type = type')) as [->|Hneq]; [|by apply Hothers].
    rewrite Hp. simpl. lia.
  - assert (pending type' w = items batch) as Hp
      by (unfold pending; by rewrite Hb).
    split; [by rewrite Hm|]. split.
    + intros type. unfold pending. rewrite Hbs.
      destruct (decide (type = type')) as [->|Hneq].
      * rewrite lookup_insert_eq. simpl. lia.
      * rewrite lookup_insert_ne by done. by apply Hothers.
    + rewrite Hf. apply Forall_app. split; [done|].
      apply Forall_cons. split; [|done]. simpl. rewrite <- Hp.
      split; [|done]. rewrite Hp. destruct (items batch); [done|simpl; lia].
Qed.

Lemma addToBatch_in_bounds type' (item : I) proc now w :
  in_bounds w -> in_bounds (addToBatch type' item proc now w).
Proof.
  intros (Hmax & Hpend & Hfl).
  change (in_bounds (push_item type' item proc now w)). unfold push_item.
  set (batch0 := match batches (bp w) !! type' with
                 | Some batch => batch
                 | None => mkBatch [] proc None
                 end).
  assert (pending type' w = items batch0) as Hp.
  { unfold pending, batch0. by destruct (batches (bp w) !! type'). }
  pose proof (Hpend type') as Hlen. rewrite Hp in Hlen.
  rewrite Hmax.
  destruct (10 <=? _) eqn:Hcmp.
  - apply Z.leb_le in Hcmp. rewrite length_app in Hcmp. simpl in Hcmp.
    apply processBatch_in_bounds; simpl; try done.
    + intros type Hneq. unfold pending. simpl.
      rewrite lookup_insert_ne by done. apply Hpend.
    + unfold pending. simpl. rewrite lookup_insert_eq. simpl.
      rewrite length_app. simpl. lia.
  - apply Z.leb_gt in Hcmp. rewrite length_app in Hcmp. simpl in Hcmp.
    split; [done|]. split; [|done]. intros type. unfold pending. simpl.
    destruct (decide (type = type')) as [->|Hneq].
    + rewrite lookup_insert_eq. simpl. rewrite length_app. simpl. lia.
    + rewrite lookup_insert_ne by done. apply Hpend.
Qed.

Lemma fire_due_in_bounds fuel now w :
  in_bounds w -> in_bounds (fire_due fuel now w).
Proof.
  revert w. induction fuel as [|fuel IH]; intros w Hw; simpl; [done|].
  destruct (next_due now (timers w)) as [tm|]; [|done].
  apply IH. destruct Hw as (Hmax & Hpend & Hfl).
  apply processBatch_in_bounds; simpl; try done.
  - intros type _. apply (Hpend type).
  - pose proof (Hpend (timer_type tm)) as H. unfold pending in *. simpl. lia.
Qed.

(** X16. Every call of a batch processor receives at least one and at
    most ten items, whatever the history of submissions and timer
    firings, and fewer than ten items wait under each type between
    events. *)
Theorem every_flush_is_within_the_batch_size (trace : list (event I R E)) :
  Forall (fun f => (1 <= List.length (flush_items f) <= 10)%nat)
         (flushes (run trace new_world))
  /\ forall type, (List.length (pending type (run trace new_world)) < 10)%nat.
Proof.
  assert (in_bounds (run trace (@new_world I R E))) as (_ & Hp & Hf).
  { unfold run. apply fold_left_preserves.
    - intros w [type item proc now|now|job] Hw; simpl.
      + by apply addToBatch_in_bounds.
      + by apply fire_due_in_bounds.
      + destruct Hw as (Hmax & Hpend & Hfl).
        destruct (complete_spec job w) as (_ & Hm & _ & Hf).
        split; [by rewrite Hm|]. split; [|by rewrite Hf].
        intros type. rewrite complete_pending. apply Hpend.
    - split; [done|]. split; [|constructor]. intros type. unfold pending.
      simpl. rewrite lookup_empty. simpl. lia. }
  split; [exact Hf|exact Hp].
Qed.

Lemma known_processBatch type' now w type :
  processor <$> (batches (bp (processBatch type' now w)) !! type)
  = processor <$> (batches (bp w) !! type).
Proof.
  destruct (processBatch_spec type' now w)
    as [[-> _]|(batch & Hb & _ & _ & Hbs & _)]; [done|].
  rewrite Hbs. destruct (decide (type = type')) as [->|Hneq].
  - by rewrite lookup_insert_eq, Hb.
  - by rewrite lookup_insert_ne.
Qed.

Lemma known_addToBatch type' (item : I) proc now w type :
  processor <$> (batches (bp (addToBatch type' item proc now w)) !! type)
  = match processor <$> (batches (bp w) !! type) with
    | Some p => Some p
    | None => if bool_decide (type' = type) then Some proc else None
    end.
Proof.
  change (processor <$> (batches (bp (push_item type' item proc now w)) !! type)
          = match processor <$> (batches (bp w) !! type) with
            | Some p => Some p
            | None => if bool_decide (type' = type) then Some proc else None
            end).
  unfold push_item.
  assert (forall its tmo,
    processor <$> (<[type' := mkBatch its
        (processor match batches (bp w) !! type' with
                   | Some batch => batch
                   | None => mkBatch [] proc None
                   end) tmo]> (batches (bp w)) !! type)
    = match processor <$> (batches (bp w) !! type) with
      | Some p => Some p
      | None => if bool_decide (type' = type) then Some proc else None
      end) as H.
  { intros its tmo. destruct (decide (type' = type)) as [->|Hneq].
    - rewrite lookup_insert_eq, bool_decide_true by done.
      by destruct (batches (bp w) !! type).
    - rewrite lookup_insert_ne, bool_decide_false by done.
      by destruct (batches (bp w) !! type). }
  destruct (_ <=? _).
  - rewrite known_processBatch. simpl. apply H.
  - simpl. apply H.
Qed.

Lemma known_fire_due fuel now w type :
  processor <$> (batches (bp (fire_due fuel now w)) !! type)
  = processor <$> (batches (bp w) !! type).
Proof.
  revert w. induction fuel as [|fuel IH]; intros w; simpl; [done|].
  destruct (next_due now (timers w)) as [tm|]; [|done].
  by rewrite IH, known_processBatch.
Qed.

(** X17. The processor of a type is the one passed with the first item
    ever submitted under the type: the batch of a type is created by
    its first submission and never removed, and the processor argument
    of every later submission is ignored. *)
Theorem processor_is_fixed_by_the_first_submission
  (trace : list (event I R E)) type :
  processor <$> (batches (bp (run trace new_world)) !! type)
  = first_processor type trace.
Proof.
  assert (forall w,
    processor <$> (batches (bp (run trace w)) !! type)
    = match processor <$> (batches (bp w) !! type) with
      | Some p => Some p
      | None => first_processor type trace
      end) as H.
  { induction trace as [|e trace IH]; intros w; simpl.
    - by destruct (processor <$> _).
    - rewrite IH. destruct e as [type' item proc now|now|job]; cbn [step].
      + rewrite known_addToBatch. unfold first_processor. simpl.
        destruct (processor <$> (batches (bp w) !! type)); [done|].
        by case_bool_decide.
      + unfold advance. rewrite known_fire_due. done.
      + destruct (complete_spec job w) as (-> & _). done. }
  rewrite H. simpl. by rewrite lookup_empty.
Qed.
End BatchBounds.

Section BatchAccounts.
Import BatchProcessor BatchSpec.
Context {I R E : Type} `{EqDecision I}.
Implicit Types (w : World I R E) (type : string).

Lemma all_set_removelast (a its : list I) :
  all_set a its -> all_set a (removelast its).
Proof.
  unfold all_set. induction its as [|i its IH]; [done|].
  intros Hs. apply Forall_cons in Hs as [Hi Hs]. simpl.
  destruct its; [constructor|]. apply Forall_cons. split; [done|by apply IH].
Qed.

Lemma all_set_mono (a a' its : list I) :
  (forall x, x ∈ a -> x ∈ a') -> all_set a its -> all_set a' its.
Proof. intros Ha Hs. eapply Forall_impl; [exact Hs|exact Ha]. Qed.

(** Where every item has its callbacks set, the loops call each one. *)
Lemma resolve_all_set (a its : list I) (results : list R) :
  all_set a its ->
  @resolve_all I R E _ a its results
  = imap (fun index item => Resolved item (results !! index)) its.
Proof.
  unfold resolve_all.
  assert (forall f : nat -> nat,
    all_set a its ->
    concat (imap (fun index item =>
                    if has_callbacks a item
                    then [@Resolved I R E item (results !! f index)] else [])
                 its)
    = imap (fun index item => Resolved item (results !! f index)) its) as H.
  { induction its as [|i its IH]; intros f Hs; [done|].
    apply Forall_cons in Hs as [Hi Hs]. simpl.
    unfold has_callbacks at 1. rewrite bool_decide_true by done. simpl.
    f_equal. exact (IH (f ∘ S) Hs). }
  exact (H id).
Qed.

Lemma reject_all_set (a its : list I) (error : E) :
  all_set a its ->
  @reject_all I R E _ a its error
  = List.map (fun item => RejectedWith item error) its.
Proof.
  unfold reject_all. induction its as [|i its IH]; intros Hs; [done|].
  apply Forall_cons in Hs as [Hi Hs]. simpl.
  unfold has_callbacks at 1. rewrite bool_decide_true by done. simpl.
  f_equal. by apply IH.
Qed.

Lemma passed_over_set (a its : list I) :
  all_set a its -> passed_over a its = [].
Proof.
  unfold passed_over. induction its as [|i its IH]; intros Hs; [done|].
  apply Forall_cons in Hs as [Hi Hs]. simpl.
  unfold has_callbacks at 1. rewrite bool_decide_true by done. simpl.
  by apply IH.
Qed.

(** A loop calls the callback of every item it does not pass over. *)
Lemma reject_all_partition (a its : list I) (error : E) :
  List.map settled_item (@reject_all I R E _ a its error) ++ passed_over a its
  ≡ₚ its.
Proof.
  unfold reject_all, passed_over. induction its as [|i its IH]; [done|].
  simpl. destruct (has_callbacks a i); simpl.
  - by rewrite IH.
  - rewrite <- Permutation_middle. by rewrite IH.
Qed.

Lemma resolve_all_partition (a its : list I) (results : list R) :
  List.map settled_item (@resolve_all I R E _ a its results)
  ++ passed_over a its ≡ₚ its.
Proof.
  unfold resolve_all, passed_over.
  assert (forall f : nat -> nat,
    List.map settled_item
      (concat (imap (fun index item =>
                       if has_callbacks a item
                       then [@Resolved I R E item (results !! f index)]
                       else [])
                    its))
    ++ List.filter (fun item => negb (has_callbacks a item)) its ≡ₚ its) as H.
  { induction its as [|i its IH]; intros f; [done|].
    simpl. destruct (has_callbacks a i); simpl.
    - by rewrite (IH (f ∘ S)).
    - rewrite <- Permutation_middle. by rewrite (IH (f ∘ S)). }
  exact (H id).
Qed.

Lemma reject_all_unresolved (a its : list I) (error : E) :
  List.filter is_resolved (@reject_all I R E _ a its error) = [].
Proof.
  unfold reject_all. induction its as [|i its IH]; [done|].
  simpl. destruct (has_callbacks a i); simpl; exact IH.
Qed.

Lemma imap_resolved (its : list I) (results : list R) :
  List.length
    (List.filter is_resolved
       (imap (fun index item => @Resolved I R E item (results !! index)) its))
  = List.length its.
Proof.
  assert (forall f : nat -> nat,
    List.length
      (List.filter is_resolved
         (imap (fun index item => @Resolved I R E item (results !! f index))
               its))
    = List.length its) as H.
  { induction its as [|i its IH]; intros f; [done|].
    simpl. f_equal. exact (IH (f ∘ S)). }
  exact (H id).
Qed.

Lemma imap_settled_items (its : list I) (results : list R) :
  List.map settled_item
    (imap (fun index item => @Resolved I R E item (results !! index)) its)
  = its.
Proof.
  assert (forall f : nat -> nat,
    List.map settled_item
      (imap (fun index item => @Resolved I R E item (results !! f index)) its)
    = its) as H.
  { induction its as [|i its IH]; intros f; [done|].
    simpl. f_equal. exact (IH (f ∘ S)). }
  exact (H id).
Qed.

Lemma map_rejected_unresolved (its : list I) (error : E) :
  List.filter is_resolved
    (List.map (fun item => @RejectedWith I R E item error) its) = [].
Proof. induction its as [|i its IH]; [done|exact IH]. Qed.

(** Where all items but the last have their callbacks set, only the
    last can be passed over. *)
Lemma passed_over_last (a its : list I) :
  all_set a (removelast its) ->
  Forall (fun item => last its = Some item) (passed_over a its).
Proof.
  unfold passed_over, all_set.
  induction its as [|i its IH]; intros Hs; [constructor|].
  simpl in Hs. destruct its as [|i' its].
  - simpl. destruct (has_callbacks a i); simpl; repeat constructor.
  - apply Forall_cons in Hs as [Hi Hs].
    cbn [List.filter]. unfold has_callbacks at 1.
    rewrite bool_decide_true by done. cbn [negb].
    specialize (IH Hs). exact IH.
Qed.

Lemma find_job_spec id (jobs : list (Job I R E)) job :
  List.find (fun job => bool_decide (job_id job = id)) jobs = Some job ->
  job ∈ jobs /\ job_id job = id.
Proof.
  intros H. apply find_some in H as [Hin Hid].
  apply bool_decide_eq_true in Hid. split; [by apply list_elem_of_In|done].
Qed.

Lemma find_job_unique (jobs : list (Job I R E)) job :
  NoDup (List.map job_id jobs) -> job ∈ jobs ->
  List.find (fun j => bool_decide (job_id j = job_id job)) jobs = Some job.
Proof.
  induction jobs as [|j jobs IH]; intros Hnd Hin; [by inversion Hin|].
  simpl in Hnd. apply NoDup_cons in Hnd as [Hj Hnd]. simpl.
  apply elem_of_cons in Hin as [<-|Hin].
  - by rewrite bool_decide_true.
  - rewrite bool_decide_false; [by apply IH|].
    intros Heq. apply Hj. rewrite Heq.
    apply list_elem_of_In, in_map, list_elem_of_In, Hin.
Qed.

(** Taking a suspended run out of the list of the suspended runs. *)
Lemma awaiting_without (jobs : list (Job I R E)) job :
  NoDup (List.map job_id jobs) -> job ∈ jobs ->
  let rest := List.filter
                (fun j => negb (bool_decide (job_id j = job_id job))) jobs in
  flat_map job_items jobs ≡ₚ job_items job ++ flat_map job_items rest.
Proof.
  induction jobs as [|j jobs IH]; intros Hnd Hin; [by inversion Hin|].
  simpl in Hnd. apply NoDup_cons in Hnd as [Hj Hnd]. simpl.
  apply elem_of_cons in Hin as [<-|Hin].
  - rewrite bool_decide_true by done. simpl.
    assert (List.filter
              (fun j => negb (bool_decide (job_id j = job_id job))) jobs
            = jobs) as ->; [|done].
    clear IH Hnd. induction jobs as [|j jobs IH]; [done|].
    simpl. rewrite bool_decide_false.
    + simpl. f_equal. apply IH. intros H. apply Hj. simpl. by right.
    + intros Heq. apply Hj. rewrite <- Heq. by left.
  - rewrite bool_decide_false.
    + simpl. rewrite (IH Hnd Hin). rewrite !app_assoc.
      apply Permutation_app_tail, Permutation_app_comm.
    + intros Heq. apply Hj. rewrite Heq.
      apply list_elem_of_In, in_map, list_elem_of_In, Hin.
Qed.

(** The bookkeeping of a flush whose callbacks are called at once. *)
Lemma account_calls (S X U Y J F its : list I) :
  S ++ U ++ J ≡ₚ F -> X ++ Y ≡ₚ its ->
  (S ++ X) ++ (U ++ Y) ++ J ≡ₚ F ++ its.
Proof.
  intros <- <-. rewrite <- !app_assoc. apply Permutation_app_head.
  rewrite (app_assoc X U), (Permutation_app_comm X U), <- !app_assoc.
  apply Permutation_app_head.
  rewrite (app_assoc X Y J). apply Permutation_app_comm.
Qed.

(** The bookkeeping of a completion. *)
Lemma account_completion (S U J F its rest : list I) :
  S ++ U ++ J ≡ₚ F -> J ≡ₚ its ++ rest ->
  (S ++ its) ++ U ++ rest ≡ₚ F.
Proof.
  intros <- ->. rewrite <- !app_assoc. apply Permutation_app_head.
  rewrite !app_assoc. apply Permutation_app_tail, Permutation_app_comm.
Qed.

Lemma accounted_mono (a a' : list I) w :
  (forall x, x ∈ a -> x ∈ a') -> accounted a w -> accounted a' w.
Proof.
  intros Ha (Hp & Hj & H). split; [|split; [|exact H]].
  - intros type. eapply all_set_mono; [exact Ha|apply Hp].
  - eapply Forall_impl; [exact Hj|]. intros job. by apply all_set_mono.
Qed.

(** [processBatch] up to its [await], reached from a timer or from
    [addToBatch]: in the latter case the callbacks of the last item are
    set only afterwards ([a] has them). *)
Lemma processBatch_accounted (a : list I) type now w :
  (forall x, x ∈ armed w -> x ∈ a) ->
  all_set (armed w) (removelast (pending type w)) ->
  accounted a w ->
  accounted a (processBatch type now w)
  /\ armed (processBatch type now w) = armed w.
Proof.
  intros Ha Hlast (Hp & Hj & Hid & Hnd & Hperm & Hun & Hb & Hi & Hav).
  pose proof (Hp type) as Hthis. revert Hlast Hthis.
  unfold processBatch, pending at 1 2.
  destruct (batches (bp w) !! type) as [batch|] eqn:Hbt;
    [|intros _ _; split; [|done]; repeat split; done].
  destruct (items batch) as [|i its] eqn:Hits;
    [intros _ _; split; [|done]; repeat split; done|].
  set (its' := i :: its). assert (its' <> []) as Hne by done.
  clearbody its'. clear Hits i its. intros Hlast Hthis.
  assert (forall type',
            all_set a
              (match <[type := mkBatch [] (processor batch) None]>
                       (batches (bp w)) !! type' with
               | Some batch => items batch
               | None => []
               end)) as Hp'.
  { intros type'. destruct (decide (type' = type)) as [->|Hneq].
    - rewrite lookup_insert_eq. constructor.
    - rewrite lookup_insert_ne by done. apply Hp. }
  assert (forall f, f ∈ flushes w ->
                    f ∈ flushes w ++ [mkFlush now type its']) as Hold.
  { intros f Hf. apply elem_of_app. by left. }
  destruct (processor batch its') as [error|outcome].
  - split; [|done]. unfold accounted, pending. simpl.
    split; [exact Hp'|]. split; [exact Hj|]. split; [exact Hid|].
    split; [exact Hnd|]. split; [|split; [|split; [exact Hb|split; [|exact Hav]]]].
    + rewrite map_app, flat_map_app. simpl. rewrite app_nil_r.
      apply account_calls; [exact Hperm|apply reject_all_partition].
    + apply Forall_app. split.
      * eapply Forall_impl; [exact Hun|]. intros item (f & Hf & Hl).
        exists f. split; [by apply Hold|done].
      * eapply Forall_impl; [exact (passed_over_last _ _ Hlast)|].
        intros item Hl. exists (mkFlush now type its').
        split; [|done]. apply elem_of_app. right. by left.
    + rewrite List.filter_app, length_app, reject_all_unresolved, Hi.
      simpl. lia.
  - split; [|done]. unfold accounted, pending. simpl.
    split; [exact Hp'|]. split.
    { apply Forall_app. split; [exact Hj|]. by repeat constructor. }
    split.
    { apply Forall_app. split.
      - eapply Forall_impl; [exact Hid|]. intros job. simpl. lia.
      - repeat constructor. }
    split.
    { rewrite map_app. simpl. apply NoDup_app. split; [exact Hnd|]. split.
      - intros x Hx Hx'. apply list_elem_of_singleton in Hx'. subst x.
        apply list_elem_of_In, in_map_iff in Hx as (job & Hjid & Hin).
        rewrite Forall_forall in Hid.
        apply list_elem_of_In, Hid in Hin. lia.
      - apply NoDup_singleton. }
    split; [|split; [|split; [exact Hb|split; [exact Hi|exact Hav]]]].
    + rewrite !flat_map_app. simpl. rewrite !app_nil_r.
      rewrite <- Hperm. by rewrite !app_assoc.
    + eapply Forall_impl; [exact Hun|]. intros item (f & Hf & Hl).
      exists f. split; [by apply Hold|done].
Qed.

(** The completion of a suspended run. *)
Lemma complete_accounted id w :
  accounted (armed w) w ->
  accounted (armed w) (complete id w) /\ armed (complete id w) = armed w.
Proof.
  intros (Hp & Hj & Hid & Hnd & Hperm & Hun & Hb & Hi & Hav).
  unfold complete.
  destruct (List.find _ (awaiting w)) as [job|] eqn:Hfind;
    [|split; [|done]; repeat split; done].
  apply find_job_spec in Hfind as [Hin <-].
  pose proof (awaiting_without (awaiting w) job Hnd Hin) as Hrest.
  cbn zeta in Hrest.
  set (rest := List.filter _ (awaiting w)) in *.
  assert (all_set (armed w) (job_items job)) as Hset.
  { rewrite Forall_forall in Hj. by apply Hj. }
  assert (Forall (fun job => all_set (armed w) (job_items job)) rest) as Hj'.
  { unfold rest. rewrite Forall_forall in *. intros j Hj0.
    apply Hj. apply list_elem_of_In, filter_In in Hj0 as [Hj0 _].
    by apply list_elem_of_In. }
  assert (Forall (fun job => (job_id job < nextJobId w)%nat) rest) as Hid'.
  { unfold rest. rewrite Forall_forall in *. intros j Hj0.
    apply Hid. apply list_elem_of_In, filter_In in Hj0 as [Hj0 _].
    by apply list_elem_of_In. }
  assert (NoDup (List.map job_id rest)) as Hnd'.
  { unfold rest. clear -Hnd. induction (awaiting w) as [|j jobs IH]; [done|].
    simpl in Hnd. apply NoDup_cons in Hnd as [Hj Hnd]. simpl.
    destruct (negb _); [|by apply IH]. simpl. apply NoDup_cons.
    split; [|by apply IH]. intros Hx. apply Hj.
    apply list_elem_of_In, in_map_iff in Hx as (j' & Hjj & Hx).
    apply filter_In in Hx as [Hx _].
    rewrite <- Hjj. apply list_elem_of_In, in_map, Hx. }
  rewrite (passed_over_set _ _ Hset), app_nil_r.
  destruct (job_outcome job) as [results|error].
  - split; [|done]. unfold accounted, pending. simpl.
    split; [exact Hp|]. split; [exact Hj'|]. split; [exact Hid'|].
    split; [exact Hnd'|].
    rewrite (resolve_all_set _ _ results Hset).
    split; [|split; [exact Hun|split; [lia|split; [|done]]]].
    + rewrite map_app.
      rewrite imap_settled_items.
      exact (account_completion _ _ _ _ _ _ Hperm Hrest).
    + rewrite List.filter_app, length_app, imap_resolved, Hi. lia.
  - split; [|done]. unfold accounted, pending. simpl.
    split; [exact Hp|]. split; [exact Hj'|]. split; [exact Hid'|].
    split; [exact Hnd'|].
    rewrite (reject_all_set _ _ error Hset).
    split; [|split; [exact Hun|split; [exact Hb|split; [|exact Hav]]]].
    + rewrite map_app, map_map. simpl. rewrite map_id.
      exact (account_completion _ _ _ _ _ _ Hperm Hrest).
    + rewrite List.filter_app, length_app, Hi.
      rewrite map_rejected_unresolved. simpl. lia.
Qed.

Lemma addToBatch_accounted type (item : I) proc now w :
  accounted (armed w) w ->
  accounted (armed (addToBatch type item proc now w))
            (addToBatch type item proc now w).
Proof.
  intros Hw.
  change (accounted (item :: armed (push_item type item proc now w))
                    (push_item type item proc now w)).
  assert (forall x, x ∈ armed w -> x ∈ item :: armed w) as Hsub
    by (intros x Hx; by right).
  pose proof (accounted_mono _ _ w Hsub Hw)
    as (Hp & Hj & Hid & Hnd & Hperm & Hun & Hb & Hi & Hav).
  destruct Hw as (Hp0 & _).
  unfold push_item.
  set (batch0 := match batches (bp w) !! type with
                 | Some batch => batch
                 | None => mkBatch [] proc None
                 end).
  assert (pending type w = items batch0) as Hpend.
  { unfold pending, batch0. by destruct (batches (bp w) !! type). }
  assert (forall tmo type',
            all_set (item :: armed w)
              (match <[type := mkBatch (items batch0 ++ [item])
                                 (processor batch0) tmo]>
                       (batches (bp w)) !! type' with
               | Some batch => items batch
               | None => []
               end)) as Hp'.
  { intros tmo type'. destruct (decide (type' = type)) as [->|Hneq].
    - rewrite lookup_insert_eq. simpl. apply Forall_app. split.
      + rewrite <- Hpend. apply Hp.
      + repeat constructor.
    - rewrite lookup_insert_ne by done. apply Hp. }
  destruct (_ <=? _).
  - set (w1 := mkWorld _ _ _ _ _ _ _ _ _).
    destruct (processBatch_accounted (item :: armed w) type now w1)
      as [Hacc Harm].
    + exact Hsub.
    + unfold pending, w1. simpl. rewrite lookup_insert_eq. simpl.
      rewrite removelast_last, <- Hpend. apply Hp0.
    + unfold accounted, pending, w1. simpl.
      split; [apply Hp'|]. repeat split; done.
    + rewrite Harm. exact Hacc.
  - unfold accounted, pending. simpl.
    split; [apply Hp'|]. repeat split; done.
Qed.

Lemma fire_due_accounted fuel now w :
  accounted (armed w) w ->
  accounted (armed (fire_due fuel now w)) (fire_due fuel now w).
Proof.
  revert w. induction fuel as [|fuel IH]; intros w Hw; simpl; [done|].
  destruct (next_due now (timers w)) as [tm|]; [|done].
  set (w1 := mkWorld _ _ _ _ _ _ _ _ _).
  destruct (processBatch_accounted (armed w) (timer_type tm) (deadline tm) w1)
    as [Hacc Harm]; [done| |exact Hw|].
  - apply all_set_removelast. destruct Hw as (Hp & _). apply Hp.
  - apply IH. rewrite Harm. exact Hacc.
Qed.

Lemma step_accounted w (e : event I R E) :
  accounted (armed w) w -> accounted (armed (step w e)) (step w e).
Proof.
  intros Hw. destruct e as [type item proc now|now|job]; cbn [step].
  - by apply addToBatch_accounted.
  - by apply fire_due_accounted.
  - destruct (complete_accounted job w Hw) as [Hacc Harm].
    rewrite Harm. exact Hacc.
Qed.

Lemma run_accounted (trace : list (event I R E)) w :
  accounted (armed w) w -> accounted (armed (run trace w)) (run trace w).
Proof.
  revert w. induction trace as [|e trace IH]; intros w Hw; [done|].
  simpl. by apply IH, step_accounted.
Qed.

Lemma new_world_accounted :
  accounted (armed (@new_world I R E)) (@new_world I R E).
Proof.
  unfold accounted, pending. simpl.
  split; [intros type; rewrite lookup_empty; constructor|].
  repeat split; try constructor; try done.
Qed.

(** Without a processor that throws, no item is passed over. *)
Lemma processBatch_quiet type now w :
  quiet w -> quiet (processBatch type now w).
Proof.
  intros [Hq Hu]. unfold processBatch.
  destruct (batches (bp w) !! type) as [batch|] eqn:Hb; [|done].
  destruct (items batch) as [|i its]; [done|].
  destruct (Hq type batch Hb (i :: its)) as [outcome ->].
  split; [|done]. intros type' batch'. simpl.
  destruct (decide (type' = type)) as [->|Hneq].
  - rewrite lookup_insert_eq. intros [= <-]. simpl. by apply (Hq type).
  - rewrite lookup_insert_ne by done. apply Hq.
Qed.

Lemma addToBatch_quiet type (item : I) proc now w :
  never_throws proc -> quiet w -> quiet (addToBatch type item proc now w).
Proof.
  intros Hproc [Hq Hu].
  change (quiet (push_item type item proc now w)). unfold push_item.
  set (batch0 := match batches (bp w) !! type with
                 | Some batch => batch
                 | None => mkBatch [] proc None
                 end).
  assert (never_throws (processor batch0)) as H0.
  { unfold batch0. destruct (batches (bp w) !! type) as [batch|] eqn:Hb.
    - by apply (Hq type).
    - done. }
  assert (forall its tmo type' batch,
            <[type := mkBatch its (processor batch0) tmo]>
              (batches (bp w)) !! type' = Some batch ->
            never_throws (processor batch)) as Hq'.
  { intros its tmo type' batch.
    destruct (decide (type' = type)) as [->|Hneq].
    - rewrite lookup_insert_eq. by intros [= <-].
    - rewrite lookup_insert_ne by done. apply Hq. }
  destruct (_ <=? _).
  - apply processBatch_quiet. split; [|done]. simpl. apply Hq'.
  - split; [|done]. simpl. apply Hq'.
Qed.

Lemma fire_due_quiet fuel now w :
  quiet w -> quiet (fire_due fuel now w).
Proof.
  revert w. induction fuel as [|fuel IH]; intros w Hw; simpl; [done|].
  destruct (next_due now (timers w)) as [tm|]; [|done].
  apply IH, processBatch_quiet. exact Hw.
Qed.

Lemma complete_quiet id w :
  accounted (armed w) w -> quiet w -> quiet (complete id w).
Proof.
  intros (_ & Hj & _) [Hq Hu]. unfold complete.
  destruct (List.find _ (awaiting w)) as [job|] eqn:Hfind; [|done].
  apply find_job_spec in Hfind as [Hin _].
  assert (all_set (armed w) (job_items job)) as Hset.
  { rewrite Forall_forall in Hj. by apply Hj. }
  destruct (job_outcome job); (split; [exact Hq|]); simpl;
    by rewrite Hu, (passed_over_set _ _ Hset).
Qed.

Lemma run_quiet (trace : list (event I R E)) w :
  no_processor_throws trace ->
  accounted (armed w) w -> quiet w -> quiet (run trace w).
Proof.
  revert w. induction trace as [|e trace IH]; intros w Ht Hw Hq; [done|].
  apply Forall_cons in Ht as [He Ht]. simpl.
  apply IH; [exact Ht|by apply step_accounted|].
  destruct e as [type item proc now|now|job]; cbn [step].
  - by apply addToBatch_quiet.
  - by apply fire_due_quiet.
  - by apply complete_quiet.
Qed.

(** X18. Settlement follows completion. After any history of
    submissions, timer firings and completions:
    every item handed to a processor so far has had a callback called
    once, or waits for its processor's promise, or was passed over
    because its callbacks were not set yet;
    when the promise a suspended run waits for settles, the callbacks
    of all its items are called, in the order of the batch, with the
    result at the item's index or with the error;
    an item that was passed over was the last item of its flush, the
    one whose submission filled the batch, and there is none if no
    processor throws on the call;
    [itemsProcessed] counts the resolved callbacks, and once a batch
    has resolved [averageBatchSize] is the double
    [itemsProcessed / batchesProcessed]. *)
Theorem flushed_items_are_settled_on_completion
  (trace : list (event I R E)) :
  let w := run trace new_world in
  List.map settled_item (settlements w) ++ uncalled w
  ++ flat_map job_items (awaiting w)
  ≡ₚ flat_map flush_items (flushes w)
  /\ (forall job, job ∈ awaiting w ->
      settlements (complete (job_id job) w)
      = settlements w ++ callbacks_of job)
  /\ Forall (fun item => exists f, f ∈ flushes w
                                   /\ last (flush_items f) = Some item)
            (uncalled w)
  /\ (no_processor_throws trace -> uncalled w = [])
  /\ itemsProcessed (stats (bp w))
     = Z.of_nat (List.length (List.filter is_resolved (settlements w)))
  /\ 0 <= batchesProcessed (stats (bp w))
  /\ (0 < batchesProcessed (stats (bp w)) ->
      averageBatchSize (stats (bp w))
      = Double.div (Double.of_Z (itemsProcessed (stats (bp w))))
                   (Double.of_Z (batchesProcessed (stats (bp w))))).
Proof.
  intros w.
  pose proof (run_accounted trace new_world new_world_accounted)
    as (Hp & Hj & Hid & Hnd & Hperm & Hun & Hb & Hi & Hav).
  fold w in Hp, Hj, Hid, Hnd, Hperm, Hun, Hb, Hi, Hav.
  split; [exact Hperm|].
  split; [|split; [exact Hun|split; [|split; [exact Hi|split; [exact Hb|exact Hav]]]]].
  - intros job Hin. unfold complete, callbacks_of.
    rewrite (find_job_unique _ _ Hnd Hin).
    assert (all_set (armed w) (job_items job)) as Hset.
    { rewrite Forall_forall in Hj. by apply Hj. }
    destruct (job_outcome job) as [results|error]; simpl.
    + by rewrite (resolve_all_set _ _ results Hset).
    + by rewrite (reject_all_set _ _ error Hset).
  - intros Ht.
    apply (run_quiet trace new_world Ht new_world_accounted).
    split; [|done]. intros type batch. simpl. by rewrite lookup_empty.
Qed.
End BatchAccounts.

(** Ten items submitted to a processor that throws when it is called.
    The tenth fills the batch; the [catch] block rejects the first
    nine at once and passes over the tenth, whose callbacks are set
    only when [addToBatch] returns: nothing is left that would call
    them. *)
Lemma throwing_processor_strands_the_last_item :
  let w := BatchProcessor.run
             (BatchExamples.ten_items 0 BatchExamples.failing)
             BatchProcessor.new_world in
  BatchProcessor.flushes w = [BatchProcessor.mkFlush 0 "lookup" (seq 0 10)]
  /\ BatchProcessor.settlements w
     = List.map (fun i => BatchProcessor.RejectedWith i tt) (seq 0 9)
  /\ BatchProcessor.uncalled w = [9%nat]
  /\ BatchProcessor.awaiting w = []
  /\ BatchProcessor.pending "lookup" w = [].
Proof. vm_compute. repeat split; reflexivity. Qed.

(** Two full batches whose processors finish in the opposite order:
    the items of the second batch are resolved first. *)
Lemma settlements_follow_completion_order :
  let w := BatchProcessor.run
             (BatchExamples.ten_items 0 BatchExamples.echo
              ++ BatchExamples.ten_items 10 BatchExamples.echo
              ++ [BatchProcessor.Completes 1; BatchProcessor.Completes 0])
             BatchProcessor.new_world in
  List.map BatchSpec.settled_item (BatchProcessor.settlements w)
  = seq 10 10 ++ seq 0 10
  /\ BatchProcessor.uncalled w = []
  /\ BatchProcessor.awaiting w = []
  /\ BatchProcessor.batchesProcessed
       (BatchProcessor.stats (BatchProcessor.bp w)) = 2
  /\ BatchProcessor.itemsProcessed
       (BatchProcessor.stats (BatchProcessor.bp w)) = 20
  /\ BatchProcessor.averageBatchSize
       (BatchProcessor.stats (BatchProcessor.bp w)) = Double.of_Z 10.
Proof. vm_compute. repeat split; reflexivity. Qed.

(** ** Candidate generation, continued *)

Section GenerateMore.
Import Variants.
Variables (isHiragana isKatakana : jsstring -> bool)
          (toKatakana toHiragana : jsstring -> jsstring).

Lemma JsSet_add_prefix (x : jsstring) s : s `prefix_of` JsSet.add x s.
Proof.
  unfold JsSet.add. case_bool_decide; [done|]. by exists [x].
Qed.

Lemma JsSet_add_elem (x : jsstring) s : x ∈ JsSet.add x s.
Proof.
  unfold JsSet.add. case_bool_decide; [done|].
  apply elem_of_app. right. by apply list_elem_of_singleton.
Qed.

Lemma JsSet_addAll_prefix (xs : list jsstring) s :
  s `prefix_of` JsSet.addAll xs s.
Proof.
  unfold JsSet.addAll. revert s.
  induction xs as [|x xs IH]; intros s; simpl; [done|].
  etransitivity; [apply (JsSet_add_prefix x)|apply IH].
Qed.

Lemma add_when_prefix b xs variants :
  variants `prefix_of` add_when b xs variants.
Proof. destruct b; simpl; [apply JsSet_addAll_prefix|done]. Qed.

Lemma inflections_prefix word variants :
  variants `prefix_of` inflections word variants.
Proof.
  unfold inflections.
  assert (forall sufs vs,
            vs `prefix_of` fold_left (fun variants suffix =>
                      match match_suffix suffix word with
                      | Some first => JsSet.add first variants
                      | None => variants
                      end) sufs vs) as Hfold.
  { induction sufs as [|suf sufs IH]; intros vs; simpl; [done|].
    etransitivity; [|apply IH].
    destruct (match_suffix suf word); [apply JsSet_add_prefix|done]. }
  etransitivity; [|apply Hfold].
  etransitivity; [apply add_when_prefix|].
  etransitivity; [apply add_when_prefix|].
  etransitivity; [apply add_when_prefix|].
  etransitivity; [apply add_when_prefix|].
  destruct (match_ri word) as [[first second]|]; [|done].
  etransitivity; [apply JsSet_add_prefix|apply add_when_prefix].
Qed.

Lemma particle_step_prefix word variants particle :
  variants `prefix_of` particle_step word variants particle.
Proof.
  unfold particle_step.
  etransitivity; [apply add_when_prefix|apply JsSet_add_prefix].
Qed.

Lemma particles_prefix word ps variants :
  variants `prefix_of` fold_left (particle_step word) ps variants.
Proof.
  revert variants. induction ps as [|p ps IH]; intros variants; simpl; [done|].
  etransitivity; [apply particle_step_prefix|apply IH].
Qed.

Lemma particles_elem word ps variants p :
  p ∈ ps -> word ++ p ∈ fold_left (particle_step word) ps variants.
Proof.
  revert variants. induction ps as [|q ps IH]; intros variants Hin; simpl.
  - inversion Hin.
  - apply elem_of_cons in Hin as [->|Hin]; [|by apply IH].
    destruct (particles_prefix word ps (particle_step word variants q))
      as [k ->].
    apply elem_of_app. left. unfold particle_step. apply JsSet_add_elem.
Qed.

Lemma generate_head_and_particles (word : jsstring) :
  word <> [] ->
  let candidates :=
    generateComprehensiveVariants isHiragana isKatakana toKatakana toHiragana
      word in
  (exists rest, candidates = word :: rest)
  /\ (forall particle, particle ∈ particleCombinations ->
        word ++ particle ∈ candidates).
Proof.
  intros Hne. cbn zeta. unfold generateComprehensiveVariants.
  set (v1 := match JsMap.get word comprehensiveVariantMappings with
             | Some vs => JsSet.addAll vs [word]
             | None => [word]
             end).
  set (v2 := match JsMap.get word reverseVariantMappings with
             | Some vs => JsSet.addAll vs v1
             | None => v1
             end).
  set (v3 := add_when (isHiragana word) [toKatakana word] v2).
  set (v4 := add_when (isKatakana word) [toHiragana word] v3).
  set (v5 := if 2 <? Str.length word then inflections word v4 else v4).
  set (v6 := fold_left (particle_step word) particleCombinations v5).
  set (v7 := if Str.startsWith word (js "なん")
             then add_when (Str.truthy (Str.sliceFrom 2 word))
                    [Str.sliceFrom 2 word]
                    (JsSet.addAll [js "何" ++ Str.sliceFrom 2 word; js "なん"]
                                  v6)
             else v6).
  set (v8 := if Str.endsWith word (js "んな")
             then JsSet.addAll [Str.dropLast 2 word ++ js "な";
                                Str.dropLast 2 word; js "んな"] v7
             else v7).
  assert ([word] `prefix_of` v1) as H1.
  { unfold v1. destruct (JsMap.get word comprehensiveVariantMappings);
      [apply JsSet_addAll_prefix|done]. }
  clearbody v1.
  assert (v1 `prefix_of` v2) as H2.
  { unfold v2. destruct (JsMap.get word reverseVariantMappings);
      [apply JsSet_addAll_prefix|done]. }
  clearbody v2.
  assert (v2 `prefix_of` v3) as H3 by apply add_when_prefix.
  clearbody v3.
  assert (v3 `prefix_of` v4) as H4 by apply add_when_prefix.
  clearbody v4.
  assert (v4 `prefix_of` v5) as H5.
  { unfold v5. destruct (_ <? _); [apply inflections_prefix|done]. }
  clearbody v5.
  assert (v5 `prefix_of` v6) as H6 by apply particles_prefix.
  assert (v6 `prefix_of` v7) as H7.
  { unfold v7. destruct (Str.startsWith _ _); [|done].
    etransitivity; [apply JsSet_addAll_prefix|apply add_when_prefix]. }
  clearbody v7.
  assert (v7 `prefix_of` v8) as H8.
  { unfold v8. destruct (Str.endsWith _ _); [apply JsSet_addAll_prefix|done]. }
  clearbody v8.
  assert (forall v : jsstring, v <> [] -> (0 <? Str.length v) = true) as Hpos.
  { intros v Hv. apply Z.ltb_lt. unfold Str.length.
    destruct v; [done|]. simpl length. lia. }
  split.
  - assert ([word] `prefix_of` v8) as [k ->].
    { repeat (etransitivity; [eassumption|]). done. }
    simpl. rewrite (Hpos word Hne). eauto.
  - intros particle Hp.
    apply list_elem_of_In, filter_In. split.
    + apply list_elem_of_In.
      assert (v6 `prefix_of` v8) as [k ->] by (by etransitivity).
      apply elem_of_app. left. by apply particles_elem.
    + apply Hpos. destruct word; [done|]. done.
Qed.

(** X19. The candidates of a non-empty word start with the word itself,
    and they contain the word followed by each of the nine particles. *)
Theorem candidates_start_with_the_word (word : jsstring) :
  word <> [] ->
  let candidates :=
    generateComprehensiveVariants isHiragana isKatakana toKatakana toHiragana
      word in
  (exists rest, candidates = word :: rest)
  /\ (forall particle, particle ∈ particleCombinations ->
        word ++ particle ∈ candidates).
Proof. apply generate_head_and_particles. Qed.
End GenerateMore.

Lemma candidates_start_with_the_word_witness :
  let word := js "猫" in
  word <> []
  /\ head (Variants.generateComprehensiveVariants ServerExamples.notKana
             ServerExamples.notKana ServerExamples.unconverted
             ServerExamples.unconverted word) = Some word.
Proof.
  intros word.
  assert (word <> []) as Hne by (vm_compute; discriminate).
  split; [exact Hne|].
  destruct (candidates_start_with_the_word ServerExamples.notKana
              ServerExamples.notKana ServerExamples.unconverted
              ServerExamples.unconverted word Hne) as [[rest ->] _].
  reflexivity.
Defined.

(** ** The lookup pipeline, continued *)

Section PipelineMore.
Import Server PipelineSpec.
Variables (isHiragana isKatakana : jsstring -> bool)
          (toKatakana toHiragana : jsstring -> jsstring)
          (db : Database).

Local Abbreviation lookup :=
  (getDefinitionAdvanced isHiragana isKatakana toKatakana toHiragana db).
Local Abbreviation searchVariantsOf :=
  (Server.searchVariantsOf isHiragana isKatakana toKatakana toHiragana).

Lemma count_app kind qs qs' :
  count kind (qs ++ qs') = (count kind qs + count kind qs')%nat.
Proof. unfold count. by rewrite List.filter_app, length_app. Qed.

Lemma queries_issued_app s s' qs :
  queryLog s' = queryLog s ++ qs -> queries_issued s s' = qs.
Proof.
  intros H. unfold queries_issued. rewrite H.
  by rewrite drop_app_length.
Qed.

(** [buildDefinitionFromEntry] sends one entry query, whatever comes
    back. *)
Lemma buildDefinitionFromEntry_log entry_id originalWord matchedVariant now s :
  queryLog (buildDefinitionFromEntry db entry_id originalWord matchedVariant
              now s).2
  = queryLog s ++ [EntryQuery entry_id].
Proof.
  unfold buildDefinitionFromEntry, try_or_null, bind, query, ret, cache_set.
  destruct (entryQuery db entry_id) as [|[data|]]; simpl; [done| |done].
  destruct (senses_column data); simpl; [|done].
  case_bool_decide; done.
Qed.

Lemma exact_tier_log word now variants :
  forall s, exists qs,
    queryLog (exact_tier db word now variants s).2 = queryLog s ++ qs
    /\ (count is_exact qs <= List.length variants)%nat
    /\ count is_fuzzy qs = 0%nat
    /\ (count is_entry qs <= count is_exact qs)%nat.
Proof.
  induction variants as [|variant rest IH]; intros s; simpl.
  - exists []. by rewrite app_nil_r.
  - unfold bind, query.
    destruct (exactQuery db variant) as [|[entry_id|]]; simpl.
    + exists [ExactQuery variant]. unfold count. simpl. split; [done|]. lia.
    + pose proof (buildDefinitionFromEntry_log entry_id word variant now
                    (mkState (multiLevelCache s)
                             (queryLog s ++ [ExactQuery variant]))) as Hb.
      destruct (buildDefinitionFromEntry _ _ _ _ _ _) as [[d|] s1];
        simpl in Hb.
      * exists [ExactQuery variant; EntryQuery entry_id]. simpl.
        rewrite Hb, <- app_assoc. unfold count. simpl. split; [done|]. lia.
      * destruct (IH s1) as (qs & Hq & He & Hf & Hn).
        exists ([ExactQuery variant; EntryQuery entry_id] ++ qs).
        split; [rewrite Hq, Hb; by rewrite <- !app_assoc|].
        rewrite !count_app. unfold count in *. simpl. lia.
    + destruct (IH (mkState (multiLevelCache s)
                            (queryLog s ++ [ExactQuery variant])))
        as (qs & Hq & He & Hf & Hn).
      exists ([ExactQuery variant] ++ qs). simpl in Hq.
      split; [rewrite Hq; by rewrite <- !app_assoc|].
      rewrite !count_app. unfold count in *. simpl. lia.
Qed.

Lemma fuzzy_tier_log word now s :
  exists qs,
    queryLog (fuzzy_tier db word now s).2 = queryLog s ++ qs
    /\ count is_exact qs = 0%nat
    /\ count is_fuzzy qs = 1%nat
    /\ (count is_entry qs <= 1)%nat.
Proof.
  unfold fuzzy_tier, bind, query, cache_set, ret.
  destruct (fuzzyQuery db word) as [|[|first rows]]; simpl.
  - exists [FuzzyQuery word]. unfold count. simpl. split; [done|]. lia.
  - exists [FuzzyQuery word]. unfold count. simpl. split; [done|]. lia.
  - pose proof (buildDefinitionFromEntry_log (fuzzy_entry_id first) word
                  (matched_value first) now
                  (mkState (multiLevelCache s)
                           (queryLog s ++ [FuzzyQuery word]))) as Hb.
    exists [FuzzyQuery word; EntryQuery (fuzzy_entry_id first)].
    split; [|unfold count; simpl; lia].
    destruct (buildDefinitionFromEntry _ _ _ _ _ _) as [[d|] s1];
      simpl in Hb; simpl; rewrite Hb; by rewrite <- app_assoc.
Qed.

(** X20. A lookup never sends more than six exact queries and one
    fuzzy query, nor more entry queries than the matches these returned,
    whatever the database answers or fails to answer; the queries it
    sends are appended to the log. *)
Theorem lookup_sends_a_bounded_number_of_queries word now accessTime s :
  let s' := (lookup word now accessTime s).2 in
  queryLog s' = queryLog s ++ queries_issued s s'
  /\ within 6 1 (queries_issued s s').
Proof.
  cbn zeta.
  assert (exists qs,
            queryLog (lookup word now accessTime s).2 = queryLog s ++ qs
            /\ within 6 1 qs) as (qs & Hq & Hw).
  { unfold getDefinitionAdvanced, cache_get.
    destruct (MultiLevelCache.get word "definition" now accessTime _)
      as [v m].
    destruct (truthy v).
    { exists []. simpl. rewrite app_nil_r. split; [done|].
      unfold within, count. simpl. lia. }
    unfold try_or_null.
    destruct (particle_lookup word) as [definition|].
    { exists []. unfold bind, cache_set, ret. simpl. rewrite app_nil_r.
      split; [done|]. unfold within, count. simpl. lia. }
    unfold bind.
    set (s1 := mkState m (queryLog s)).
    destruct (exact_tier_log word now (word :: take 5 (searchVariantsOf word))
                s1) as (qs & Hq & He & Hf & Hn).
    assert (List.length (word :: take 5 (searchVariantsOf word)) <= 6)%nat
      as Hlen by (simpl; rewrite length_take; lia).
    destruct (exact_tier db word now _ s1) as [[|[d|]] s2]; simpl in Hq.
    - exists qs. simpl. split; [done|]. unfold within. lia.
    - exists qs. simpl. split; [done|]. unfold within. lia.
    - destruct (fuzzy_tier_log word now s2) as (qs' & Hq' & He' & Hf' & Hn').
      exists (qs ++ qs').
      assert (queryLog (fuzzy_tier db word now s2).2
              = queryLog s ++ qs ++ qs') as Hlog
        by (rewrite Hq', Hq; by rewrite <- app_assoc).
      split.
      + destruct (fuzzy_tier db word now s2) as [[|r] s3]; exact Hlog.
      + unfold within. rewrite !count_app. lia. }
  rewrite (queries_issued_app _ _ _ Hq). done.
Qed.

(** X21. A lookup for a non-empty word that matches nothing asks the
    exact query for the word itself twice in a row: the candidates start
    with the word, and the loop puts the word in front of the first five
    of them. Only four other candidates are tried before the fuzzy
    query. *)
Theorem unmatched_word_is_asked_for_twice word now accessTime s :
  word <> [] ->
  Server.no_match isHiragana isKatakana toKatakana toHiragana db word ->
  truthy (MultiLevelCache.get word "definition" now accessTime
            (multiLevelCache s)).1 = false ->
  exists rest,
    searchVariantsOf word = word :: rest
    /\ queries_issued s (lookup word now accessTime s).2
       = ExactQuery word :: ExactQuery word
         :: List.map ExactQuery (take 4 rest) ++ [FuzzyQuery word].
Proof.
  intros Hne Hno Hc.
  destruct (generate_head_and_particles isHiragana isKatakana toKatakana
              toHiragana word Hne) as [[rest Hrest] _].
  exists rest. split; [exact Hrest|].
  rewrite (lookup_no_match _ _ _ _ _ word now accessTime s Hno Hc).
  apply queries_issued_app. simpl. f_equal.
  unfold Server.full_query_sequence, Server.searchVariantsOf.
  rewrite Hrest. done.
Qed.

(** X22. A definition found for a word is stored under the word, and a
    second lookup of the word before the entry expires returns the same
    definition without sending any query. *)
Theorem found_definition_is_served_from_cache word entry_id data rows
  now now' accessTime accessTime' s :
  particle_lookup word = None ->
  truthy (MultiLevelCache.get word "definition" now accessTime
            (multiLevelCache s)).1 = false ->
  exactQuery db word = DbOk (Some entry_id) ->
  entryQuery db entry_id = DbOk (Some data) ->
  senses_column data = Some rows ->
  now' < now + EnhancedLRUCache.ttl
                 (MultiLevelCache.definitionCache (multiLevelCache s)) ->
  let d := definition_of entry_id data rows word word in
  let s1 := (lookup word now accessTime s).2 in
  (lookup word now accessTime s).1 = JObj (Def d)
  /\ queries_issued s s1 = [ExactQuery word; EntryQuery entry_id]
  /\ (lookup word now' accessTime' s1).1 = JObj (Def d)
  /\ queries_issued s1 (lookup word now' accessTime' s1).2 = [].
Proof.
  intros Hp Hc Hex Hen Hrows Hlt d s1.
  assert (lookup word now accessTime s
          = (JObj (Def d),
             mkState
               (MultiLevelCache.set word (JObj (Def d)) "definition" None now
                  (MultiLevelCache.get word "definition" now accessTime
                     (multiLevelCache s)).2)
               (queryLog s ++ [ExactQuery word; EntryQuery entry_id])))
    as Hfirst.
  { unfold getDefinitionAdvanced, cache_get.
    destruct (MultiLevelCache.get word "definition" now accessTime _)
      as [v m].
    simpl in Hc. rewrite Hc, Hp. unfold try_or_null, bind. simpl.
    unfold bind, query. rewrite Hex. simpl.
    unfold buildDefinitionFromEntry, try_or_null, bind, query.
    rewrite Hen. simpl. rewrite Hrows. unfold cache_set, ret. simpl.
    rewrite bool_decide_true by done. simpl.
    by rewrite <- app_assoc. }
  subst s1. rewrite Hfirst. simpl.
  split; [done|]. split; [by apply queries_issued_app|].
  set (m1 := (MultiLevelCache.get word "definition" now accessTime
                (multiLevelCache s)).2).
  set (s1 := mkState _ _).
  assert ((MultiLevelCache.get word "definition" now' accessTime'
             (multiLevelCache s1)).1 = JObj (Def d)) as Hhit.
  { unfold s1. simpl. unfold MultiLevelCache.get, MultiLevelCache.set.
    change (MultiLevelCache.getCache "definition")
      with MultiLevelCache.DefinitionCache.
    rewrite read_write_same.
    pose proof (get_after_set word (JObj (Def d)) None now now' accessTime'
                  (MultiLevelCache.read MultiLevelCache.DefinitionCache m1))
      as Hget.
    destruct (EnhancedLRUCache.get word now' accessTime' _) as [v c].
    apply Hget. simpl. unfold m1. rewrite multilevel_get_ttl. exact Hlt. }
  unfold getDefinitionAdvanced, cache_get.
  destruct (MultiLevelCache.get word "definition" now' accessTime' _)
    as [v m2].
  simpl in Hhit. subst v. simpl. split; [done|].
  apply queries_issued_app. simpl. by rewrite app_nil_r.
Qed.

(** X23. The built-in entries need no database: a word that the
    particle table answers (a particle, a punctuation mark, or a name
    every object inherits) is returned and stored under the word
    without any query. *)
Theorem builtin_entries_need_no_database word definition now accessTime s :
  particle_lookup word = Some definition ->
  truthy (MultiLevelCache.get word "definition" now accessTime
            (multiLevelCache s)).1 = false ->
  let s' := (lookup word now accessTime s).2 in
  (lookup word now accessTime s).1 = JObj definition
  /\ queries_issued s s' = []
  /\ (EnhancedLRUCache.value <$> JsMap.get word (definition_entries s'))
     = Some (JObj definition).
Proof.
  intros Hp Hc. cbn zeta. unfold getDefinitionAdvanced, cache_get.
  destruct (MultiLevelCache.get word "definition" now accessTime _)
    as [v m].
  simpl in Hc. rewrite Hc, Hp. unfold try_or_null, bind, cache_set, ret.
  simpl. split; [done|]. split.
  - apply queries_issued_app. simpl. by rewrite app_nil_r.
  - unfold definition_entries. simpl.
    unfold MultiLevelCache.set, EnhancedLRUCache.set.
    change (MultiLevelCache.getCache "definition")
      with MultiLevelCache.DefinitionCache.
    simpl. by rewrite JsMap_get_set_eq.
Qed.

(** X24. A database failure is not remembered: when the first exact
    query fails, the lookup returns [null] after that one query and
    writes nothing to the cache, not even the not-found marker. *)
Theorem database_error_is_not_cached word now accessTime s :
  particle_lookup word = None ->
  truthy (MultiLevelCache.get word "definition" now accessTime
            (multiLevelCache s)).1 = false ->
  exactQuery db word = DbError ->
  let s' := (lookup word now accessTime s).2 in
  (lookup word now accessTime s).1 = JNull
  /\ queries_issued s s' = [ExactQuery word]
  /\ multiLevelCache s'
     = (MultiLevelCache.get word "definition" now accessTime
          (multiLevelCache s)).2.
Proof.
  intros Hp Hc Hex. cbn zeta. unfold getDefinitionAdvanced, cache_get.
  destruct (MultiLevelCache.get word "definition" now accessTime _)
    as [v m].
  simpl in Hc. rewrite Hc, Hp. unfold try_or_null, bind. simpl.
  unfold bind, query. rewrite Hex. simpl.
  split; [done|]. split; [|done]. by apply queries_issued_app.
Qed.
End PipelineMore.

Lemma unmatched_word_is_asked_for_twice_witness :
  let word := js "zzz" in
  word <> []
  /\ take 2 (Server.queries_issued Server.initial
               (ServerExamples.lookup word 0 0%Q Server.initial).2)
     = [Server.ExactQuery word; Server.ExactQuery word].
Proof.
  intros word.
  assert (word <> []) as Hne by (vm_compute; discriminate).
  assert (Server.no_match ServerExamples.notKana ServerExamples.notKana
            ServerExamples.unconverted ServerExamples.unconverted
            ServerExamples.emptyDatabase word) as Hno.
  { split; [vm_compute; reflexivity|]. split; [|reflexivity].
    apply Forall_forall. intros v _. reflexivity. }
  split; [exact Hne|].
  destruct (unmatched_word_is_asked_for_twice
              ServerExamples.notKana ServerExamples.notKana
              ServerExamples.unconverted ServerExamples.unconverted
              ServerExamples.emptyDatabase word 0 0%Q Server.initial
              Hne Hno ltac:(vm_compute; reflexivity)) as (rest & _ & H).
  unfold ServerExamples.lookup. rewrite H. reflexivity.
Defined.

Lemma found_definition_is_served_from_cache_witness :
  let db := Server.mkDatabase
              (fun _ => Server.DbOk (Some 7)) (fun _ => Server.DbOk [])
              (fun _ => Server.DbOk
                          (Some (Server.mkEntryData None None (Some [])))) in
  let lookup := Server.getDefinitionAdvanced ServerExamples.notKana
                  ServerExamples.notKana ServerExamples.unconverted
                  ServerExamples.unconverted db in
  let word := js "猫" in
  let s1 := (lookup word 0 0%Q Server.initial).2 in
  Server.queries_issued Server.initial s1
  = [Server.ExactQuery word; Server.EntryQuery 7]
  /\ Server.queries_issued s1 (lookup word 5 0%Q s1).2 = [].
Proof.
  intros db lookup word s1.
  destruct (found_definition_is_served_from_cache
              ServerExamples.notKana ServerExamples.notKana
              ServerExamples.unconverted ServerExamples.unconverted db
              word 7 (Server.mkEntryData None None (Some [])) [] 0 5 0%Q 0%Q
              Server.initial)
    as (_ & H1 & _ & H2);
    try (vm_compute; reflexivity).
  split; [exact H1|exact H2].
Defined.

Lemma builtin_entries_need_no_database_witness :
  let word := js "は" in
  is_Some (Server.particle_lookup word)
  /\ Server.queries_issued Server.initial
       (ServerExamples.lookup word 0 0%Q Server.initial).2 = [].
Proof.
  intros word.
  destruct (Server.particle_lookup word) as [definition|] eqn:Hp;
    [|vm_compute in Hp; discriminate Hp].
  destruct (builtin_entries_need_no_database
              ServerExamples.notKana ServerExamples.notKana
              ServerExamples.unconverted ServerExamples.unconverted
              ServerExamples.emptyDatabase word definition 0 0%Q
              Server.initial Hp ltac:(vm_compute; reflexivity))
    as (_ & H & _).
  split; [by eexists|exact H].
Defined.

Lemma database_error_is_not_cached_witness :
  let db := Server.mkDatabase
              (fun _ => Server.DbError) (fun _ => Server.DbOk [])
              (fun _ => Server.DbOk None) in
  let lookup := Server.getDefinitionAdvanced ServerExamples.notKana
                  ServerExamples.notKana ServerExamples.unconverted
                  ServerExamples.unconverted db in
  let word := js "猫" in
  (lookup word 0 0%Q Server.initial).1 = JNull
  /\ PipelineSpec.definition_entries (lookup word 0 0%Q Server.initial).2
     = [].
Proof.
  intros db lookup word.
  destruct (database_error_is_not_cached
              ServerExamples.notKana ServerExamples.notKana
              ServerExamples.unconverted ServerExamples.unconverted db
              word 0 0%Q Server.initial)
    as (H1 & _ & H2); try (vm_compute; reflexivity).
  split; [exact H1|].
  unfold PipelineSpec.definition_entries. unfold lookup. rewrite H2.
  vm_compute. reflexivity.
Defined.

(** ** The performance monitor *)

Section MonitorFacts.
Import PerformanceMonitor.

Lemma last_n_snoc {A : Type} (n : nat) (l : list A) (x : A) :
  last_n n (l ++ [x])
  = (if Z.of_nat n <? Z.of_nat (List.length (last_n n l ++ [x]))
     then tail (last_n n l ++ [x]) else last_n n l ++ [x]).
Proof.
  unfold last_n. rewrite !length_app, length_drop. simpl.
  destruct (decide (List.length l < n)%nat) as [Hlt|Hge].
  - replace (List.length l - n)%nat with 0%nat by lia.
    replace (List.length l + 1 - n)%nat with 0%nat by lia. simpl.
    destruct (Z.ltb_spec (Z.of_nat n) (Z.of_nat (List.length l - 0 + 1)));
      [lia|done].
  - destruct (Z.ltb_spec (Z.of_nat n)
                (Z.of_nat (List.length l - (List.length l - n) + 1)));
      [|lia].
    replace (List.length l + 1 - n)%nat
      with (S (List.length l - n))%nat by lia.
    rewrite <- (drop_app_le l [x]) by lia.
    generalize (List.length l - n)%nat. intros k.
    generalize (l ++ [x]). clear. intros l. revert l.
    induction k as [|k IH]; intros [|y l]; simpl; done.
Qed.

Lemma run_snoc history f :
  run (history ++ [f]) new = step (run history new) f.
Proof. unfold run. by rewrite fold_left_app. Qed.

Lemma requests_step m f :
  requests (step m f)
  = requests (recordRequest (f_duration f) (f_ok f) (f_endpoint f)
                (f_tokenCount f) m)
  /\ parser (step m f)
     = parser (recordRequest (f_duration f) (f_ok f) (f_endpoint f)
                 (f_tokenCount f) m).
Proof. unfold step, finish. simpl. by destruct (gt _ _). Qed.

Lemma error_rate_bounds (e t : Z) :
  0 <= e <= t -> 0 < t ->
  (0 <= inject_Z e / inject_Z t * 100 <= 100)%Q.
Proof.
  intros He Ht.
  assert (0 < inject_Z t)%Q as Htq.
  { change 0%Q with (inject_Z 0). rewrite <- Zlt_Qlt. done. }
  assert (0 <= inject_Z e / inject_Z t)%Q as H0.
  { apply Qle_shift_div_l; [done|]. rewrite Qmult_0_l.
    change 0%Q with (inject_Z 0). rewrite <- Zle_Qle. lia. }
  assert (inject_Z e / inject_Z t <= 1)%Q as H1.
  { apply Qle_shift_div_r; [done|]. rewrite Qmult_1_l.
    rewrite <- Zle_Qle. lia. }
  split; lra.
Qed.

(** X25. The request metrics follow the history: after any sequence of
    finished requests on a fresh monitor, [total] is their number,
    [success] the number of successful ones and [errors] the rest;
    [responseTimeHistory] holds the durations of the last hundred, in
    order, and [averageResponseTime] is their mean; the error rate is a
    percentage between 0 and 100. *)
Theorem request_metrics_follow_the_history (history : list Finished) :
  let m := run history new in
  let r := requests m in
  let window := last_n 100 (List.map f_duration history) in
  total r = Z.of_nat (List.length history)
  /\ success r = Z.of_nat (List.length (List.filter f_ok history))
  /\ errors r = total r - success r
  /\ responseTimeHistory r = window
  /\ (history <> [] ->
      averageResponseTime r
      = (sum window / inject_Z (Z.of_nat (List.length window)))%Q)
  /\ (0 <= getErrorRate m <= 100)%Q.
Proof.
  cbn zeta.
  assert (let r := requests (run history new) in
          total r = Z.of_nat (List.length history)
          /\ success r = Z.of_nat (List.length (List.filter f_ok history))
          /\ errors r = total r - success r
          /\ responseTimeHistory r = last_n 100 (List.map f_duration history)
          /\ (history <> [] ->
              averageResponseTime r
              = (sum (last_n 100 (List.map f_duration history))
                 / inject_Z (Z.of_nat (List.length
                     (last_n 100 (List.map f_duration history)))))%Q))
    as H.
  { induction history as [|f history IH] using rev_ind.
    - simpl. repeat split; done.
    - cbn zeta in IH. destruct IH as (Ht & Hs & He & Hw & _).
      rewrite run_snoc. cbn zeta.
      rewrite (proj1 (requests_step _ _)). unfold recordRequest. simpl.
      rewrite Ht, Hs, He, Hw, Ht, Hs.
      rewrite List.filter_app, map_app, !length_app. simpl.
      rewrite (last_n_snoc 100). change (Z.of_nat 100) with 100.
      rewrite !length_app. simpl List.length.
      set (h := if 100 <? _ then _ else _).
      split; [lia|]. split; [destruct (f_ok f); simpl; lia|].
      split; [destruct (f_ok f); simpl; lia|].
      subst h. split; [reflexivity|intros _; reflexivity]. }
  cbn zeta in H. destruct H as (Ht & Hs & He & Hw & Ha).
  repeat (split; [done|]).
  unfold getErrorRate.
  destruct (Z.ltb_spec 0 (total (requests (run history new)))) as [Hpos|];
    [|split; lra].
  apply error_rate_bounds; [|done]. rewrite He, Hs, Ht.
  pose proof (List.filter_length_le f_ok history). lia.
Qed.

(** X26. The running averages of the parser statistics are arithmetic
    means: after any sequence of finished requests, [totalProcessed] is
    the number of '/api/full-analysis' requests that reported a positive
    token count, and [averageTokens] and [averageProcessingTime] times
    that number are the sums of their token counts and durations. *)
Theorem parser_averages_are_arithmetic_means (history : list Finished) :
  let p := parser (run history new) in
  let n := List.length (List.filter parsed history) in
  totalProcessed p = Z.of_nat n
  /\ (averageTokens p * inject_Z (Z.of_nat n)
      == inject_Z (parsed_tokens history))%Q
  /\ (averageProcessingTime p * inject_Z (Z.of_nat n)
      == parsed_time history)%Q
  /\ ((0 < n)%nat ->
      (averageTokens p
       == inject_Z (parsed_tokens history) / inject_Z (Z.of_nat n))%Q
      /\ (averageProcessingTime p
          == parsed_time history / inject_Z (Z.of_nat n))%Q).
Proof.
  cbn zeta.
  assert (let p := parser (run history new) in
          let n := List.length (List.filter parsed history) in
          totalProcessed p = Z.of_nat n
          /\ (averageTokens p * inject_Z (Z.of_nat n)
              == inject_Z (parsed_tokens history))%Q
          /\ (averageProcessingTime p * inject_Z (Z.of_nat n)
              == parsed_time history)%Q) as H.
  { induction history as [|f history IH] using rev_ind.
    - simpl. split; [done|]. split; reflexivity.
    - cbn zeta in IH. destruct IH as (Hn & Htok & Htime).
      rewrite run_snoc. cbn zeta.
      rewrite (proj2 (requests_step _ _)). unfold recordRequest.
      unfold parsed_tokens, parsed_time in *.
      rewrite List.filter_app, !map_app, length_app. simpl List.filter.
      fold (parsed f). simpl parser.
      destruct (parsed f) eqn:Hp.
      + simpl.
        rewrite !fold_left_app. simpl. unfold sum in *.
        rewrite !fold_left_app. simpl.
        rewrite Hn, !length_app. simpl List.length.
        replace (Z.of_nat (List.length (List.filter parsed history)) + 1 - 1)
          with (Z.of_nat (List.length (List.filter parsed history))) by lia.
        replace (Z.of_nat (List.length (List.filter parsed history) + 1))
          with (Z.of_nat (List.length (List.filter parsed history)) + 1)
          by lia.
        assert (~ inject_Z (Z.of_nat (List.length
                   (List.filter parsed history)) + 1) == 0)%Q as Hnz.
        { change 0%Q with (inject_Z 0). rewrite inject_Z_injective. lia. }
        split; [done|]. split.
        * rewrite Qmult_comm, Qmult_div_r by done.
          rewrite Htok. by rewrite inject_Z_plus.
        * rewrite Qmult_comm, Qmult_div_r by done.
          by rewrite Htime.
      + simpl. rewrite ?app_nil_r, ?Nat.add_0_r. done. }
  cbn zeta in H. destruct H as (Hn & Htok & Htime).
  split; [done|]. split; [done|]. split; [done|]. intros Hpos.
  assert (~ inject_Z (Z.of_nat (List.length (List.filter parsed history)))
            == 0)%Q as Hnz.
  { change 0%Q with (inject_Z 0). rewrite inject_Z_injective. lia. }
  split.
  - rewrite <- Htok. by rewrite Qdiv_mult_l.
  - rewrite <- Htime. by rewrite Qdiv_mult_l.
Qed.

(** X27. [slowQueries] holds the last fifty of the requests that took
    more than five seconds, in the order they finished, each with its
    endpoint, duration, time and token count. *)
Theorem slow_queries_are_the_last_fifty (history : list Finished) :
  slowQueries (run history new)
  = last_n 50 (List.map slow_query_of (List.filter slow history)).
Proof.
  induction history as [|f history IH] using rev_ind; [done|].
  rewrite run_snoc. unfold step, finish. simpl.
  rewrite List.filter_app, map_app. simpl. fold (slow f).
  destruct (slow f) eqn:Hs.
  - simpl. rewrite IH.
    rewrite (last_n_snoc 50). change (Z.of_nat 50) with 50. done.
  - simpl. rewrite IH. by rewrite app_nil_r.
Qed.

Lemma gt_spec (a b : Q) : gt a b = true <-> (b < a)%Q.
Proof.
  unfold gt. rewrite negb_true_iff. split.
  - intros H. apply Qnot_le_lt. intros Hle.
    apply Qle_bool_iff in Hle. congruence.
  - intros H. destruct (Qle_bool a b) eqn:Hle; [|done].
    apply Qle_bool_iff in Hle. apply Qlt_not_le in H. done.
Qed.

(** X28. The health status and the recommendations use thresholds that
    agree: a healthy monitor gets no memory and no reliability
    recommendation, and a monitor that is not healthy always gets a
    memory, a performance or a reliability recommendation. *)
Theorem status_is_explained_by_recommendations (m : t) :
  let recs := getPerformanceRecommendations m in
  (getHealthStatus m = healthy ->
   ("memory"%string ∉ recs) /\ ("reliability"%string ∉ recs))
  /\ (getHealthStatus m <> healthy ->
      "memory"%string ∈ recs \/ "performance"%string ∈ recs
      \/ "reliability"%string ∈ recs).
Proof.
  cbn zeta. unfold getHealthStatus, getPerformanceRecommendations.
  set (e := getErrorRate m). set (u := memory_percentage m).
  set (a := averageResponseTime (requests m)). set (h := cache_hitRate m).
  assert (forall x lo hi, (lo <= hi)%Q -> gt x hi = true -> gt x lo = true)
    as Hmono.
  { intros x lo hi Hle H. apply gt_spec. apply gt_spec in H.
    eapply Qle_lt_trans; eassumption. }
  assert (gt e 10 = true -> gt e 5 = true) as He
    by (apply Hmono; discriminate).
  assert (gt u 90 = true -> gt u 80 = true) as Hu
    by (apply Hmono; discriminate).
  assert (gt a 10000 = true -> gt a 5000 = true) as Ha1
    by (apply Hmono; discriminate).
  assert (gt a 5000 = true -> gt a 3000 = true) as Ha2
    by (apply Hmono; discriminate).
  destruct (gt e 10) eqn:E10; destruct (gt u 90) eqn:U90;
    destruct (gt a 10000) eqn:A10; destruct (gt e 5) eqn:E5;
    destruct (gt u 80) eqn:U80; destruct (gt a 5000) eqn:A5;
    destruct (gt a 3000) eqn:A3; destruct (gt 70 h) eqn:H70;
    simpl; try (specialize (He eq_refl)); try (specialize (Hu eq_refl));
    try (specialize (Ha1 eq_refl)); try (specialize (Ha2 eq_refl));
    try discriminate;
    (split; [intros Hh; try discriminate; split; intros Hin;
             repeat (apply elem_of_cons in Hin as [Hin|Hin];
                     [discriminate Hin|]); inversion Hin
            |intros Hh; try (exfalso; by apply Hh);
             repeat rewrite elem_of_cons;
             first [left; by auto 6 | right; left; by auto 6
                   | right; right; by auto 6]]).
Qed.
End MonitorFacts.

(** ** The fallback tokenizer *)

Section TokenizerFacts.
Import Tokenizer.

Lemma in_range_spec lo hi c :
  in_range lo hi c = true <-> (lo <= c <= hi)%N.
Proof.
  unfold in_range. rewrite andb_true_iff, !N.leb_le. done.
Qed.

Lemma space_is_whitespace c : getCharType c = space -> c ∈ whitespace.
Proof.
  unfold getCharType.
  destruct (in_range 19968 40879 c); [discriminate|].
  destruct (in_range 12352 12447 c); [discriminate|].
  destruct (in_range 12448 12543 c); [discriminate|].
  destruct (_ || _); [discriminate|].
  destruct (in_range 48 57 c); [discriminate|].
  destruct (is_whitespace c) eqn:Hw; [|discriminate]. intros _.
  unfold is_whitespace in Hw.
  apply orb_true_iff in Hw as [Hw|Hw];
    [apply orb_true_iff in Hw as [Hw|Hw]|].
  - apply in_range_spec in Hw. unfold whitespace.
    assert (c = 9 \/ c = 10 \/ c = 11 \/ c = 12 \/ c = 13)%N
      as [->|[->|[->|[->| ->]]]] by lia;
      apply list_elem_of_In; simpl; tauto.
  - apply bool_decide_eq_true in Hw. unfold whitespace.
    repeat (apply elem_of_cons in Hw as [->|Hw];
            [apply list_elem_of_In; simpl; tauto|]).
    inversion Hw.
  - apply in_range_spec in Hw. unfold whitespace.
    assert (c = 8192 \/ c = 8193 \/ c = 8194 \/ c = 8195 \/ c = 8196
            \/ c = 8197 \/ c = 8198 \/ c = 8199 \/ c = 8200 \/ c = 8201
            \/ c = 8202)%N
      as [->|[->|[->|[->|[->|[->|[->|[->|[->|[->| ->]]]]]]]]]] by lia;
      apply list_elem_of_In; simpl; tauto.
Qed.

Lemma whitespace_is_unknown :
  Forall (fun c => estimateGrammar [c] (Some (getCharType c))
                   = mkEstimate "Unknown" (1 # 10) "fallback_default")
         whitespace.
Proof. unfold whitespace. repeat constructor. Qed.

Lemma number_default_needs_no_digits s ct :
  rule (estimateGrammar s ct) = "number_default"%string ->
  ct = Some number /\ numbers s = false.
Proof.
  unfold estimateGrammar.
  destruct (includes particles s); [discriminate|].
  destruct (includes verbs s); [discriminate|].
  destruct (includes adjectives s); [discriminate|].
  destruct (includes adverbs s); [discriminate|].
  destruct (includes demonstratives s); [discriminate|].
  destruct (numbers s); [discriminate|].
  destruct (_ && _); [discriminate|].
  destruct (_ || _); [discriminate|].
  destruct (_ || _); [discriminate|].
  destruct (_ || _); [discriminate|].
  destruct (_ && _); [discriminate|].
  destruct (Str.endsWith _ _); [discriminate|].
  destruct ct as [[]|]; simpl; try discriminate. done.
Qed.

Lemma number_type_is_digit c :
  group (getCharType c) = number -> in_range 48 57 c = true.
Proof.
  unfold getCharType.
  destruct (in_range 19968 40879 c); [discriminate|].
  destruct (in_range 12352 12447 c); [discriminate|].
  destruct (in_range 12448 12543 c); [discriminate|].
  destruct (_ || _); [discriminate|].
  destruct (in_range 48 57 c); [done|].
  destruct (is_whitespace c); discriminate.
Qed.

(** The chunk the loop makes of a well-grouped run. *)
Lemma pushed_chunk_sound t s :
  well_grouped t s -> forallb visible s = true ->
  sound (mkChunk s (estimateGrammar s (Some t)) Enhanced).
Proof.
  intros Hg Hv. split; [done|]. split; [done|]. split; [by exists t|].
  simpl. intros Hr. apply number_default_needs_no_digits in Hr as [Ht Hn].
  injection Ht as ->. destruct Hg as (_ & Hne & Hall).
  unfold numbers in Hn. destruct s as [|c s]; [done|].
  apply orb_false_iff in Hn as [Hn _].
  assert (forallb (in_range 48 57) (c :: s) = true) as Hd; [|congruence].
  apply forallb_forall. intros x Hx. apply number_type_is_digit.
  rewrite Forall_forall in Hall. apply Hall, list_elem_of_In, Hx.
Qed.

Lemma joins_group t t' :
  joins (Some t) t' = true -> group t' = group t.
Proof.
  unfold joins. destruct t, t'; simpl; try done;
    repeat case_bool_decide; simpl; done.
Qed.

Lemma push_inv done l :
  loop_inv done l ->
  concat (List.map text (push l)) = List.filter visible done
  /\ Forall sound (push l).
Proof.
  intros (Hc & Hs & Hv & Ht). unfold push.
  destruct (currentChunk l) as [|c s] eqn:Hcur; simpl.
  - rewrite app_nil_r in Hc. done.
  - destruct (currentType l) as [t|]; [|done].
    rewrite map_app, concat_app. simpl. rewrite app_nil_r.
    split; [done|]. apply Forall_app. split; [done|].
    apply Forall_cons. split; [|done]. by apply pushed_chunk_sound.
Qed.

Lemma step_inv done l c :
  loop_inv done l -> loop_inv (done ++ [c]) (step l c).
Proof.
  intros Hl. pose proof (push_inv done l Hl) as [Hpc Hps].
  destruct Hl as (Hc & Hs & Hv & Ht).
  assert (List.filter visible (done ++ [c])
          = List.filter visible done ++ (if visible c then [c] else []))
    as Hf by (rewrite List.filter_app; simpl; by destruct (visible c)).
  unfold loop_inv, step. rewrite Hf. unfold visible at 2.
  destruct (bool_decide (getCharType c = space)) eqn:Hsp; simpl negb; cbv iota.
  - (* a whitespace character *)
    rewrite app_nil_r.
    destruct (Str.truthy (currentChunk l)) eqn:Htr.
    + simpl. rewrite app_nil_r. done.
    + done.
  - assert (visible c = true) as Hvc by (unfold visible; by rewrite Hsp).
    destruct (joins (currentType l) (getCharType c)) eqn:Hj.
    + (* the character joins the current chunk *)
      simpl. split; [by rewrite app_assoc, Hc|]. split; [done|].
      split; [rewrite forallb_app, Hv; simpl; by rewrite Hvc|].
      destruct (currentType l) as [t|].
      * destruct Ht as (Hts & Hne & Hall). split; [done|].
        split; [by destruct (currentChunk l)|].
        apply Forall_app. split; [done|]. apply Forall_cons.
        split; [by apply joins_group|done].
      * rewrite Ht. simpl. apply bool_decide_eq_false in Hsp.
        split; [done|]. split; [done|]. by apply Forall_cons.
    + (* the character starts a new chunk *)
      simpl. split; [by rewrite Hpc|]. split; [done|].
      split; [by rewrite Hvc|].
      apply bool_decide_eq_false in Hsp.
      split; [done|]. split; [done|]. by apply Forall_cons.
Qed.

Lemma loop_inv_fold s :
  forall done l, loop_inv done l ->
                 loop_inv (done ++ s) (fold_left step s l).
Proof.
  induction s as [|c s IH]; intros done l Hl; simpl.
  - by rewrite app_nil_r.
  - replace (done ++ c :: s) with ((done ++ [c]) ++ s)
      by (by rewrite <- app_assoc).
    by apply IH, step_inv.
Qed.

Lemma loop_inv_start : loop_inv [] (mkLoop [] [] None).
Proof. repeat split; done. Qed.

Lemma filter_visible_nil s :
  List.filter visible s = [] <-> existsb visible s = false.
Proof.
  induction s as [|c s IH]; simpl; [done|].
  destruct (visible c); simpl; [split; discriminate|done].
Qed.

(** The grouping loop on the whole text. *)
Lemma grouping_loop s :
  let chunks := push (fold_left step s (mkLoop [] [] None)) in
  concat (List.map text chunks) = List.filter visible s
  /\ Forall sound chunks.
Proof.
  apply (push_inv s). apply (loop_inv_fold s [] _ loop_inv_start).
Qed.

(** X29. The fallback tokenizer keeps every character but the white
    space, in order: when the text has a character that is not white
    space, the chunk texts put end to end are the text without its
    white space, and every chunk is non-empty and holds no white space.
    A text of white space alone is instead returned character by
    character, white space included, each chunk an Unknown. *)
Theorem tokenizer_keeps_all_but_whitespace (s : jsstring) :
  let result := basicTokenize s in
  (existsb visible s = true ->
   concat (List.map text result) = List.filter visible s
   /\ Forall (fun ch => text ch <> []
                        /\ forallb visible (text ch) = true
                        /\ origin ch = Enhanced) result)
  /\ (existsb visible s = false ->
      List.map text result = List.map (fun c => [c]) s
      /\ Forall (fun ch => pos (grammar ch) = "Unknown"%string) result).
Proof.
  cbn zeta. unfold basicTokenize.
  destruct (grouping_loop s) as [Hc Hs]. cbn zeta in Hc, Hs.
  destruct (push (fold_left step s (mkLoop [] [] None))) as [|ch chs] eqn:Hp.
  - simpl in Hc. symmetry in Hc. apply filter_visible_nil in Hc.
    split; [intros H; congruence|]. intros _.
    assert (Forall (fun c => getCharType c = space) s) as Hall.
    { clear -Hc. induction s as [|c s IH]; [done|]. simpl in Hc.
      apply orb_false_iff in Hc as [Hv Hc]. apply Forall_cons.
      split; [|by apply IH]. unfold visible in Hv.
      apply negb_false_iff, bool_decide_eq_true in Hv. done. }
    unfold emergency. clear -Hall.
    assert (forall k,
      List.map text
        (imap (fun index c =>
                 mkChunk [c] (estimateGrammar [c] (Some (getCharType c)))
                         (Emergency (S (k + index)))) s)
      = List.map (fun c => [c]) s
      /\ Forall (fun ch => pos (grammar ch) = "Unknown"%string)
           (imap (fun index c =>
                    mkChunk [c] (estimateGrammar [c] (Some (getCharType c)))
                            (Emergency (S (k + index)))) s)) as H.
    { induction Hall as [|c s Hcs _ IH]; intros k; simpl; [done|].
      destruct (IH (S k)) as [IH1 IH2].
      assert (forall (f g : nat -> N -> Chunk),
                (forall i x, f i x = g i x) -> imap f s = imap g s) as Hext.
      { intros f g Hfg. apply imap_ext. intros i x _. apply Hfg. }
      rewrite (Hext _ (fun index c =>
                 mkChunk [c] (estimateGrammar [c] (Some (getCharType c)))
                         (Emergency (S (S k + index)))))
        by (intros i x; simpl; do 3 f_equal; lia).
      split; [by f_equal|]. apply Forall_cons. split; [|done]. simpl.
      pose proof whitespace_is_unknown as Hw. rewrite Forall_forall in Hw.
      by rewrite (Hw c (space_is_whitespace c Hcs)). }
    exact (H 0%nat).
  - split.
    2:{ intros H. exfalso. apply filter_visible_nil in H. rewrite H in Hc.
        simpl in Hc. apply app_eq_nil in Hc as [Hc _].
        apply Forall_cons in Hs as [(_ & _ & (t & _ & Hne & _) & _) _].
        done. }
    intros _. split; [done|].
    eapply Forall_impl; [exact Hs|].
    intros x (Ho & Hv & (t & _ & Hne & _) & _). done.
Qed.

(** X30. The chunks of the grouping loop are runs of one kind, kanji
    and hiragana counting as one kind, and none of them is estimated by
    the rule [number_default]: a run of digits always matches the
    number pattern first. The same holds of the character-by-character
    fallback, whose characters are all white space. *)
Theorem chunks_are_runs_of_one_kind (s : jsstring) :
  Forall (fun ch =>
            rule (grammar ch) <> "number_default"%string
            /\ (origin ch = Enhanced ->
                exists t, t <> space
                  /\ Forall (fun c => group (getCharType c) = group t)
                            (text ch)))
         (basicTokenize s).
Proof.
  unfold basicTokenize.
  destruct (grouping_loop s) as [Hc Hs]. cbn zeta in Hc, Hs.
  destruct (push (fold_left step s (mkLoop [] [] None))) as [|ch chs] eqn:Hp.
  - simpl in Hc. symmetry in Hc. apply filter_visible_nil in Hc.
    assert (Forall (fun c => getCharType c = space) s) as Hall.
    { clear -Hc. induction s as [|c s IH]; [done|]. simpl in Hc.
      apply orb_false_iff in Hc as [Hv Hc]. apply Forall_cons.
      split; [|by apply IH]. unfold visible in Hv.
      apply negb_false_iff, bool_decide_eq_true in Hv. done. }
    unfold emergency. clear -Hall. apply Forall_forall. intros ch Hin.
    apply elem_of_lookup_imap in Hin as (i & c & -> & Hic). simpl.
    split; [|discriminate].
    assert (getCharType c = space) as Hcs.
    { rewrite Forall_forall in Hall. apply Hall.
      by apply (list_elem_of_lookup_2 _ i). }
    pose proof whitespace_is_unknown as Hw. rewrite Forall_forall in Hw.
    by rewrite (Hw c (space_is_whitespace c Hcs)).
  - eapply Forall_impl; [exact Hs|].
    intros x (Ho & Hv & (t & Hts & Hne & Hall) & Hr).
    split; [done|]. intros _. by exists t.
Qed.
End TokenizerFacts.

(** ** From the database build to the lookup *)

Section SenseRoundTrip.
Import BuildDatabase.
Variable Number_toString : Double.t -> jsstring.

Local Abbreviation sep := [44%N; 32%N].

Lemma split_from_cons (p cur : jsstring) c s :
  Server.split_from p cur (c :: s) 0
  = if Str.startsWith_aux p (c :: s)
    then cur :: Server.split_from p [] s (List.length p - 1)
    else Server.split_from p (cur ++ [c]) s 0.
Proof. reflexivity. Qed.

Lemma starts_with_sep c s :
  Str.startsWith_aux sep (c :: s)
  = bool_decide (44%N = c) && bool_decide (head s = Some 32%N).
Proof.
  simpl. destruct s as [|d s]; simpl.
  - by rewrite andb_false_r.
  - rewrite andb_true_r. f_equal.
    destruct (decide (32%N = d)) as [->|Hne].
    + by rewrite !bool_decide_true.
    + rewrite !bool_decide_false; [done| |done]. congruence.
Qed.

(** Scanning a stretch without separator only extends the current
    piece, provided no separator straddles its end. *)
Lemma split_from_free (x : jsstring) :
  forall cur rest,
    includes sep x = false -> head rest <> Some 32%N ->
    Server.split_from sep cur (x ++ rest) 0
    = Server.split_from sep (cur ++ x) rest 0.
Proof.
  induction x as [|c x IH]; intros cur rest Hx Hr.
  - by rewrite app_nil_r.
  - change ((c :: x) ++ rest) with (c :: (x ++ rest)).
    rewrite split_from_cons.
    cbn [includes] in Hx. apply orb_false_iff in Hx as [Hhere Hx].
    rewrite starts_with_sep in Hhere.
    assert (Str.startsWith_aux sep (c :: x ++ rest) = false) as ->.
    { rewrite starts_with_sep.
      destruct (bool_decide (44%N = c)); [|done]. simpl in *.
      apply bool_decide_eq_false. apply bool_decide_eq_false in Hhere.
      destruct x as [|d x]; simpl in *; [done|done]. }
    rewrite IH by done. f_equal. by rewrite <- app_assoc.
Qed.

Lemma split_join (ps : list jsstring) :
  ps <> [] ->
  Forall (fun p => includes sep p = false) ps ->
  Server.split sep (join sep ps) = ps.
Proof.
  unfold Server.split. induction ps as [|x ps IH]; [done|]. intros _ Hall.
  apply Forall_cons in Hall as [Hx Hall].
  destruct ps as [|y ps].
  - simpl join. rewrite <- (app_nil_r x) at 1.
    rewrite split_from_free by done. done.
  - change (join sep (x :: y :: ps)) with (x ++ sep ++ join sep (y :: ps)).
    rewrite split_from_free by done. simpl.
    f_equal. by apply IH.
Qed.

(** The parts of speech the lookup splits out of the stored string. *)
Lemma stored_parts_read_back (pos : OneOrMany Primitive) :
  Forall (fun p => includes sep p = false) (pos_list Number_toString pos) ->
  (if Str.truthy (partsOfSpeech Number_toString pos)
   then List.filter Str.truthy
          (Server.split sep (partsOfSpeech Number_toString pos))
   else [])
  = named_parts Number_toString pos.
Proof.
  intros Hfree. unfold partsOfSpeech, named_parts.
  destruct pos as [|p|ps]; simpl.
  - done.
  - destruct (truthy p); [|done].
    destruct (Str.truthy (String Number_toString p)) eqn:Hp; [|done].
    simpl in Hfree. apply Forall_cons in Hfree as [Hfree _].
    change (String Number_toString p)
      with (join sep [String Number_toString p]) at 1.
    rewrite (split_join [String Number_toString p]);
      [simpl; by rewrite Hp|done|].
    by apply Forall_cons.
  - simpl in Hfree. change (js ", ") with sep.
    destruct (Str.truthy (join sep (List.map (String Number_toString) ps)))
      eqn:Hj.
    + rewrite split_join; [done| |done]. intros Hnil. by rewrite Hnil in Hj.
    + assert (forall l, Str.truthy (join sep l) = false ->
                        List.filter Str.truthy l = []) as H; [|by rewrite H].
      clear. intros l. destruct l as [|x [|y l]]; simpl; [done| |].
      * intros ->. done.
      * intros H. by destruct x.
Qed.

(** One stored row, read back by the lookup. *)
Lemma stored_row_reads_back (s : XmlSense) row :
  separator_free Number_toString s ->
  sense_row Number_toString s = Some row ->
  exists glosses,
    strings_of (definitions Number_toString (s_gloss s)) = Some glosses
    /\ Server.sense_of row
       = Server.mkSense glosses (named_parts Number_toString (s_pos s)).
Proof.
  intros Hfree. unfold sense_row.
  destruct (strings_of _) as [glosses|]; [|done]. simpl. intros [= <-].
  exists glosses. split; [done|]. unfold Server.sense_of. simpl. f_equal.
  by apply stored_parts_read_back.
Qed.

Lemma stored_rows_read_back (senses : list XmlSense) rows :
  Forall (separator_free Number_toString) senses ->
  sense_rows Number_toString senses = Some rows ->
  Server.senses_of rows = omap (read_back Number_toString) senses.
Proof.
  unfold sense_rows. intros Hfree Hrows. apply mapM_Some in Hrows.
  unfold Server.senses_of.
  induction Hrows as [|s row senses rows Hrow _ IH]; [done|].
  apply Forall_cons in Hfree as [Hs Hfree].
  destruct (stored_row_reads_back s row Hs Hrow) as (glosses & Hg & Hsense).
  assert (read_back Number_toString s
          = match glosses with
            | [] => None
            | _ => Some (Server.mkSense glosses
                           (named_parts Number_toString (s_pos s)))
            end) as Hback.
  { unfold read_back. by rewrite Hg. }
  change (omap (read_back Number_toString) (s :: senses))
    with (match read_back Number_toString s with
          | Some sense => sense :: omap (read_back Number_toString) senses
          | None => omap (read_back Number_toString) senses
          end).
  cbn [List.map List.filter]. rewrite Hsense, Hback, (IH Hfree).
  destruct glosses; done.
Qed.

(** X9. The senses written by the database build read back in the
    lookup. If the entry query returns, in order, the rows the build
    wrote for the [sense] elements of an entry, then
    [buildDefinitionFromEntry] returns a definition whose senses are
    those of the elements that have a gloss, each with its glosses as
    English definitions and the non-empty parts of speech it names;
    a sense without glosses, or whose single gloss is falsy (the
    number 0, the empty string), is stored with an empty array and
    dropped. This holds for rows whose gloss arrays hold strings, and
    provided no part of speech contains the separator ', ' the build
    joins them with. *)
Theorem stored_senses_read_back (senses : list XmlSense)
  (rows : list Server.SenseRow) (db : Server.Database) (entry_id : Z)
  (data : Server.EntryData) (originalWord matchedVariant : jsstring)
  (now : Z) (s : Server.State) :
  sense_rows Number_toString senses = Some rows ->
  Forall (separator_free Number_toString) senses ->
  Server.entryQuery db entry_id = Server.DbOk (Some data) ->
  Server.senses_column data = Some rows ->
  exists d,
    (Server.buildDefinitionFromEntry db entry_id originalWord matchedVariant
       now s).1 = Some d
    /\ Server.senses d = omap (read_back Number_toString) senses.
Proof.
  intros Hrows Hfree Hq Hcol.
  unfold Server.buildDefinitionFromEntry, Server.try_or_null, Server.bind,
    Server.query, Server.ret, Server.cache_set.
  rewrite Hq, Hcol. eexists. split.
  - destruct (bool_decide (matchedVariant = originalWord)); reflexivity.
  - simpl. by apply stored_rows_read_back.
Qed.
End SenseRoundTrip.

Lemma stored_senses_read_back_witness :
  let senses := [BuildExamples.study; BuildExamples.zero] in
  let rows := [Server.mkSenseRow (Some (js "noun, suru verb"))
                 (Server.GlossArray [js "study"; js "learning"]);
               Server.mkSenseRow (Some (js "numeric"))
                 (Server.GlossArray [])] in
  BuildDatabase.sense_rows BuildExamples.integer_toString senses = Some rows
  /\ exists d,
       (Server.buildDefinitionFromEntry (BuildExamples.holding rows) 1
          (js "benkyou") (js "benkyou") 0
          (Server.mkState MultiLevelCache.new [])).1 = Some d
       /\ Server.senses d
          = [Server.mkSense [js "study"; js "learning"]
                            [js "noun"; js "suru verb"]].
Proof.
  intros senses rows.
  assert (BuildDatabase.sense_rows BuildExamples.integer_toString senses
          = Some rows) as Hrows by (vm_compute; reflexivity).
  split; [exact Hrows|].
  destruct (stored_senses_read_back BuildExamples.integer_toString
              senses rows (BuildExamples.holding rows) 1
              (Server.mkEntryData None (Some (js "benkyou")) (Some rows))
              (js "benkyou") (js "benkyou") 0
              (Server.mkState MultiLevelCache.new []) Hrows)
    as (d & Hd & Hsenses).
  - repeat constructor.
  - reflexivity.
  - reflexivity.
  - exists d. split; [exact Hd|]. rewrite Hsenses. vm_compute. reflexivity.
Defined.

(** A gloss that reads as a number is stored as its rendering, except
    that the number 0 alone counts as no gloss at all. *)
Lemma numeric_glosses :
  BuildDatabase.definitions BuildExamples.integer_toString
    (BuildDatabase.s_gloss BuildExamples.zero) = []
  /\ BuildDatabase.read_back BuildExamples.integer_toString
       BuildExamples.zero = None
  /\ BuildDatabase.definitions BuildExamples.integer_toString
       (BuildDatabase.s_gloss BuildExamples.seven)
     = [BuildDatabase.PString (js "7")].
Proof. vm_compute. repeat split; reflexivity. Qed.
